(** * Lambda Chat: the signaling relay and the browser client

    A shallow embedding of the relay (the server script in lines 1-101 of
    [src/unnamed/part_000]; the file goes on with a variant of the script
    without user names, which module [Variant] embeds) and of the client
    ([src/client.js]), with the properties of the protocol description
    stated and settled against them.

    Conventions.
    - A JavaScript number that holds a client id is an integer; it is
      modelled as [Z].  The counter [nextClientId] starts at 1 and is only
      ever incremented, which is exact on IEEE doubles for the first 2^53
      connections; the model treats it as a mathematical integer.  A JSON
      number is an integer too: a fractional one is truthy and is the id of
      no client, like an integer that no client has.
    - [JSON.parse] and [JSON.stringify] belong to the runtime.  A frame is
      modelled by what [JSON.parse] makes of it: a syntax error or a value.
      A message put on the wire is modelled by the value the receiver
      parses, so a property whose value is [undefined] is absent.
    - Every event handler of the relay runs to completion before the next
      event is dispatched (single-threaded event loop).
    - A log line is a template literal, which converts the values it prints
      to strings before anything is logged.  The conversion throws a
      [TypeError] for some values that [JSON.parse] can make ([printable]
      says for which), so a user name read from a frame can make a log line
      throw. *)

From Stdlib Require Import ssreflect.
From stdpp Require Import gmap strings list sorting.

#[local] Set Warnings "-rewrite-rw,-clear-no-such-hyp".
Local Open Scope general_if_scope.
Local Open Scope Z_scope.

(** ** JSON values *)

Module Json.

#[local] Set Warnings "-register-all".

Inductive value : Type :=
| Null
| Bool (b : bool)
| Num (n : Z)
| Str (s : string)
| Arr (items : list value)
| Obj (fields : list (string * value)).

(** A frame as [JSON.parse] sees it. *)
Inductive frame : Type :=
| Malformed
| Text (v : value).

Definition JSON_parse (message : frame) : option value :=
  match message with
  | Malformed => None
  | Text v => Some v
  end.

(** JavaScript truthiness, as used by [if (data.targetPeerId)] and by
    [!state.myPeerId && data.senderId]. *)
Definition truthy (v : value) : bool :=
  match v with
  | Null => false
  | Bool b => b
  | Num n => negb (n =? 0)
  | Str s => negb (String.eqb s "")
  | Arr _ => true
  | Obj _ => true
  end.

(** Truthiness of a property read, where [None] is [undefined]. *)
Definition truthy_opt (o : option value) : bool :=
  match o with
  | Some v => truthy v
  | None => false
  end.

Fixpoint lookup_field (k : string) (fields : list (string * value)) : option value :=
  match fields with
  | [] => None
  | (k', v) :: rest => if String.eqb k k' then Some v else lookup_field k rest
  end.

(** [data.k = v] on an object: an existing property keeps its place. *)
Fixpoint set_field (k : string) (v : value) (fields : list (string * value))
  : list (string * value) :=
  match fields with
  | [] => [(k, v)]
  | (k', v') :: rest =>
      if String.eqb k k' then (k, v) :: rest else (k', v') :: set_field k v rest
  end.

Definition remove_field (k : string) (fields : list (string * value))
  : list (string * value) :=
  List.filter (fun kv => negb (String.eqb k (fst kv))) fields.

(** [data.k = v] followed by [JSON.stringify(data)], where [v] may be
    [undefined] ([None]): the property is then left out of the text. *)
Definition assign (k : string) (v : option value) (fields : list (string * value))
  : list (string * value) :=
  match v with
  | Some v => set_field k v fields
  | None => remove_field k fields
  end.

(** [data.k] for any parsed value other than [null]: only objects carry the
    properties the relay reads. *)
Definition get (k : string) (data : value) : option value :=
  match data with
  | Obj fields => lookup_field k fields
  | _ => None
  end.

(** Whether the template literal [`${v}`] can be built.  On a value made
    by [JSON.parse] the conversion to a string throws a [TypeError] for an
    object with an own property [toString] (its value is never a function,
    and [Object.prototype.valueOf] gives the object back), and for an array
    whose [join] comes across such an object; any other object prints as
    ["[object Object]"]. *)
Fixpoint printable (v : value) : bool :=
  match v with
  | Obj fields =>
      match lookup_field "toString" fields with
      | Some _ => false
      | None => true
      end
  | Arr items => forallb printable items
  | _ => true
  end.

(** The same for a property read; [undefined] prints as ["undefined"]. *)
Definition printable_opt (o : option value) : bool :=
  match o with
  | Some v => printable v
  | None => true
  end.

(** An object literal as it appears on the wire. *)
Fixpoint literal (props : list (string * option value)) : list (string * value) :=
  match props with
  | [] => []
  | (k, Some v) :: rest => (k, v) :: literal rest
  | (_, None) :: rest => literal rest
  end.

End Json.

(** ** JavaScript [Map] with integer keys, in insertion order *)

Module JsMap.

Section Ops.
Context {V : Type}.

Fixpoint get (k : Z) (m : list (Z * V)) : option V :=
  match m with
  | [] => None
  | (k', v) :: rest => if k =? k' then Some v else get k rest
  end.

Fixpoint set (k : Z) (v : V) (m : list (Z * V)) : list (Z * V) :=
  match m with
  | [] => [(k, v)]
  | (k', v') :: rest =>
      if k =? k' then (k, v) :: rest else (k', v') :: set k v rest
  end.

Fixpoint delete (k : Z) (m : list (Z * V)) : list (Z * V) :=
  match m with
  | [] => []
  | (k', v') :: rest =>
      if k =? k' then delete k rest else (k', v') :: delete k rest
  end.

Definition keys (m : list (Z * V)) : list Z := fst <$> m.
End Ops.

End JsMap.

(** ** The relay *)

Module Relay.
Import Json.

Inductive ready_state := CONNECTING | OPEN | CLOSING | CLOSED.

Definition ready_state_eqb (a b : ready_state) : bool :=
  match a, b with
  | CONNECTING, CONNECTING | OPEN, OPEN | CLOSING, CLOSING | CLOSED, CLOSED => true
  | _, _ => false
  end.

(** The ['message'] listener of a transport.  [ws.once] installs the
    registration listener; it is removed when it fires, and installs the
    forwarding listener (a closure over [username]) if registration
    succeeds. *)
Inductive listener :=
| AwaitRegister
| Forwarding (username : option value)
| NoListener.

(** A transport of the [ws] library: its state and what was sent on it. *)
Record socket := Socket {
  readyState : ready_state;
  on_message : listener;
  sent : list value
}.

(** A registry entry [{ws, username, clientId}]; [ws] is a reference to the
    transport, which is shared with the connection's own closures. *)
Record client := Client {
  ws : Z;
  username : option value;
  clientId : Z
}.

Record relay := RelayState {
  nextClientId : Z;
  clients : list (Z * client);
  sockets : gmap Z socket
}.

Definition initial : relay :=
  {| nextClientId := 1; clients := []; sockets := ∅ |}.

Inductive error := SyntaxError | TypeError.

(** How a handler ends: normally, or with an exception nobody catches. *)
Inductive outcome :=
| Ok (st : relay)
| Uncaught (e : error) (st : relay).

Definition with_sockets (f : gmap Z socket -> gmap Z socket) (st : relay) : relay :=
  {| nextClientId := nextClientId st; clients := clients st; sockets := f (sockets st) |}.

Definition with_clients (f : list (Z * client) -> list (Z * client)) (st : relay) : relay :=
  {| nextClientId := nextClientId st; clients := f (clients st); sockets := sockets st |}.

Definition ready_of (w : Z) (st : relay) : ready_state :=
  match sockets st !! w with
  | Some s => readyState s
  | None => CLOSED
  end.

Definition sent_of (w : Z) (st : relay) : list value :=
  match sockets st !! w with
  | Some s => sent s
  | None => []
  end.

Definition is_open (w : Z) (st : relay) : bool := ready_state_eqb (ready_of w st) OPEN.

(** [ws.send(JSON.stringify(msg))]: the text goes out on an open transport
    and is discarded by the library on a closing or closed one. *)
Definition socket_send (msg : value) (s : socket) : socket :=
  match readyState s with
  | OPEN => {| readyState := OPEN; on_message := on_message s; sent := sent s ++ [msg] |}
  | _ => s
  end.

Definition ws_send (w : Z) (msg : value) (st : relay) : relay :=
  with_sockets (alter (socket_send msg) w) st.

(** [ws.close()]: starts the closing handshake. *)
Definition socket_close (s : socket) : socket :=
  match readyState s with
  | OPEN | CONNECTING =>
      {| readyState := CLOSING; on_message := on_message s; sent := sent s |}
  | _ => s
  end.

Definition ws_close (w : Z) (st : relay) : relay :=
  with_sockets (alter socket_close w) st.

Definition set_listener (l : listener) (s : socket) : socket :=
  {| readyState := readyState s; on_message := l; sent := sent s |}.

Definition set_ready (r : ready_state) (s : socket) : socket :=
  {| readyState := r; on_message := on_message s; sent := sent s |}.

(** [wss.on('connection')], lines 8-9: the id is taken from the counter
    before anything is read from the transport. *)
Definition on_connection (st : relay) : Z * relay :=
  let clientId := nextClientId st in
  (clientId,
   {| nextClientId := nextClientId st + 1;
      clients := clients st;
      sockets := <[clientId := Socket OPEN AwaitRegister []]> (sockets st) |}).

(** Lines 35-40. *)
Definition existing_peers (me : Z) (cs : list (Z * client)) : list value :=
  map (fun e : Z * client =>
         Obj (literal [("clientId", Some (Num (fst e)));
                       ("username", username (snd e))]))
      (List.filter (fun e : Z * client => negb (fst e =? me)) cs).

Definition existing_peers_msg (peers : list value) : value :=
  Obj [("type", Str "existing-peers"); ("peers", Arr peers)].

Definition new_peer_msg (me : Z) (uname : option value) : value :=
  Obj (literal [("type", Some (Str "new-peer"));
                ("peerId", Some (Num me));
                ("username", uname)]).

Definition peer_disconnected_msg (me : Z) (uname : option value) : value :=
  Obj (literal [("type", Some (Str "peer-disconnected"));
                ("peerId", Some (Num me));
                ("username", uname)]).

(** Lines 50-58: [clients.forEach] with the guard on id and readiness. *)
Definition notify_new_peer (me : Z) (uname : option value) (st : relay) : relay :=
  fold_left
    (fun acc (e : Z * client) =>
       if negb (fst e =? me) && is_open (ws (snd e)) acc
       then ws_send (ws (snd e)) (new_peer_msg me uname) acc
       else acc)
    (clients st) st.

(** Lines 89-97. *)
Definition notify_disconnected (me : Z) (uname : option value) (st : relay) : relay :=
  fold_left
    (fun acc (e : Z * client) =>
       if is_open (ws (snd e)) acc
       then ws_send (ws (snd e)) (peer_disconnected_msg me uname) acc
       else acc)
    (clients st) st.

(** Lines 34-75: what follows the log line of line 32. *)
Definition announce (me : Z) (uname : option value) (st1 : relay) : relay :=
  let existingPeers := existing_peers me (clients st1) in
  let st2 := if (0 <? Z.of_nat (length existingPeers))
             then ws_send me (existing_peers_msg existingPeers) st1
             else st1 in
  let st3 := notify_new_peer me uname st2 in
  with_sockets (alter (set_listener (Forwarding uname)) me) st3.

(** Lines 22-75: the body of the registration listener once the first
    frame is known to be a [register] object.  The entry is stored (line
    25) before the log line is built (line 32); when [username] cannot be
    converted to a string the template literal throws, the [catch] of line
    76 closes the transport, and the entry stays where it is. *)
Definition register (me : Z) (data : value) (st : relay) : relay :=
  let uname := get "username" data in
  let st1 := with_clients (JsMap.set me (Client me uname me)) st in
  if printable_opt uname
  then announce me uname st1
  else ws_close me st1.                             (* TypeError, caught *)

(** Lines 12-20 and 76-79: the registration listener, with its
    [try]/[catch]. *)
Definition first_message (me : Z) (message : frame) (st : relay) : relay :=
  match JSON_parse message with
  | None => ws_close me st                         (* SyntaxError, caught *)
  | Some Null => ws_close me st                     (* TypeError on [data.type], caught *)
  | Some data =>
      match get "type" data with
      | Some (Str "register") => register me data st
      | _ => ws_close me st
      end
  end.

(** Lines 65-66 as seen on the wire. *)
Definition stamp (me : Z) (uname : option value) (fields : list (string * value))
  : list (string * value) :=
  assign "username" uname (set_field "senderId" (Num me) fields).

(** [clients.get(data.targetPeerId)], line 70. *)
Definition clients_get (key : option value) (st : relay) : option client :=
  match key with
  | Some (Num k) => JsMap.get k (clients st)
  | _ => None
  end.

(** Lines 61-75: the forwarding listener.  It runs after the [try] block
    that installed it has been left, so what it throws is caught by
    nobody. *)
Definition forward_message (me : Z) (uname : option value) (message : frame) (st : relay)
  : outcome :=
  match JSON_parse message with
  | None => Uncaught SyntaxError st
  | Some Null => Uncaught TypeError st
  | Some (Obj fields) =>
      let data := stamp me uname fields in
      if truthy_opt (lookup_field "targetPeerId" data) then
        match clients_get (lookup_field "targetPeerId" data) st with
        | Some targetPeer =>
            if is_open (ws targetPeer) st
            then Ok (ws_send (ws targetPeer) (Obj data) st)
            else Ok st
        | None => Ok st
        end
      else Ok st
  | Some _ => Ok st      (* a primitive or an array: the two assignments have
                            nothing to show and [data.targetPeerId] is
                            [undefined] *)
  end.

(** Lines 82-99: the ['close'] listener.  The log line of line 85 comes
    before [clients.delete]; what it throws is caught by nobody. *)
Definition on_close (me : Z) (st : relay) : outcome :=
  match JsMap.get me (clients st) with
  | Some c =>
      if printable_opt (username c)
      then Ok (notify_disconnected me (username c) (with_clients (JsMap.delete me) st))
      else Uncaught TypeError st
  | None => Ok st
  end.

(** What the event loop dispatches: a new transport (['connection'] on the
    server), a frame on the transport of connection [conn] (['message']),
    the start of the closing handshake by the remote end, which only moves
    the transport to [CLOSING], and the end of a transport (['close']).
    A transport is known by the id given to its connection. *)
Inductive event :=
| Connection
| Message (conn : Z) (message : frame)
| RemoteClosing (conn : Z)
| Close (conn : Z).

(** A closed transport emits no more frames; a frame on any other one goes
    to the listener installed at that time. *)
Definition dispatch_message (conn : Z) (message : frame) (st : relay) : outcome :=
  match sockets st !! conn with
  | Some s =>
      match readyState s with
      | CLOSED => Ok st
      | _ =>
          match on_message s with
          | AwaitRegister =>
              Ok (first_message conn message
                    (with_sockets (alter (set_listener NoListener) conn) st))
          | Forwarding uname => forward_message conn uname message st
          | NoListener => Ok st
          end
      end
  | None => Ok st
  end.

Definition step (ev : event) (st : relay) : outcome :=
  match ev with
  | Connection => Ok (snd (on_connection st))
  | Message conn message => dispatch_message conn message st
  | RemoteClosing conn => Ok (ws_close conn st)
  | Close conn =>
      match sockets st !! conn with
      | Some s =>
          match readyState s with
          | CLOSED => Ok st
          | _ => on_close conn (with_sockets (alter (set_ready CLOSED) conn) st)
          end
      | None => Ok st
      end
  end.

Fixpoint run (evs : list event) (st : relay) : outcome :=
  match evs with
  | [] => Ok st
  | ev :: rest =>
      match step ev st with
      | Ok st' => run rest st'
      | Uncaught e st' => Uncaught e st'
      end
  end.

(** The id handed out by an event, if it is a connection. *)
Definition issued_by (ev : event) (st : relay) : list Z :=
  match ev with
  | Connection => [fst (on_connection st)]
  | _ => []
  end.

Fixpoint issued_ids (evs : list event) (st : relay) : list Z :=
  match evs with
  | [] => []
  | ev :: rest =>
      issued_by ev st ++
      match step ev st with
      | Ok st' => issued_ids rest st'
      | Uncaught _ _ => []
      end
  end.

(** *** Invariant, reachable states and the scenarios used below *)

(** A change to one transport that keeps its listener. *)
Definition keeps_listener (f : socket → socket) : Prop :=
  ∀ s, on_message (f s) = on_message s.

(** A change to one transport that opens none. *)
Definition keeps_shut (f : socket → socket) : Prop :=
  ∀ s, readyState s ≠ OPEN → readyState (f s) ≠ OPEN.

(** The transport of a registry entry either has the forwarding listener
    of a registration that went through, or is what the [catch] of line 76
    left when line 32 threw: not open, without listener, its user name one
    that cannot be printed. *)
Definition entry_ok (c : client) (s : socket) : Prop :=
  (on_message s = Forwarding (username c) ∧ printable_opt (username c) = true) ∨
  (on_message s = NoListener ∧ printable_opt (username c) = false ∧
   readyState s ≠ OPEN).

Record wf (st : relay) : Prop := {
  wf_next : 1 ≤ nextClientId st;
  wf_sockets : ∀ k s, sockets st !! k = Some s → 1 ≤ k < nextClientId st;
  wf_clients : ∀ k c, (k, c) ∈ clients st →
      ws c = k ∧ clientId c = k ∧
      ∃ s, sockets st !! k = Some s ∧ entry_ok c s;
  wf_keys : NoDup (JsMap.keys (clients st))
}.

(** What a step of the relay may add to the transport of [w]. *)
Definition new_message (ev : event) (st : relay) (w : Z) (v : value) : Prop :=
  match ev with
  | Message me (Text data) =>
      (w = me ∧ v = existing_peers_msg (existing_peers me (clients st))) ∨
      (w ≠ me ∧ ∃ u, v = new_peer_msg me u) ∨
      (∃ u fields, data = Obj fields ∧ v = Obj (stamp me u fields) ∧
                   lookup_field "targetPeerId" fields = Some (Num w))
  | Close me => ∃ u, v = peer_disconnected_msg me u
  | _ => False
  end.

(** Two states that differ by messages sent only. *)
Definition only_sends (st st' : relay) : Prop :=
  nextClientId st' = nextClientId st ∧ clients st' = clients st ∧
  (∀ w, ready_of w st' = ready_of w st) ∧
  (∀ w, on_message <$> sockets st' !! w = on_message <$> sockets st !! w).

Definition state_of (o : outcome) : relay :=
  match o with
  | Ok st => st
  | Uncaught _ st => st
  end.

(** The states the relay can be in: those an event sequence leads to from
    the start of the process. *)
Definition reachable (st : relay) : Prop := ∃ evs, run evs initial = Ok st.

Definition register_as (name : string) : frame :=
  Text (Obj [("type", Str "register"); ("username", Str name)]).

(** One transport connected, nothing received yet. *)
Definition one_connected : relay := snd (on_connection initial).

(** Alice (1) and Bob (2) connected and registered. *)
Definition two_peers : relay :=
  state_of (run [Connection; Connection;
                 Message 1 (register_as "alice"); Message 2 (register_as "bob")]
                initial).

Definition chat_fields : list (string * value) :=
  [("type", Str "chat"); ("text", Str "hello")].

(** What the protocol description asks of an envelope without target:
    every other registered peer with an open transport gets it once. *)
Definition broadcast_to_others (me : Z) (msg : value) (st st' : relay) : Prop :=
  ∀ id peer, (id, peer) ∈ clients st → id ≠ me → is_open (ws peer) st = true →
    sent_of (ws peer) st' = sent_of (ws peer) st ++ [msg].

(** The target of an envelope is a registered peer with an open transport. *)
Definition open_target (t : value) (w : Z) (st : relay) : Prop :=
  t = Num w ∧ is_Some (JsMap.get w (clients st)) ∧ ready_of w st = OPEN.

(** A first frame the registration listener rejects. *)
Definition violates (message : frame) : Prop :=
  match JSON_parse message with
  | None => True
  | Some data => get "type" data ≠ Some (Str "register")
  end.

Definition offer_to_bob : list (string * value) :=
  [("type", Str "offer"); ("offer", Str "sdp"); ("targetPeerId", Num 2)].

Definition gap_scenario : list event :=
  [Connection; Connection; Connection;
   Message 1 (register_as "alice"); Message 2 Malformed;
   Message 3 (register_as "carol")].

(** Three transports connect; the second is the first to register. *)
Definition late_registration : list event :=
  [Connection; Connection; Connection;
   Message 2 (register_as "bob"); Message 1 (register_as "alice");
   Message 3 (register_as "carol")].

(** A peer in the registry whose transport is open: the guard of the
    three [send] sites. *)
Definition registered_open (w : Z) (st : relay) : Prop :=
  is_Some (JsMap.get w (clients st)) ∧ ready_of w st = OPEN.

(** The transport of [w] has the forwarding listener and its ['close'] has
    not been emitted. *)
Definition live_forwarder (w : Z) (st : relay) : Prop :=
  ∃ s, sockets st !! w = Some s ∧ (∃ u, on_message s = Forwarding u) ∧
       readyState s ≠ CLOSED.

(** The live forwarders are the peers of the registry whose user name can
    be printed. *)
Definition registry_exact (st : relay) : Prop :=
  ∀ w, live_forwarder w st ↔
       ∃ c, JsMap.get w (clients st) = Some c ∧ printable_opt (username c) = true.

(** A transport without the forwarding listener has been sent nothing. *)
Definition unregistered_silent (st : relay) : Prop :=
  ∀ w s, sockets st !! w = Some s → (∀ u, on_message s ≠ Forwarding u) → sent s = [].

(** Alice (1) registered, a second transport (2) connected only. *)
Definition alice_and_guest : relay :=
  state_of (run [Connection; Connection; Message 1 (register_as "alice")] initial).

(** A user name that cannot be converted to a string, and the frame that
    registers with it. *)
Definition unprintable : value := Obj [("toString", Num 1)].

Definition register_with (u : value) : frame :=
  Text (Obj [("type", Str "register"); ("username", u)]).

(** Alice (1) registered; the register frame of transport 2 came with a
    user name that cannot be printed. *)
Definition half_registered : relay :=
  state_of (run [Connection; Connection; Message 1 (register_as "alice");
                 Message 2 (register_with unprintable)] initial).

End Relay.

(** ** The relay without user names *)

(** The second script of [src/unnamed/part_000] (lines 102-165).  It has
    no registration: a transport enters the registry when it connects, the
    registry maps an id to the transport itself, both listeners are
    installed at connection, and nothing is under a [try].  An event is
    named as for the first script. *)

Module Variant.
Import Json.

Abbreviation ready_state := Relay.ready_state.
Abbreviation OPEN := Relay.OPEN.
Abbreviation CLOSING := Relay.CLOSING.
Abbreviation CLOSED := Relay.CLOSED.

(** A transport of the [ws] library: its state and what was sent on it. *)
Record socket := Socket {
  readyState : ready_state;
  sent : list value
}.

(** [clients] maps a client id to its transport, held by reference. *)
Record relay := RelayState {
  nextClientId : Z;
  clients : list (Z * Z);
  sockets : gmap Z socket
}.

Definition initial : relay :=
  {| nextClientId := 1; clients := []; sockets := ∅ |}.

Inductive outcome :=
| Ok (st : relay)
| Uncaught (e : Relay.error) (st : relay).

Definition with_sockets (f : gmap Z socket -> gmap Z socket) (st : relay) : relay :=
  {| nextClientId := nextClientId st; clients := clients st; sockets := f (sockets st) |}.

Definition with_clients (f : list (Z * Z) -> list (Z * Z)) (st : relay) : relay :=
  {| nextClientId := nextClientId st; clients := f (clients st); sockets := sockets st |}.

Definition ready_of (w : Z) (st : relay) : ready_state :=
  match sockets st !! w with
  | Some s => readyState s
  | None => CLOSED
  end.

Definition sent_of (w : Z) (st : relay) : list value :=
  match sockets st !! w with
  | Some s => sent s
  | None => []
  end.

Definition is_open (w : Z) (st : relay) : bool :=
  Relay.ready_state_eqb (ready_of w st) OPEN.

Definition socket_send (msg : value) (s : socket) : socket :=
  match readyState s with
  | OPEN => {| readyState := OPEN; sent := sent s ++ [msg] |}
  | _ => s
  end.

Definition ws_send (w : Z) (msg : value) (st : relay) : relay :=
  with_sockets (alter (socket_send msg) w) st.

Definition set_ready (r : ready_state) (s : socket) : socket :=
  {| readyState := r; sent := sent s |}.

(** The remote end starts the closing handshake. *)
Definition socket_closing (s : socket) : socket :=
  match readyState s with
  | OPEN | Relay.CONNECTING => set_ready CLOSING s
  | _ => s
  end.

Definition existing_peers_msg (existingPeers : list Z) : value :=
  Obj [("type", Str "existing-peers"); ("peerIds", Arr (Num <$> existingPeers))].

Definition new_peer_msg (me : Z) : value :=
  Obj [("type", Str "new-peer"); ("peerId", Num me)].

Definition peer_disconnected_msg (me : Z) : value :=
  Obj [("type", Str "peer-disconnected"); ("peerId", Num me)].

(** Lines 126-134. *)
Definition notify_new_peer (me : Z) (st : relay) : relay :=
  fold_left
    (fun acc (e : Z * Z) =>
       if negb (fst e =? me) && is_open (snd e) acc
       then ws_send (snd e) (new_peer_msg me) acc
       else acc)
    (clients st) st.

(** Lines 155-163. *)
Definition notify_disconnected (me : Z) (st : relay) : relay :=
  fold_left
    (fun acc (e : Z * Z) =>
       if is_open (snd e) acc
       then ws_send (snd e) (peer_disconnected_msg me) acc
       else acc)
    (clients st) st.

(** Lines 109-134: the connection handler up to the two [ws.on]. *)
Definition on_connection (st : relay) : relay :=
  let clientId := nextClientId st in
  let st1 := {| nextClientId := nextClientId st + 1;
                clients := JsMap.set clientId clientId (clients st);
                sockets := <[clientId := Socket OPEN []]> (sockets st) |} in
  let existingPeers :=
    List.filter (fun id => negb (id =? clientId)) (JsMap.keys (clients st1)) in
  let st2 := if (0 <? Z.of_nat (length existingPeers))
             then ws_send clientId (existing_peers_msg existingPeers) st1
             else st1 in
  notify_new_peer clientId st2.

(** [clients.get(data.targetPeerId)], line 144. *)
Definition clients_get (key : option value) (st : relay) : option Z :=
  match key with
  | Some (Num k) => JsMap.get k (clients st)
  | _ => None
  end.

(** Lines 136-149: the ['message'] listener. *)
Definition on_message (me : Z) (message : frame) (st : relay) : outcome :=
  match JSON_parse message with
  | None => Uncaught Relay.SyntaxError st
  | Some Null => Uncaught Relay.TypeError st
  | Some (Obj fields) =>
      let data := set_field "senderId" (Num me) fields in
      if truthy_opt (lookup_field "targetPeerId" data) then
        match clients_get (lookup_field "targetPeerId" data) st with
        | Some targetPeer =>
            if is_open targetPeer st
            then Ok (ws_send targetPeer (Obj data) st)
            else Ok st
        | None => Ok st
        end
      else Ok st
  | Some _ => Ok st      (* a primitive or an array: the assignment has
                            nothing to show and [data.targetPeerId] is
                            [undefined] *)
  end.

(** Lines 151-164: the ['close'] listener. *)
Definition on_close (me : Z) (st : relay) : relay :=
  notify_disconnected me (with_clients (JsMap.delete me) st).

(** A closed transport emits no more frames and no second ['close']. *)
Definition step (ev : Relay.event) (st : relay) : outcome :=
  match ev with
  | Relay.Connection => Ok (on_connection st)
  | Relay.Message conn message =>
      match sockets st !! conn with
      | Some s =>
          match readyState s with
          | CLOSED => Ok st
          | _ => on_message conn message st
          end
      | None => Ok st
      end
  | Relay.RemoteClosing conn => Ok (with_sockets (alter socket_closing conn) st)
  | Relay.Close conn =>
      match sockets st !! conn with
      | Some s =>
          match readyState s with
          | CLOSED => Ok st
          | _ => Ok (on_close conn (with_sockets (alter (set_ready CLOSED) conn) st))
          end
      | None => Ok st
      end
  end.

Fixpoint run (evs : list Relay.event) (st : relay) : outcome :=
  match evs with
  | [] => Ok st
  | ev :: rest =>
      match step ev st with
      | Ok st' => run rest st'
      | Uncaught e st' => Uncaught e st'
      end
  end.

Definition state_of (o : outcome) : relay :=
  match o with
  | Ok st => st
  | Uncaught _ st => st
  end.

Definition reachable (st : relay) : Prop := ∃ evs, run evs initial = Ok st.

(** The ['close'] of the transport of [w] has not been emitted. *)
Definition live (w : Z) (st : relay) : Prop :=
  ∃ s, sockets st !! w = Some s ∧ readyState s ≠ CLOSED.

(** A peer in the registry whose transport is open: the guard of the
    [send] sites. *)
Definition registered_open (w : Z) (st : relay) : Prop :=
  is_Some (JsMap.get w (clients st)) ∧ ready_of w st = OPEN.

Record wf (st : relay) : Prop := {
  wf_next : 1 ≤ nextClientId st;
  wf_sockets : ∀ k s, sockets st !! k = Some s → 1 ≤ k < nextClientId st;
  wf_all : ∀ k, 1 ≤ k < nextClientId st → is_Some (sockets st !! k);
  wf_clients : ∀ k w, (k, w) ∈ clients st → w = k;
  wf_keys : NoDup (JsMap.keys (clients st));
  wf_live : ∀ k, is_Some (JsMap.get k (clients st)) ↔ live k st
}.

(** Two states that differ by messages sent only. *)
Definition only_sends (st st' : relay) : Prop :=
  nextClientId st' = nextClientId st ∧ clients st' = clients st ∧
  ∀ w, ready_of w st' = ready_of w st ∧
       (is_Some (sockets st' !! w) ↔ is_Some (sockets st !! w)).

(** Three transports connected, the second in its closing handshake. *)
Definition three_connected : relay :=
  state_of (run [Relay.Connection; Relay.Connection; Relay.Connection;
                 Relay.RemoteClosing 2] initial).

End Variant.

(** ** The client *)

(** An [async] handler is run to completion: every [await] is sequenced in
    place, and what a handler throws past its own [try] blocks is the
    rejection of the promise it returns.  Rendering ([appendMessage],
    [channel.onmessage]) is left out.  Peer ids on the wire are the relay's
    client ids, so envelopes are typed and their ids are integers. *)

Module Client.
Import Json.

Inductive level := debug | info | error.

(** A parsed relay message, by its [type].  The relay puts [senderId] on
    every envelope it forwards for a client, so an offer, an answer and a
    candidate always have one; on the other types it is optional. *)
Inductive envelope :=
| ExistingPeers (senderId : option Z) (peers : list (Z * option value))
| NewPeer (senderId : option Z) (peerId : Z) (username : option value)
| Offer (senderId : Z) (username : option value) (offer : option value)
| Answer (senderId : Z) (answer : option value)
| IceCandidate (senderId : Z) (candidate : option value)
| PeerDisconnected (senderId : option Z) (peerId : Z) (username : option value)
| Other (senderId : option Z).

Definition senderId_of (data : envelope) : option Z :=
  match data with
  | ExistingPeers s _ | NewPeer s _ _ | PeerDisconnected s _ _ | Other s => s
  | Offer s _ _ | Answer s _ | IceCandidate s _ => Some s
  end.

(** Truthiness of [state.myPeerId] and of [data.senderId]: [null],
    [undefined] and 0 are falsy. *)
Definition truthy_id (o : option Z) : bool :=
  match o with
  | Some n => negb (n =? 0)
  | None => false
  end.

(** The texts handed to the logging callback. *)
Inductive line :=
| Received (data : envelope)
| SetRemoteFailed (message : string)
| AddCandidateFailed (message : string)
| ChannelOpened (username : option value) (peerId : Z)
| ChannelClosed (username : option value) (peerId : Z)
| PeerLeft (username : option value) (peerId : Z).

(** What a handler does to the outside: a call of the logging callback, a
    frame on the relay socket, a message on the data channel kept for a
    peer, [close()] on the connection handle kept for a peer. *)
Inductive effect :=
| Log (lv : level) (l : line)
| WsSend (msg : value)
| ChannelSend (peerId : Z) (msg : value)
| ConnectionClose (peerId : Z).

(** The message of the [TypeError] of a template literal, in V8's words;
    other engines word it differently, and no property depends on it. *)
Definition cannot_convert : string := "Cannot convert object to primitive value".

(** A promise of the transport library, once settled. *)
Inductive promise (A : Type) :=
| Resolved (a : A)
| Rejected (message : string).
Arguments Resolved {A} a.
Arguments Rejected {A} message.

(** The operations of the WebRTC library the client calls.  [pc] is the
    state of an [RTCPeerConnection]; the constructors
    [RTCSessionDescription] and [RTCIceCandidate] are part of the call that
    takes their result, since both sit under the same [try] or none. *)
Class RTC := {
  pc : Type;
  RTCPeerConnection : pc;
  createDataChannel : pc → pc;
  createOffer : pc → promise (value * pc);
  createAnswer : pc → promise (value * pc);
  setLocalDescription : option value → pc → promise pc;
  setRemoteDescription : option value → pc → promise pc;
  addIceCandidate : option value → pc → promise pc
}.

Inductive channel_state := connecting | open | closing | closed.

Record channel := Channel { ch_readyState : channel_state }.

Section Handlers.
Context `{rtc : RTC}.

(** A connection handle with the one listener that depends on the role. *)
Record connection := Connection {
  handle : pc;
  ondatachannel : bool
}.

Record state := State {
  peerConnections : list (Z * connection);
  dataChannels : list (Z * channel);
  peerUsernames : list (Z * option value);
  myPeerId : option Z;
  username : string
}.

(** [initP2PChat(config)] with a valid configuration. *)
Definition init (name : string) : state :=
  {| peerConnections := []; dataChannels := []; peerUsernames := [];
     myPeerId := None; username := name |}.

Inductive completion (A : Type) :=
| Returned (a : A) (st : state) (out : list effect)
| Threw (message : string) (st : state) (out : list effect).
Arguments Returned {A} a st out.
Arguments Threw {A} message st out.

Definition M (A : Type) : Type := state → completion A.

Definition ret {A} (a : A) : M A := λ st, Returned a st [].

Definition bind {A B} (m : M A) (k : A → M B) : M B := λ st,
  match m st with
  | Returned a st1 out1 =>
      match k a st1 with
      | Returned b st2 out2 => Returned b st2 (out1 ++ out2)
      | Threw e st2 out2 => Threw e st2 (out1 ++ out2)
      end
  | Threw e st1 out1 => Threw e st1 out1
  end.

Definition try_catch {A} (m : M A) (handler : string → M A) : M A := λ st,
  match m st with
  | Returned a st1 out1 => Returned a st1 out1
  | Threw e st1 out1 =>
      match handler e st1 with
      | Returned b st2 out2 => Returned b st2 (out1 ++ out2)
      | Threw e' st2 out2 => Threw e' st2 (out1 ++ out2)
      end
  end.

Definition await {A} (p : promise A) : M A := λ st,
  match p with
  | Resolved a => Returned a st []
  | Rejected e => Threw e st []
  end.

Definition emit (e : effect) : M unit := λ st, Returned tt st [e].
Definition read {A} (f : state → A) : M A := λ st, Returned (f st) st [].
Definition modify (f : state → state) : M unit := λ st, Returned tt (f st) [].

Definition final {A} (c : completion A) : state :=
  match c with
  | Returned _ st _ => st
  | Threw _ st _ => st
  end.

Definition emitted {A} (c : completion A) : list effect :=
  match c with
  | Returned _ _ out => out
  | Threw _ _ out => out
  end.

Notation "'let!' x ':=' m 'in' k" := (bind m (λ x, k))
  (at level 10, x pattern, m at level 100, k at level 200).
Notation "m '>>' k" := (bind m (λ _, k))
  (at level 100, k at level 200, right associativity).

Definition throw {A} (message : string) : M A := λ st, Threw message st [].

Definition log (lv : level) (l : line) : M unit := emit (Log lv l).
Definition ws_send (msg : value) : M unit := emit (WsSend msg).

(** A log line whose text prints a user name (lines 179, 184 and 202).
    The template literal is built before the callback is called; it throws
    a [TypeError] when the name cannot be converted to a string. *)
Definition log_name (lv : level) (uname : option value) (l : line) : M unit :=
  if printable_opt uname then log lv l else throw cannot_convert.

Definition set_connection (peerId : Z) (c : connection) : M unit :=
  modify (λ st, {| peerConnections := JsMap.set peerId c (peerConnections st);
                   dataChannels := dataChannels st;
                   peerUsernames := peerUsernames st;
                   myPeerId := myPeerId st; username := username st |}).

Definition set_channels (f : list (Z * channel) → list (Z * channel)) : M unit :=
  modify (λ st, {| peerConnections := peerConnections st;
                   dataChannels := f (dataChannels st);
                   peerUsernames := peerUsernames st;
                   myPeerId := myPeerId st; username := username st |}).

Definition set_usernames
    (f : list (Z * option value) → list (Z * option value)) : M unit :=
  modify (λ st, {| peerConnections := peerConnections st;
                   dataChannels := dataChannels st;
                   peerUsernames := f (peerUsernames st);
                   myPeerId := myPeerId st; username := username st |}).

Definition delete_connection (peerId : Z) : M unit :=
  modify (λ st, {| peerConnections := JsMap.delete peerId (peerConnections st);
                   dataChannels := dataChannels st;
                   peerUsernames := peerUsernames st;
                   myPeerId := myPeerId st; username := username st |}).

Definition set_myPeerId (id : option Z) : M unit :=
  modify (λ st, {| peerConnections := peerConnections st;
                   dataChannels := dataChannels st;
                   peerUsernames := peerUsernames st;
                   myPeerId := id; username := username st |}).

(** [peerUsernames.get(peerId)] as it prints in a log text. *)
Definition username_of (peerId : Z) (st : state) : option value :=
  match JsMap.get peerId (peerUsernames st) with
  | Some u => u
  | None => None
  end.

(** An awaited call on the handle [c] kept under [peerId]: the handle is
    an object shared with the map, so the map sees what the call did. *)
Definition call {A} (peerId : Z) (c : connection) (p : promise (A * pc))
  : M (A * connection) :=
  let! r := await p in
  let c' := {| handle := snd r; ondatachannel := ondatachannel c |} in
  set_connection peerId c' >> ret (fst r, c').

Definition call_ (peerId : Z) (c : connection) (p : promise pc) : M connection :=
  let! p' := await p in
  let c' := {| handle := p'; ondatachannel := ondatachannel c |} in
  set_connection peerId c' >> ret c'.

(** Lines 174-192: the channel is recorded; its listeners are events. *)
Definition setupDataChannel (ch : channel) (peerId : Z) : M unit :=
  set_channels (JsMap.set peerId ch).

(** Lines 97-131. *)
Definition createPeerConnection (peerId : Z) (initiator : bool) : M connection :=
  let c0 := {| handle := RTCPeerConnection; ondatachannel := false |} in
  set_connection peerId c0 >>
  let! c1 :=
    (if initiator
     then
       let c := {| handle := createDataChannel (handle c0); ondatachannel := false |} in
       set_connection peerId c >>
       setupDataChannel (Channel connecting) peerId >> ret c
     else
       let c := {| handle := handle c0; ondatachannel := true |} in
       set_connection peerId c >> ret c) in
  if initiator
  then
    let! r := call peerId c1 (createOffer (handle c1)) in
    let! c3 := call_ peerId (snd r) (setLocalDescription (Some (fst r)) (handle (snd r))) in
    ws_send (Obj [("type", Str "offer"); ("offer", fst r);
                  ("targetPeerId", Num peerId)]) >>
    ret c3
  else ret c1.

(** Lines 133-150: no [try] here. *)
Definition handleOffer (sender : Z) (offer : option value) : M unit :=
  let! found := read (λ st, JsMap.get sender (peerConnections st)) in
  let! c := (match found with
             | Some c => ret c
             | None => createPeerConnection sender false
             end) in
  let! c1 := call_ sender c (setRemoteDescription offer (handle c)) in
  let! r := call sender c1 (createAnswer (handle c1)) in
  let! _ := call_ sender (snd r) (setLocalDescription (Some (fst r)) (handle (snd r))) in
  ws_send (Obj [("type", Str "answer"); ("answer", fst r);
                ("targetPeerId", Num sender)]).

(** Lines 152-161. *)
Definition handleAnswer (sender : Z) (answer : option value) : M unit :=
  let! found := read (λ st, JsMap.get sender (peerConnections st)) in
  match found with
  | Some c =>
      try_catch
        (call_ sender c (setRemoteDescription answer (handle c)) >> ret tt)
        (λ e, log error (SetRemoteFailed e))
  | None => ret tt
  end.

(** Lines 163-172. *)
Definition handleIceCandidate (sender : Z) (candidate : option value) : M unit :=
  let! found := read (λ st, JsMap.get sender (peerConnections st)) in
  match found with
  | Some c =>
      try_catch
        (call_ sender c (addIceCandidate candidate (handle c)) >> ret tt)
        (λ e, log error (AddCandidateFailed e))
  | None => ret tt
  end.

(** Lines 194-203; the log line comes last. *)
Definition handlePeerDisconnection (peerId : Z) (uname : option value) : M unit :=
  let! found := read (λ st, JsMap.get peerId (peerConnections st)) in
  (match found with
   | Some c => emit (ConnectionClose peerId) >> delete_connection peerId
   | None => ret tt
   end) >>
  set_channels (JsMap.delete peerId) >>
  set_usernames (JsMap.delete peerId) >>
  log_name info uname (PeerLeft uname peerId).

(** Lines 72-75: the loop over [data.peers]. *)
Fixpoint connect_to_all (peers : list (Z * option value)) : M unit :=
  match peers with
  | [] => ret tt
  | peer :: rest =>
      set_usernames (JsMap.set (fst peer) (snd peer)) >>
      createPeerConnection (fst peer) true >>
      connect_to_all rest
  end.

(** Lines 62-95. *)
Definition onmessage (data : envelope) : M unit :=
  log debug (Received data) >>
  let! mine := read myPeerId in
  (if negb (truthy_id mine) && truthy_id (senderId_of data)
   then set_myPeerId (senderId_of data)
   else ret tt) >>
  match data with
  | ExistingPeers _ peers => connect_to_all peers
  | NewPeer _ peerId uname =>
      set_usernames (JsMap.set peerId uname) >>
      createPeerConnection peerId false >> ret tt
  | Offer sender uname offer =>
      set_usernames (JsMap.set sender uname) >>
      handleOffer sender offer
  | Answer sender answer => handleAnswer sender answer
  | IceCandidate sender candidate => handleIceCandidate sender candidate
  | PeerDisconnected _ peerId uname => handlePeerDisconnection peerId uname
  | Other _ => ret tt
  end.

(** [JSON.stringify] of [state.myPeerId]. *)
Definition id_value (o : option Z) : value :=
  match o with
  | Some n => Num n
  | None => Null
  end.

(** Lines 215-219: the fan-out over [dataChannels]. *)
Fixpoint send_to_open (msg : value) (chans : list (Z * channel)) : M unit :=
  match chans with
  | [] => ret tt
  | (peerId, ch) :: rest =>
      (match ch_readyState ch with
       | open => emit (ChannelSend peerId msg)
       | _ => ret tt
       end) >>
      send_to_open msg rest
  end.

(** Lines 205-224, with [message] the trimmed text of the input box. *)
Definition sendMessage (message : string) : M unit :=
  if String.eqb message ""
  then ret tt
  else
    let! st := read id in
    let messageData :=
      Obj [("message", Str message);
           ("senderId", id_value (myPeerId st));
           ("username", Str (username st))] in
    send_to_open messageData (dataChannels st).

(** What the browser dispatches to the client.  The listeners of a
    connection handle and of a data channel are closures over the peer id
    they were made for, and they run whenever the browser raises the event:
    on the handle or the channel that the maps hold for that peer, or on one
    that line 99 or line 175 has overwritten since (an overwritten handle is
    never closed).  [RemoteChannel peerId] is the [datachannel] event of a
    handle made as responder for [peerId].  [ChannelOpen peerId kept] is the
    [open] event of a channel set up for [peerId]; the library has set its
    [readyState], which the record in [dataChannels] shows when [kept], that
    is, when that record is this channel. *)
Inductive event :=
| SocketOpen
| SocketMessage (data : envelope)
| IceCandidateFound (peerId : Z) (candidate : option value)
| RemoteChannel (peerId : Z)
| ChannelOpen (peerId : Z) (kept : bool)
| ChannelClose (peerId : Z)
| SendClick (message : string).

Definition dispatch (ev : event) : M unit :=
  match ev with
  | SocketOpen =>                                            (* lines 54-60 *)
      let! name := read username in
      ws_send (Obj [("type", Str "register"); ("username", Str name)])
  | SocketMessage data => onmessage data
  | IceCandidateFound peerId candidate =>                    (* lines 101-109 *)
      match candidate with
      | Some cand =>
          ws_send (Obj [("type", Str "ice-candidate"); ("candidate", cand);
                        ("targetPeerId", Num peerId)])
      | None => ret tt
      end
  | RemoteChannel peerId =>                                  (* lines 115-117 *)
      setupDataChannel (Channel connecting) peerId
  | ChannelOpen peerId kept =>                               (* lines 177-180 *)
      let! found := read (λ st, JsMap.get peerId (dataChannels st)) in
      (match found with
       | Some _ =>
           if kept then set_channels (JsMap.set peerId (Channel open)) else ret tt
       | None => ret tt
       end) >>
      let! uname := read (username_of peerId) in
      log_name info uname (ChannelOpened uname peerId)
  | ChannelClose peerId =>                                   (* lines 182-186 *)
      let! uname := read (username_of peerId) in
      log_name info uname (ChannelClosed uname peerId) >>
      set_channels (JsMap.delete peerId)
  | SendClick message => sendMessage message
  end.

(** A rejected handler promise is reported by the browser and the page
    goes on with the state the handler left. *)
Fixpoint run (evs : list event) (st : state) : state * list effect :=
  match evs with
  | [] => (st, [])
  | ev :: rest =>
      let c := dispatch ev st in
      let r := run rest (final c) in
      (fst r, emitted c ++ snd r)
  end.

(** The [senderId] of the first relay message that carries a truthy
    one. *)
Fixpoint first_stamped (evs : list event) : option Z :=
  match evs with
  | [] => None
  | SocketMessage data :: rest =>
      if truthy_id (senderId_of data) then senderId_of data else first_stamped rest
  | _ :: rest => first_stamped rest
  end.

(** A handler that leaves [state.myPeerId] alone. *)
Definition keeps_myPeerId {A} (m : M A) : Prop :=
  ∀ st, myPeerId (final (m st)) = myPeerId st.

(** The peers whose channel in [dataChannels] is open, in map order. *)
Definition is_open_channel (e : Z * channel) : bool :=
  match ch_readyState (snd e) with
  | open => true
  | _ => false
  end.

Definition open_channels (chans : list (Z * channel)) : list Z :=
  fst <$> List.filter is_open_channel chans.

(** The records of a state, replaced. *)
Definition with_records (pcs : list (Z * connection)) (chans : list (Z * channel))
    (names : list (Z * option value)) (st : state) : state :=
  {| peerConnections := pcs; dataChannels := chans; peerUsernames := names;
     myPeerId := myPeerId st; username := username st |}.

(** The offer and the answer as they go to the relay (lines 123-127 and
    145-149). *)
Definition offer_frame (peerId : Z) (offer : value) : value :=
  Obj [("type", Str "offer"); ("offer", offer); ("targetPeerId", Num peerId)].

Definition answer_frame (peerId : Z) (answer : value) : value :=
  Obj [("type", Str "answer"); ("answer", answer); ("targetPeerId", Num peerId)].

(** A handler that keeps [I] and emits only effects in [E], whether it
    returns or throws. *)
Definition maintains (I : state → Prop) (E : effect → Prop) {A} (m : M A) : Prop :=
  ∀ st, I st → I (final (m st)) ∧ Forall E (emitted (m st)).

(** The one relay message that makes the client let go of peer [p]. *)
Definition releases (p : Z) (ev : event) : Prop :=
  ∃ s u, ev = SocketMessage (PeerDisconnected s p u).

(** A connection handle is kept only for a peer with a user-name
    record. *)
Definition named (st : state) : Prop :=
  ∀ p, is_Some (JsMap.get p (peerConnections st)) →
       is_Some (JsMap.get p (peerUsernames st)).

(** The same, in a state that has a user-name record for [p]. *)
Definition named_with (p : Z) (st : state) : Prop :=
  named st ∧ is_Some (JsMap.get p (peerUsernames st)).
End Handlers.

Arguments Returned {rtc A} a st out.
Arguments Threw {rtc A} message st out.

End Client.

(** ** The relay and its clients together *)

(** Every transport of the relay is the socket of one browser running the
    client.  Frames travel in order: those a client has sent wait in its
    [uplink] until the relay receives them, and the client reads what the
    relay has sent on its transport one message at a time. *)

Module System.
Import Json.

Inductive kind :=
| existing_peers | new_peer | offer | answer | ice_candidate | peer_disconnected
| other.

(** The [switch] on [data.type]. *)
Definition kind_of (ty : option value) : kind :=
  match ty with
  | Some (Str s) =>
      if String.eqb s "existing-peers" then existing_peers
      else if String.eqb s "new-peer" then new_peer
      else if String.eqb s "offer" then offer
      else if String.eqb s "answer" then answer
      else if String.eqb s "ice-candidate" then ice_candidate
      else if String.eqb s "peer-disconnected" then peer_disconnected
      else other
  | _ => other
  end.

Definition decode_sender (data : value) : option (option Z) :=
  match get "senderId" data with
  | None => Some None
  | Some (Num n) => Some (Some n)
  | Some _ => None
  end.

Definition decode_peer (v : value) : option (Z * option value) :=
  match get "clientId" v with
  | Some (Num k) => Some (k, get "username" v)
  | _ => None
  end.

Fixpoint decode_peers (vs : list value) : option (list (Z * option value)) :=
  match vs with
  | [] => Some []
  | v :: rest =>
      match decode_peer v, decode_peers rest with
      | Some p, Some ps => Some (p :: ps)
      | _, _ => None
      end
  end.

(** A relay message as the typed envelope the client model takes; [None]
    when an id in it is not a number. *)
Definition decode (data : value) : option Client.envelope :=
  match decode_sender data with
  | None => None
  | Some sender =>
      match kind_of (get "type" data), sender with
      | existing_peers, _ =>
          match get "peers" data with
          | Some (Arr vs) =>
              match decode_peers vs with
              | Some peers => Some (Client.ExistingPeers sender peers)
              | None => None
              end
          | _ => None
          end
      | new_peer, _ =>
          match get "peerId" data with
          | Some (Num p) => Some (Client.NewPeer sender p (get "username" data))
          | _ => None
          end
      | offer, Some s => Some (Client.Offer s (get "username" data) (get "offer" data))
      | answer, Some s => Some (Client.Answer s (get "answer" data))
      | ice_candidate, Some s => Some (Client.IceCandidate s (get "candidate" data))
      | peer_disconnected, _ =>
          match get "peerId" data with
          | Some (Num p) => Some (Client.PeerDisconnected sender p (get "username" data))
          | _ => None
          end
      | other, _ => Some (Client.Other sender)
      | _, None => None
      end
  end.

Section Network.
Context `{rtc : Client.RTC}.

(** A page: the client, what it has put on its socket and not yet
    delivered, how many relay messages it has read, the chat lines it has
    sent, and the peers it has made a connection handle for so far. *)
Record node := Node {
  app : Client.state;
  uplink : list value;
  consumed : nat;
  chats : list (Z * value);
  made : list Z
}.

Record system := System {
  relay : Relay.relay;
  nodes : gmap Z node
}.

Definition initial : system := {| relay := Relay.initial; nodes := ∅ |}.

Definition ws_frames (out : list Client.effect) : list value :=
  omap (λ e, match e with Client.WsSend v => Some v | _ => None end) out.

Definition channel_frames (out : list Client.effect) : list (Z * value) :=
  omap (λ e, match e with Client.ChannelSend p v => Some (p, v) | _ => None end) out.

(** The client of [n] handles one event.  A handle is put into
    [peerConnections] when it is made (line 99) and no handler both makes
    and deletes one, so the handles made by the handler are under the keys
    of the map it leaves. *)
Definition client_step (ev : Client.event) (n : node) : node :=
  let c := Client.dispatch ev (app n) in
  {| app := Client.final c;
     uplink := uplink n ++ ws_frames (Client.emitted c);
     consumed := consumed n;
     chats := chats n ++ channel_frames (Client.emitted c);
     made := made n ++ JsMap.keys (Client.peerConnections (Client.final c)) |}.

Inductive event :=
| Join (name : string)
| RelayReceives (id : Z)
| ClientReceives (id : Z)
| Browser (id : Z) (ev : Client.event)
| Leave (id : Z).

(** The events of a page that do not come from the relay socket: a click,
    and the events of the handles and channels of the page, each of which
    belongs to a peer the page has made a handle for.  Which of those
    handles are closed, and which were made as responder, is not followed:
    the page of the model can raise every event the browser can, and
    more. *)
Definition is_local (n : node) (ev : Client.event) : bool :=
  match ev with
  | Client.SocketOpen | Client.SocketMessage _ => false
  | Client.SendClick _ => true
  | Client.IceCandidateFound p _ | Client.RemoteChannel p
  | Client.ChannelOpen p _ | Client.ChannelClose p => bool_decide (p ∈ made n)
  end.

Definition step (ev : event) (st : system) : system :=
  match ev with
  | Join name =>
      let r := Relay.on_connection (relay st) in
      {| relay := snd r;
         nodes := <[fst r := client_step Client.SocketOpen
                               (Node (Client.init name) [] 0 [] [])]> (nodes st) |}
  | RelayReceives id =>           (* a client frame never makes the relay throw *)
      match nodes st !! id with
      | Some n =>
          match uplink n with
          | v :: rest =>
              {| relay := Relay.state_of
                            (Relay.step (Relay.Message id (Text v)) (relay st));
                 nodes := <[id := Node (app n) rest (consumed n) (chats n) (made n)]>
                            (nodes st) |}
          | [] => st
          end
      | None => st
      end
  | ClientReceives id =>
      match nodes st !! id with
      | Some n =>
          match Relay.sent_of id (relay st) !! consumed n with
          | Some v =>
              match decode v with
              | Some data =>
                  {| relay := relay st;
                     nodes := <[id := client_step (Client.SocketMessage data)
                                        (Node (app n) (uplink n) (S (consumed n))
                                              (chats n) (made n))]> (nodes st) |}
              | None => st
              end
          | None => st
          end
      | None => st
      end
  | Browser id ev =>
      match nodes st !! id with
      | Some n =>
          if is_local n ev
          then {| relay := relay st; nodes := <[id := client_step ev n]> (nodes st) |}
          else st
      | None => st
      end
  | Leave id =>
      {| relay := Relay.state_of (Relay.step (Relay.Close id) (relay st));
         nodes := delete id (nodes st) |}
  end.

Definition run (evs : list event) (st : system) : system :=
  fold_left (λ acc ev, step ev acc) evs st.

(** The [senderId] of a chat message is [null] or the id of another
    connection of the relay. *)
Definition remote (id next j : Z) : Prop := j ≠ id ∧ 1 ≤ j < next.

Definition chat_sender_ok (id next : Z) (msg : value) : Prop :=
  get "senderId" msg = Some Null ∨
  ∃ j, get "senderId" msg = Some (Num j) ∧ remote id next j.

(** A frame of the client: the registration, without target, or an
    offer, an answer or a candidate aimed at another peer. *)
Definition is_signal (k : kind) : bool :=
  match k with
  | offer | answer | ice_candidate => true
  | _ => false
  end.

Definition uplink_ok (id : Z) (v : value) : Prop :=
  ∃ fields, v = Obj fields ∧
    ((kind_of (lookup_field "type" fields) = other ∧
      lookup_field "targetPeerId" fields = None) ∨
     (is_signal (kind_of (lookup_field "type" fields)) = true ∧
      ∃ p, lookup_field "targetPeerId" fields = Some (Num p) ∧ p ≠ id)).

(** A relay message that tells the client [id] nothing about itself. *)
Definition envelope_ok (id next : Z) (data : Client.envelope) : Prop :=
  (∀ j, Client.senderId_of data = Some j → remote id next j) ∧
  match data with
  | Client.ExistingPeers _ peers => Forall (λ p, fst p ≠ id) peers
  | Client.NewPeer _ p _ => p ≠ id
  | _ => True
  end.

Definition downlink_ok (id next : Z) (v : value) : Prop :=
  ∃ data, decode v = Some data ∧ envelope_ok id next data.

Definition client_ok (id next : Z) (st : Client.state) : Prop :=
  Forall (λ p, p ≠ id) (JsMap.keys (Client.peerConnections st)) ∧
  ∀ j, Client.myPeerId st = Some j → remote id next j.

Definition effect_ok (id next : Z) (e : Client.effect) : Prop :=
  match e with
  | Client.WsSend v => uplink_ok id v
  | Client.ChannelSend _ msg => chat_sender_ok id next msg
  | _ => True
  end.

(** A handler keeps [client_ok] and emits only what [effect_ok] allows,
    whether it returns or throws. *)
Definition preserves (id next : Z) {A} (m : Client.M A) : Prop :=
  ∀ st, client_ok id next st →
    client_ok id next (Client.final (m st)) ∧
    Forall (effect_ok id next) (Client.emitted (m st)).

Record node_ok (id next : Z) (n : node) : Prop := {
  ok_app : client_ok id next (app n);
  ok_uplink : Forall (uplink_ok id) (uplink n);
  ok_chats : Forall (λ c, chat_sender_ok id next (snd c)) (chats n);
  ok_made : Forall (λ p, p ≠ id) (made n)
}.

Record invariant (st : system) : Prop := {
  inv_relay : Relay.wf (relay st);
  inv_nodes : ∀ id n, nodes st !! id = Some n →
      1 ≤ id < Relay.nextClientId (relay st) ∧
      node_ok id (Relay.nextClientId (relay st)) n;
  inv_downlink : ∀ id,
      Forall (downlink_ok id (Relay.nextClientId (relay st)))
             (Relay.sent_of id (relay st))
}.
End Network.

End System.

(** ** A transport library to run scenarios with *)

(** The browser's WebRTC implementation is not part of the program.  This
    stand-in keeps what the scenarios below depend on: a remote description
    has to be a description object, and a candidate is refused while the
    handle has no remote description. *)

Module Browser.
Import Json Client.

Record peer_connection := PeerConnection {
  localDescription : option value;
  remoteDescription : option value;
  candidates : list value;
  channels : nat
}.

Definition fresh : peer_connection :=
  {| localDescription := None; remoteDescription := None; candidates := [];
     channels := 0 |}.

Definition description (kind : string) : value :=
  Obj [("type", Str kind); ("sdp", Str "v=0")].

Definition with_channel (p : peer_connection) : peer_connection :=
  {| localDescription := localDescription p; remoteDescription := remoteDescription p;
     candidates := candidates p; channels := S (channels p) |}.

Definition set_local (d : option value) (p : peer_connection) : promise peer_connection :=
  Resolved {| localDescription := d; remoteDescription := remoteDescription p;
              candidates := candidates p; channels := channels p |}.

Definition set_remote (d : option value) (p : peer_connection) : promise peer_connection :=
  match d with
  | Some (Obj _) =>
      Resolved {| localDescription := localDescription p; remoteDescription := d;
                  candidates := candidates p; channels := channels p |}
  | _ => Rejected "Failed to parse SessionDescription"
  end.

Definition create_answer (p : peer_connection) : promise (value * peer_connection) :=
  match remoteDescription p with
  | Some _ => Resolved (description "answer", p)
  | None => Rejected "No remote offer"
  end.

Definition add_candidate (c : option value) (p : peer_connection) : promise peer_connection :=
  match remoteDescription p, c with
  | Some _, Some cand =>
      Resolved {| localDescription := localDescription p;
                  remoteDescription := remoteDescription p;
                  candidates := candidates p ++ [cand]; channels := channels p |}
  | Some _, None => Rejected "Candidate missing"
  | None, _ => Rejected "The remote description was null"
  end.

#[export] Instance rtc : RTC := {|
  pc := peer_connection;
  RTCPeerConnection := fresh;
  createDataChannel := with_channel;
  createOffer := λ p, Resolved (description "offer", p);
  createAnswer := create_answer;
  setLocalDescription := set_local;
  setRemoteDescription := set_remote;
  addIceCandidate := add_candidate
|}.

(** The same library with no network: no offer can be made. *)
Definition offline : RTC := {|
  pc := peer_connection;
  RTCPeerConnection := fresh;
  createDataChannel := with_channel;
  createOffer := λ _, Rejected "Failed to create offer";
  createAnswer := create_answer;
  setLocalDescription := set_local;
  setRemoteDescription := set_remote;
  addIceCandidate := add_candidate
|}.

(** Bob (2) sends Alice an offer that is no session description. *)
Definition bad_offer : envelope :=
  Offer 2 (Some (Str "bob")) (Some (Str "not a description")).

(** Alice joins a room where Bob (2) is; a candidate of Bob reaches her
    before his answer does. *)
Definition bob_candidate : value :=
  Obj [("candidate", Str "candidate:1 1 udp 1 192.0.2.1 9 typ host")].

Definition early_candidate : list event :=
  [SocketMessage (ExistingPeers None [(2, Some (Str "bob"))]);
   SocketMessage (IceCandidate 2 (Some bob_candidate));
   SocketMessage (Answer 2 (Some (description "answer")))].

(** A handle that has taken an offer, and then set its answer. *)
Definition offered : peer_connection :=
  {| localDescription := None; remoteDescription := Some (description "offer");
     candidates := []; channels := 0 |}.

Definition answered : peer_connection :=
  {| localDescription := Some (description "answer");
     remoteDescription := Some (description "offer");
     candidates := []; channels := 0 |}.

(** A handle with a data channel whose offer has been set. *)
Definition offering : peer_connection :=
  {| localDescription := Some (description "offer"); remoteDescription := None;
     candidates := []; channels := 1 |}.

(** The room a newcomer finds: Alice (1) and Bob (2). *)
Definition room : list (Z * option value) :=
  [(1, Some (Str "alice")); (2, Some (Str "bob"))].

(** Things that happen to Alice while she waits for Bob's answer, none of
    them his departure. *)
Definition while_waiting : list event :=
  [ChannelClose 2; SocketMessage (IceCandidate 2 None);
   SocketMessage (NewPeer None 2 (Some (Str "bob")));
   SocketMessage (PeerDisconnected None 3 None)].

(** Alice after the first message of [early_candidate]. *)
Definition awaiting_answer : state :=
  fst (run [SocketMessage (ExistingPeers None [(2, Some (Str "bob"))])] (init "alice")).


End Browser.

(** * Properties *)

(** ** Maps in insertion order *)

Module MapProofs.

Section MapFacts.
Context {V : Type}.
Implicit Types (m : list (Z * V)).

Lemma get_set_eq k (v : V) m : JsMap.get k (JsMap.set k v m) = Some v.
Proof.
  induction m as [|[k' v'] rest IH]; simpl.
  - by rewrite Z.eqb_refl.
  - destruct (k =? k') eqn:E; simpl; [by rewrite Z.eqb_refl|by rewrite E].
Qed.

Lemma get_set_ne k k' (v : V) m :
  k ≠ k' → JsMap.get k' (JsMap.set k v m) = JsMap.get k' m.
Proof.
  intros Hne. induction m as [|[k0 v0] rest IH]; simpl.
  - destruct (Z.eqb_spec k' k); congruence.
  - destruct (Z.eqb_spec k k0) as [->|]; simpl.
    + destruct (Z.eqb_spec k' k0); congruence.
    + by rewrite IH.
Qed.

Lemma get_delete_eq k m : JsMap.get k (JsMap.delete k m) = None.
Proof.
  induction m as [|[k0 v0] rest IH]; simpl; [done|].
  destruct (Z.eqb_spec k k0); simpl; [done|].
  destruct (Z.eqb_spec k k0); congruence.
Qed.

Lemma get_delete_ne k k' m :
  k ≠ k' → JsMap.get k' (JsMap.delete k m) = JsMap.get k' m.
Proof.
  intros Hne. induction m as [|[k0 v0] rest IH]; simpl; [done|].
  destruct (Z.eqb_spec k k0) as [->|]; simpl.
  - destruct (Z.eqb_spec k' k0); congruence.
  - by rewrite IH.
Qed.

Lemma get_Some_elem_of k (v : V) m : JsMap.get k m = Some v → (k, v) ∈ m.
Proof.
  induction m as [|[k0 v0] rest IH]; simpl; [done|].
  destruct (Z.eqb_spec k k0) as [->|]; intros H.
  - simplify_eq. left.
  - right. auto.
Qed.

Lemma get_None_not_key k m : JsMap.get k m = None → k ∉ JsMap.keys m.
Proof.
  induction m as [|[k0 v0] rest IH]; simpl; [set_solver|].
  destruct (Z.eqb_spec k k0) as [->|]; [done|].
  intros H. apply not_elem_of_cons. auto.
Qed.

Lemma elem_of_get k (v : V) m :
  NoDup (JsMap.keys m) → (k, v) ∈ m → JsMap.get k m = Some v.
Proof.
  induction m as [|[k0 v0] rest IH]; simpl; [by intros _ ?%elem_of_nil|].
  intros [Hnot Hnd]%NoDup_cons [Heq|Hin]%elem_of_cons.
  - simplify_eq. by rewrite Z.eqb_refl.
  - destruct (Z.eqb_spec k k0) as [->|]; [|auto].
    exfalso. apply Hnot. unfold JsMap.keys.
    by apply (list_elem_of_fmap_2 fst) in Hin.
Qed.

Lemma set_fresh k (v : V) m :
  JsMap.get k m = None → JsMap.set k v m = m ++ [(k, v)].
Proof.
  induction m as [|[k0 v0] rest IH]; simpl; [done|].
  destruct (Z.eqb_spec k k0); [done|]. intros H. by rewrite IH.
Qed.

Lemma elem_of_delete k m e : e ∈ JsMap.delete k m ↔ e ∈ m ∧ fst e ≠ k.
Proof.
  induction m as [|[k0 v0] rest IH]; simpl; [set_solver|].
  destruct (Z.eqb_spec k k0) as [->|].
  - rewrite IH elem_of_cons. split; [naive_solver|].
    intros [[->|?] ?]; naive_solver.
  - rewrite !elem_of_cons IH. split; [|naive_solver].
    intros [->|[? ?]]; [|naive_solver]. split; [by left|simpl; congruence].
Qed.

Lemma keys_delete_NoDup k m :
  NoDup (JsMap.keys m) → NoDup (JsMap.keys (JsMap.delete k m)).
Proof.
  induction m as [|[k0 v0] rest IH]; simpl; [done|].
  intros [Hnot Hnd]%NoDup_cons.
  destruct (Z.eqb_spec k k0); [auto|]. simpl. apply NoDup_cons. split; [|auto].
  intros [[k1 v1] [Heq Hin]]%list_elem_of_fmap. simpl in Heq. subst k1.
  apply elem_of_delete in Hin as [Hin _]. apply Hnot.
  by apply (list_elem_of_fmap_2 fst) in Hin.
Qed.
End MapFacts.

Lemma fold_left_invariant {A B : Type} (P : A → Prop) (f : A → B → A) (l : list B) (a : A) :
  P a → (∀ a b, b ∈ l → P a → P (f a b)) → P (fold_left f l a).
Proof.
  revert a. induction l as [|b l IH]; simpl; [done|].
  intros a Ha Hstep. apply IH.
  - apply Hstep; [left|done].
  - intros a' b' Hin. apply Hstep. by right.
Qed.

End MapProofs.

(** ** The relay *)

Module RelayProofs.
Import Json Relay MapProofs.

(** *** Properties of objects and maps *)

Section FieldFacts.
Implicit Types (k : string) (v : value) (fields : list (string * value)).

Lemma lookup_set_field_eq k v fields :
  lookup_field k (set_field k v fields) = Some v.
Proof.
  induction fields as [|[k' v'] rest IH]; simpl.
  - by rewrite String.eqb_refl.
  - destruct (String.eqb k k') eqn:E; simpl; [by rewrite String.eqb_refl|by rewrite E].
Qed.

Lemma lookup_set_field_ne k k' v fields :
  k ≠ k' → lookup_field k' (set_field k v fields) = lookup_field k' fields.
Proof.
  intros Hne. induction fields as [|[k0 v0] rest IH]; simpl.
  - destruct (String.eqb_spec k' k); congruence.
  - destruct (String.eqb_spec k k0) as [->|]; simpl.
    + destruct (String.eqb_spec k' k0); congruence.
    + by rewrite IH.
Qed.

Lemma lookup_remove_field_ne k k' fields :
  k ≠ k' → lookup_field k' (remove_field k fields) = lookup_field k' fields.
Proof.
  intros Hne. unfold remove_field.
  induction fields as [|[k0 v0] rest IH]; simpl; [done|].
  destruct (String.eqb_spec k k0) as [->|]; simpl.
  - destruct (String.eqb_spec k' k0); congruence.
  - by rewrite IH.
Qed.

Lemma lookup_assign_ne k k' (o : option value) fields :
  k ≠ k' → lookup_field k' (assign k o fields) = lookup_field k' fields.
Proof.
  destruct o; simpl; eauto using lookup_set_field_ne, lookup_remove_field_ne.
Qed.

Lemma lookup_stamp_senderId me (uname : option value) fields :
  lookup_field "senderId" (stamp me uname fields) = Some (Num me).
Proof.
  unfold stamp. rewrite lookup_assign_ne; [discriminate|]. apply lookup_set_field_eq.
Qed.

Lemma lookup_stamp_targetPeerId me (uname : option value) fields :
  lookup_field "targetPeerId" (stamp me uname fields)
  = lookup_field "targetPeerId" fields.
Proof.
  unfold stamp. rewrite lookup_assign_ne; [discriminate|].
  by apply lookup_set_field_ne.
Qed.
End FieldFacts.

(** *** What the transport operations leave alone *)

Lemma socket_send_keeps msg : keeps_listener (socket_send msg).
Proof. intros [[] ? ?]; done. Qed.

Lemma socket_close_keeps : keeps_listener socket_close.
Proof. intros [[] ? ?]; done. Qed.

Lemma set_ready_keeps r : keeps_listener (set_ready r).
Proof. done. Qed.

Lemma ready_of_ws_send w w' msg st : ready_of w (ws_send w' msg st) = ready_of w st.
Proof.
  unfold ready_of, ws_send; simpl. rewrite lookup_alter.
  case_decide; [subst|done]. destruct (sockets st !! w) as [[[] ? ?]|]; done.
Qed.

Lemma is_open_ws_send w w' msg st : is_open w (ws_send w' msg st) = is_open w st.
Proof. unfold is_open. by rewrite ready_of_ws_send. Qed.

Lemma sent_of_ws_send_ne w w' msg st :
  w ≠ w' → sent_of w (ws_send w' msg st) = sent_of w st.
Proof.
  intros Hne. unfold sent_of, ws_send; simpl. rewrite lookup_alter.
  case_decide; congruence.
Qed.

Lemma sent_of_ws_send_open w msg st :
  is_open w st = true → sent_of w (ws_send w msg st) = sent_of w st ++ [msg].
Proof.
  unfold is_open, ready_of, sent_of, ws_send; simpl. rewrite lookup_alter.
  case_decide; [|done]. destruct (sockets st !! w) as [[[] ? ?]|]; done.
Qed.

Lemma sent_of_ws_send_not_open w msg st :
  is_open w st = false → ws_send w msg st = st.
Proof.
  unfold is_open, ready_of, ws_send, with_sockets. destruct st as [n cs ss]; simpl.
  intros Hclosed. f_equal. apply map_eq. intros k. rewrite lookup_alter.
  case_decide; [subst|done]. destruct (ss !! k) as [[[] ? ?]|]; done.
Qed.

(** *** The invariant of the relay *)

Lemma wf_initial : wf initial.
Proof.
  split; simpl; [lia| |set_solver|constructor].
  intros k s. by rewrite lookup_empty.
Qed.

Lemma socket_send_shut msg : keeps_shut (socket_send msg).
Proof. intros [[] ? ?]; done. Qed.

Lemma socket_close_shut : keeps_shut socket_close.
Proof. intros [[] ? ?]; done. Qed.

Lemma set_ready_shut : keeps_shut (set_ready CLOSED).
Proof. done. Qed.

Lemma wf_get st k c :
  wf st → JsMap.get k (clients st) = Some c →
  ws c = k ∧ clientId c = k ∧ 1 ≤ k < nextClientId st ∧
  ∃ s, sockets st !! k = Some s ∧ entry_ok c s.
Proof.
  intros Hwf Hget. apply get_Some_elem_of in Hget.
  destruct (wf_clients _ Hwf _ _ Hget) as (? & ? & s & Hs & ?).
  repeat split; eauto using wf_sockets; by eapply wf_sockets.
Qed.

Lemma entry_ok_alter c s f :
  keeps_listener f → keeps_shut f → entry_ok c s → entry_ok c (f s).
Proof.
  intros Hf Hg [[Hl Hp]|(Hl & Hp & Hr)]; [left|right]; rewrite Hf; auto.
Qed.

Lemma wf_alter st f k :
  keeps_listener f → keeps_shut f → wf st → wf (with_sockets (alter f k) st).
Proof.
  intros Hf Hg [Hn Hs Hc Hk]. split; simpl; [done| | |done].
  - intros k' s. rewrite lookup_alter. case_decide; [subst|by apply Hs].
    destruct (sockets st !! k') eqn:E; [|done]. intros _. by eapply Hs.
  - intros k' c Hin. destruct (Hc _ _ Hin) as (? & ? & s & Hs' & Hl).
    repeat split; [done..|]. rewrite lookup_alter. case_decide; [subst|eauto].
    rewrite Hs'. simpl. eexists. split; [done|]. by apply entry_ok_alter.
Qed.

Lemma wf_ws_send st w msg : wf st → wf (ws_send w msg st).
Proof. apply wf_alter; [apply socket_send_keeps|apply socket_send_shut]. Qed.

Lemma wf_ws_close st w : wf st → wf (ws_close w st).
Proof. apply wf_alter; [apply socket_close_keeps|apply socket_close_shut]. Qed.

Lemma clients_ws_send w msg st : clients (ws_send w msg st) = clients st.
Proof. done. Qed.

Lemma next_ws_send w msg st : nextClientId (ws_send w msg st) = nextClientId st.
Proof. done. Qed.

(** The invariant reads of the transports only their listeners and their
    readiness. *)
Lemma wf_ext st st' :
  nextClientId st' = nextClientId st → clients st' = clients st →
  (∀ w, ready_of w st' = ready_of w st) →
  (∀ w, on_message <$> sockets st' !! w = on_message <$> sockets st !! w) →
  wf st → wf st'.
Proof.
  intros Hn Hc Hr Hl [Hnext Hs Hcl Hk]. split; rewrite ?Hn ?Hc; [done| |  |done].
  - intros k s Hk'. specialize (Hl k). rewrite Hk' in Hl.
    destruct (sockets st !! k) eqn:E; [by eapply Hs|done].
  - intros k c Hin. destruct (Hcl _ _ Hin) as (? & ? & s & Hs' & Hlis).
    split_and!; [done..|]. specialize (Hl k). specialize (Hr k).
    unfold ready_of in Hr. rewrite Hs' in Hl, Hr.
    destruct (sockets st' !! k) as [s'|]; [|done]. simpl in Hl.
    exists s'. split; [done|]. unfold entry_ok in *.
    injection Hl as Hl. by rewrite Hr Hl.
Qed.

Lemma only_sends_refl st : only_sends st st.
Proof. by split_and!. Qed.

Lemma only_sends_wf st st' : only_sends st st' → wf st → wf st'.
Proof. intros (? & ? & ? & ?). by apply wf_ext. Qed.

Lemma only_sends_send st st' w msg :
  only_sends st st' → only_sends st (ws_send w msg st').
Proof.
  intros (Hn & Hc & Hr & Hl). split_and!; simpl; [done..| |].
  - intros w'. by rewrite ready_of_ws_send.
  - intros w'. rewrite -Hl lookup_alter. case_decide; [subst|done].
    destruct (sockets st' !! w') as [[[] ? ?]|]; done.
Qed.

Lemma notify_new_peer_only_sends me uname st :
  only_sends st (notify_new_peer me uname st).
Proof.
  unfold notify_new_peer.
  apply (fold_left_invariant (only_sends st)); [apply only_sends_refl|].
  intros a e _ Ha. case_match; [by apply only_sends_send|done].
Qed.

Lemma notify_disconnected_only_sends me uname st :
  only_sends st (notify_disconnected me uname st).
Proof.
  unfold notify_disconnected.
  apply (fold_left_invariant (only_sends st)); [apply only_sends_refl|].
  intros a e _ Ha. case_match; [by apply only_sends_send|done].
Qed.

(** A transport that has its registration listener, or whose first frame
    the listener has not stored, is not in the registry. *)
Lemma wf_unregistered st me s :
  wf st → sockets st !! me = Some s → on_message s = AwaitRegister →
  JsMap.get me (clients st) = None.
Proof.
  intros Hwf Hs Hl. destruct (JsMap.get me (clients st)) as [c|] eqn:E; [|done].
  destruct (wf_get _ _ _ Hwf E) as (_ & _ & _ & s' & Hs' & Hl').
  rewrite Hs in Hs'. simplify_eq. destruct Hl' as [[? _]|[? _]]; congruence.
Qed.

Lemma wf_alter_unregistered st f me :
  JsMap.get me (clients st) = None → wf st → wf (with_sockets (alter f me) st).
Proof.
  intros Hget [Hn Hs Hc Hk]. split; simpl; [done| | |done].
  - intros k' s. rewrite lookup_alter. case_decide; [subst|by apply Hs].
    destruct (sockets st !! k') eqn:E; [|done]. intros _. by eapply Hs.
  - intros k' c Hin. destruct (Hc _ _ Hin) as (? & ? & s & Hs' & Hl).
    split_and!; [done..|]. rewrite lookup_alter. case_decide; [subst|eauto].
    apply elem_of_get in Hin; [congruence|done].
Qed.

(** What lines 34-75 change. *)
Lemma announce_frame me uname st :
  let st' := announce me uname st in
  nextClientId st' = nextClientId st ∧
  clients st' = clients st ∧
  (∀ w, ready_of w st' = ready_of w st) ∧
  (∀ w, on_message <$> sockets st' !! w =
        if decide (w = me)
        then (λ _, Forwarding uname) <$> sockets st !! w
        else on_message <$> sockets st !! w).
Proof.
  unfold announce.
  set (st2 := if _ : bool then _ else st).
  assert (only_sends st st2) as H12.
  { subst st2. case_match; [apply only_sends_send|]; apply only_sends_refl. }
  pose proof (notify_new_peer_only_sends me uname st2) as H23.
  destruct H12 as (Hn1 & Hc1 & Hr1 & Hl1), H23 as (Hn2 & Hc2 & Hr2 & Hl2).
  simpl. split_and!.
  - by rewrite Hn2 Hn1.
  - by rewrite Hc2 Hc1.
  - intros w. unfold ready_of; simpl. rewrite lookup_alter.
    specialize (Hr2 w). specialize (Hr1 w). unfold ready_of in Hr1, Hr2.
    case_decide; [subst w|by rewrite Hr2 Hr1].
    rewrite -Hr1 -Hr2. by destruct (sockets (notify_new_peer _ _ _) !! me) as [[]|].
  - intros w. rewrite lookup_alter. specialize (Hl2 w). specialize (Hl1 w).
    destruct (decide (w = me)) as [->|Hne].
    2: { rewrite decide_False; [congruence|]. by rewrite Hl2 Hl1. }
    rewrite decide_True; [done|].
    rewrite -option_fmap_compose. simpl in Hl1.
    destruct (sockets st !! me), (sockets st2 !! me),
      (sockets (notify_new_peer _ _ _) !! me); simplify_eq/=; done.
Qed.

(** What the registration of a frame changes: the entry is stored either
    way; the listener is installed when the user name can be printed, and
    the transport is closed when it cannot. *)
Lemma register_frame me data st :
  let st' := register me data st in
  nextClientId st' = nextClientId st ∧
  clients st' = JsMap.set me (Client me (get "username" data) me) (clients st) ∧
  (∀ w, w ≠ me → ready_of w st' = ready_of w st) ∧
  (∀ w, w ≠ me → on_message <$> sockets st' !! w = on_message <$> sockets st !! w) ∧
  (printable_opt (get "username" data) = true →
     ready_of me st' = ready_of me st ∧
     on_message <$> sockets st' !! me
     = (λ _, Forwarding (get "username" data)) <$> sockets st !! me) ∧
  (printable_opt (get "username" data) = false →
     st' = ws_close me
             (with_clients (JsMap.set me (Client me (get "username" data) me)) st)).
Proof.
  unfold register. set (u := get "username" data).
  set (st1 := with_clients _ st). destruct (printable_opt u) eqn:Hp.
  - destruct (announce_frame me u st1) as (Hn & Hc & Hr & Hl).
    split_and!; [done..| | | |done].
    + intros w _. by rewrite Hr.
    + intros w Hne. by rewrite Hl decide_False.
    + intros _. split; [by rewrite Hr|]. by rewrite Hl decide_True.
  - split_and!; [done..| | |done|done].
    + intros w Hne. unfold ready_of; simpl. by rewrite lookup_alter_ne.
    + intros w Hne. simpl. by rewrite lookup_alter_ne.
Qed.

Lemma wf_register me data st s :
  wf st → sockets st !! me = Some s → on_message s = NoListener →
  JsMap.get me (clients st) = None →
  wf (register me data st).
Proof.
  intros Hwf Hs Hlis Hget.
  destruct (register_frame me data st) as (Hn & Hc & Hr & Hl & Hyes & Hno).
  set (u := get "username" data) in *.
  destruct Hwf as [Hnext Hsock Hcl Hk].
  assert (∀ k, is_Some (sockets (register me data st) !! k) → is_Some (sockets st !! k))
    as Hdom.
  { intros k [s' Hk']. destruct (decide (k = me)) as [->|Hne]; [by eexists|].
    specialize (Hl k Hne). rewrite Hk' in Hl.
    by destruct (sockets st !! k); [eexists|]. }
  split; rewrite ?Hn ?Hc.
  - done.
  - intros k s' Hk'. destruct (Hdom k (mk_is_Some _ _ Hk')) as [s0 Hs0]. by eapply Hsock.
  - rewrite set_fresh; [done|]. intros k c [Hin|Hin%list_elem_of_singleton]%elem_of_app.
    + destruct (Hcl _ _ Hin) as (? & ? & s' & Hs' & Hl').
      split_and!; [done..|].
      assert (k ≠ me) as Hne by (intros ->; apply elem_of_get in Hin; congruence).
      specialize (Hl k Hne). specialize (Hr k Hne). unfold ready_of in Hr.
      rewrite Hs' in Hl, Hr.
      destruct (sockets (register me data st) !! k) as [s''|]; [|done].
      exists s''. split; [done|]. simpl in Hl. unfold entry_ok in *.
      injection Hl as Hl. by rewrite Hr Hl.
    + simplify_eq. split_and!; [done..|]. destruct (printable_opt u) eqn:Hp.
      * destruct (Hyes eq_refl) as [_ Hme]. rewrite Hs in Hme.
        destruct (sockets (register me data st) !! me) as [s''|]; [|done].
        exists s''. split; [done|]. left. simpl in *. split; congruence.
      * rewrite (Hno eq_refl). simpl. rewrite lookup_alter_eq Hs. simpl.
        eexists. split; [done|]. right. simpl.
        rewrite socket_close_keeps. split_and!; [done..|].
        by destruct s as [[] ? ?].
  - rewrite set_fresh; [done|]. unfold JsMap.keys. rewrite fmap_app. simpl.
    apply NoDup_app. split_and!; [done| |apply NoDup_singleton].
    intros k Hin ->%list_elem_of_singleton. by apply get_None_not_key in Hget.
Qed.

Lemma wf_on_connection st : wf st → wf (snd (on_connection st)).
Proof.
  intros [Hn Hs Hc Hk]. split; simpl; [lia| | |done].
  - intros k s. rewrite lookup_insert. case_decide; [lia|].
    intros Hin%Hs. lia.
  - intros k c Hin. destruct (Hc _ _ Hin) as (? & ? & s & Hs' & Hl).
    split_and!; [done..|]. exists s. split; [|done].
    rewrite lookup_insert_ne; [|done]. apply Hs in Hs'. lia.
Qed.

Lemma wf_delete st me : wf st → wf (with_clients (JsMap.delete me) st).
Proof.
  intros [Hn Hs Hc Hk]. split; simpl; [done..| |by apply keys_delete_NoDup].
  intros k c [Hin _]%elem_of_delete. by apply Hc.
Qed.

Lemma wf_first_message me message st s :
  wf st → sockets st !! me = Some s → on_message s = NoListener →
  JsMap.get me (clients st) = None →
  wf (first_message me message st).
Proof.
  intros Hwf Hs Hl Hget. unfold first_message.
  repeat case_match; eauto using wf_ws_close, wf_register.
Qed.

Lemma forward_message_only_sends me uname message st :
  only_sends st (state_of (forward_message me uname message st)).
Proof.
  unfold forward_message.
  repeat case_match; simpl;
    first [apply only_sends_refl | apply only_sends_send, only_sends_refl].
Qed.

Lemma on_close_frame me st :
  nextClientId (state_of (on_close me st)) = nextClientId st ∧
  (∀ w, ready_of w (state_of (on_close me st)) = ready_of w st) ∧
  (∀ w, on_message <$> sockets (state_of (on_close me st)) !! w
        = on_message <$> sockets st !! w).
Proof.
  unfold on_close. repeat case_match; simpl; [|done..].
  by destruct (notify_disconnected_only_sends me (username c)
              (with_clients (JsMap.delete me) st)) as (? & ? & ? & ?).
Qed.

Lemma wf_on_close me st : wf st → wf (state_of (on_close me st)).
Proof.
  intros Hwf. unfold on_close. repeat case_match; simpl; [|done..].
  eapply only_sends_wf; [apply notify_disconnected_only_sends|]. by apply wf_delete.
Qed.

Lemma step_wf ev st : wf st → wf (state_of (step ev st)).
Proof.
  intros Hwf. destruct ev as [|conn message|conn|conn]; simpl.
  - by apply wf_on_connection.
  - unfold dispatch_message.
    destruct (sockets st !! conn) as [s|] eqn:Hs; [|done].
    destruct (readyState s) eqn:Hr, (on_message s) eqn:Hl; simpl; try done;
      try (eapply only_sends_wf; [apply forward_message_only_sends|done]).
    all: assert (JsMap.get conn (clients st) = None) as Hget
      by (by eapply wf_unregistered).
    all: eapply (wf_first_message _ _ _ (set_listener NoListener s));
      [by apply wf_alter_unregistered
      |simpl; by rewrite lookup_alter decide_True // Hs|done|done].
  - by apply wf_ws_close.
  - destruct (sockets st !! conn) as [s|] eqn:Hs; [|done].
    destruct (readyState s); simpl; try done.
    all: apply wf_on_close, wf_alter;
      [apply set_ready_keeps|apply set_ready_shut|done].
Qed.

Lemma step_next ev st :
  nextClientId (state_of (step ev st))
  = nextClientId st + Z.of_nat (length (issued_by ev st)).
Proof.
  destruct ev as [|conn message|conn|conn]; simpl; [done| | |].
  - unfold dispatch_message. rewrite Z.add_0_r.
    destruct (sockets st !! conn) as [s|] eqn:Hs; [|done].
    destruct (readyState s), (on_message s); simpl; try done;
      try apply forward_message_only_sends.
    all: unfold first_message; repeat case_match; try done.
    all: by destruct (register_frame conn (Obj fields)
                  (with_sockets (alter (set_listener NoListener) conn) st)) as [-> _].
  - lia.
  - rewrite Z.add_0_r. destruct (sockets st !! conn) as [s|] eqn:Hs; [|done].
    destruct (readyState s); simpl; try done.
    all: by destruct (on_close_frame conn
                  (with_sockets (alter (set_ready CLOSED) conn) st)) as [-> _].
Qed.

Lemma run_wf evs st : wf st → wf (state_of (run evs st)).
Proof.
  revert st. induction evs as [|ev evs IH]; intros st Hwf; simpl; [done|].
  pose proof (step_wf ev st Hwf) as Hstep.
  destruct (step ev st); simpl in *; auto.
Qed.

Lemma reachable_wf st : reachable st → wf st.
Proof.
  intros [evs Hrun]. pose proof (run_wf evs initial wf_initial) as H.
  by rewrite Hrun in H.
Qed.

Lemma issued_ids_sorted evs st :
  StronglySorted Z.lt (issued_ids evs st) ∧
  Forall (λ i, nextClientId st ≤ i) (issued_ids evs st).
Proof.
  revert st. induction evs as [|ev evs IH]; intros st; simpl.
  - split; constructor.
  - pose proof (step_next ev st) as Hnext.
    assert (StronglySorted Z.lt (match step ev st with
                                 | Ok st' => issued_ids evs st'
                                 | Uncaught _ _ => []
                                 end) ∧
            Forall (λ i, nextClientId (state_of (step ev st)) ≤ i)
                   (match step ev st with
                    | Ok st' => issued_ids evs st'
                    | Uncaught _ _ => []
                    end)) as [Hs Hb].
    { destruct (step ev st); simpl; [apply IH|split; constructor]. }
    rewrite Hnext in Hb. destruct ev; simpl in *.
    + split.
      * constructor; [done|]. eapply Forall_impl; [done|]. simpl. lia.
      * constructor; [lia|]. eapply Forall_impl; [done|]. simpl. lia.
    + split; [done|]. eapply Forall_impl; [done|]. simpl. lia.
    + split; [done|]. eapply Forall_impl; [done|]. simpl. lia.
    + split; [done|]. eapply Forall_impl; [done|]. simpl. lia.
Qed.

Lemma run_next_mono evs st : nextClientId st ≤ nextClientId (state_of (run evs st)).
Proof.
  revert st. induction evs as [|ev evs IH]; intros st; simpl; [done|].
  pose proof (step_next ev st) as Hnext.
  destruct (step ev st) as [st'|e st']; simpl in *; [|lia].
  specialize (IH st'). lia.
Qed.

(** The ids handed out are the values the counter went through. *)
Lemma issued_ids_seqZ evs st :
  issued_ids evs st
  = seqZ (nextClientId st) (nextClientId (state_of (run evs st)) - nextClientId st).
Proof.
  revert st. induction evs as [|ev evs IH]; intros st; simpl.
  - by rewrite Z.sub_diag.
  - pose proof (step_next ev st) as Hnext.
    pose proof (run_next_mono evs (state_of (step ev st))) as Hmono.
    destruct (step ev st) as [st'|e st'] eqn:Hstep; simpl in *.
    + rewrite IH. destruct ev; simpl in *.
      * rewrite (seqZ_cons (nextClientId st)); [lia|]. f_equal.
        rewrite Hnext. f_equal; lia.
      * rewrite Hnext Z.add_0_r. done.
      * rewrite Hnext Z.add_0_r. done.
      * rewrite Hnext Z.add_0_r. done.
    + destruct ev; simpl in *; try done.
      all: by rewrite Hnext Z.add_0_r Z.sub_diag.
Qed.

(** *** Scenarios *)

Lemma reachable_two_peers : reachable two_peers.
Proof.
  exists [Connection; Connection;
          Message 1 (register_as "alice"); Message 2 (register_as "bob")].
  by vm_compute.
Qed.

Lemma reachable_one_connected : reachable one_connected.
Proof. by exists [Connection]. Qed.

(** *** Routing of client envelopes *)

Lemma dispatch_forwarding st me s uname message :
  sockets st !! me = Some s → readyState s ≠ CLOSED →
  on_message s = Forwarding uname →
  step (Message me message) st = forward_message me uname message st.
Proof.
  intros Hs Hr Hl. simpl. unfold dispatch_message. rewrite Hs Hl.
  by destruct (readyState s).
Qed.

(** C1 fails on the relay: with Alice and Bob registered and open, an
    envelope of Alice without [targetPeerId] reaches nobody. *)
Lemma untargeted_not_broadcast :
  step (Message 1 (Text (Obj chat_fields))) two_peers = Ok two_peers ∧
  ¬ broadcast_to_others 1 (Obj (stamp 1 (Some (Str "alice")) chat_fields))
      two_peers two_peers.
Proof.
  split; [by vm_compute|].
  intros H. specialize (H 2 (Client 2 (Some (Str "bob")) 2)).
  assert (sent_of 2 two_peers = sent_of 2 two_peers ++
            [Obj (stamp 1 (Some (Str "alice")) chat_fields)]) as Heq.
  { apply H; [|done|by vm_compute]. vm_compute. right. left. }
  apply (f_equal length) in Heq. rewrite length_app in Heq. simpl in Heq. lia.
Qed.

(** C1, amended: an envelope that reaches the forwarding listener of a
    registered peer and carries no [targetPeerId] is delivered to no peer;
    the relay and every transport are left exactly as they were. *)
Theorem untargeted_envelope_dropped st me s uname fields :
  sockets st !! me = Some s → readyState s ≠ CLOSED →
  on_message s = Forwarding uname →
  lookup_field "targetPeerId" fields = None →
  step (Message me (Text (Obj fields))) st = Ok st.
Proof.
  intros Hs Hr Hl Hnone. rewrite (dispatch_forwarding _ _ _ _ _ Hs Hr Hl).
  unfold forward_message. simpl. by rewrite lookup_stamp_targetPeerId Hnone.
Qed.

Lemma untargeted_envelope_dropped_witness :
  step (Message 1 (Text (Obj chat_fields))) two_peers = Ok two_peers.
Proof.
  apply (untargeted_envelope_dropped two_peers 1
           (Socket OPEN (Forwarding (Some (Str "alice")))
              [new_peer_msg 2 (Some (Str "bob"))])
           (Some (Str "alice")) chat_fields).
  - by vm_compute.
  - discriminate.
  - reflexivity.
  - reflexivity.
Defined.

(** C2 fails on the relay: a frame that is not JSON, sent by a registered
    peer, is not answered by closing the transport; the forwarding
    listener throws and nothing catches it. *)
Theorem malformed_frame_after_registration :
  step (Message 1 Malformed) two_peers = Uncaught SyntaxError two_peers ∧
  ready_of 1 two_peers = OPEN.
Proof. split; by vm_compute. Qed.

(** The first frame, by contrast, is handled inside [try]: a violation
    closes that transport and touches nothing else. *)
Lemma first_frame_violation st me s message :
  sockets st !! me = Some s → readyState s = OPEN → on_message s = AwaitRegister →
  violates message →
  step (Message me message) st
  = Ok (with_sockets (<[me := Socket CLOSING NoListener (sent s)]>) st).
Proof.
  intros Hs Hr Hl Hv. simpl. unfold dispatch_message. rewrite Hs Hr Hl. f_equal.
  assert (ws_close me (with_sockets (alter (set_listener NoListener) me) st)
          = with_sockets (<[me := Socket CLOSING NoListener (sent s)]>) st) as Hclose.
  { unfold ws_close, with_sockets; simpl. f_equal.
    apply map_eq. intros k. rewrite !lookup_alter lookup_insert.
    case_decide; [subst|done]. rewrite Hs. simpl.
    rewrite decide_True; [done|]. by rewrite /socket_close /= Hr. }
  unfold first_message, violates in *.
  destruct (JSON_parse message) as [data|]; [|done].
  destruct data; try done.
  destruct (get "type" (Obj fields)) as [[| | |ty| |]|] eqn:E; try done.
  repeat case_match; done.
Qed.

(** C6: an envelope of a registered peer whose [targetPeerId] is [t] is
    handled without error; it is appended once to the transport of [w]
    exactly when [t] is the id [w] of a registered peer whose transport is
    open, and no transport gets anything otherwise. *)
Theorem targeted_envelope_delivery st me s uname fields t :
  reachable st →
  sockets st !! me = Some s → readyState s ≠ CLOSED →
  on_message s = Forwarding uname →
  lookup_field "targetPeerId" fields = Some t →
  ∃ st', step (Message me (Text (Obj fields))) st = Ok st' ∧
    ∀ w, (open_target t w st →
            sent_of w st' = sent_of w st ++ [Obj (stamp me uname fields)]) ∧
         (¬ open_target t w st → sent_of w st' = sent_of w st).
Proof.
  intros Hwf%reachable_wf Hs Hr Hl Ht.
  rewrite (dispatch_forwarding _ _ _ _ _ Hs Hr Hl).
  unfold forward_message. simpl. rewrite lookup_stamp_targetPeerId Ht. simpl.
  destruct (truthy t) eqn:Htruthy.
  - destruct t as [| |T| | |]; simpl;
      try (eexists; split; [done|]; intros w; split; [by intros [? _]|done]).
    destruct (JsMap.get T (clients st)) as [peer|] eqn:Hget.
    + destruct (wf_get _ _ _ Hwf Hget) as (Hws & _ & _ & _). rewrite Hws.
      destruct (is_open T st) eqn:Hopen.
      * eexists; split; [done|]. intros w; split.
        -- intros [[= <-] _]. by apply sent_of_ws_send_open.
        -- intros Hnot. apply sent_of_ws_send_ne. intros ->. apply Hnot.
           split_and!; [done|by rewrite Hget|].
           unfold is_open in Hopen. by destruct (ready_of T st).
      * eexists; split; [done|]. intros w; split; [|done].
        intros ([= <-] & _ & Hopen'). unfold is_open in Hopen.
        by rewrite Hopen' in Hopen.
    + eexists; split; [done|]. intros w; split; [|done].
      intros ([= <-] & [? Hsome] & _). congruence.
  - eexists; split; [done|]. intros w; split; [|done].
    intros (-> & [peer Hget] & _). simpl in Htruthy.
    destruct (wf_get _ _ _ Hwf Hget) as (_ & _ & Hrange & _).
    apply negb_false_iff, Z.eqb_eq in Htruthy. lia.
Qed.

Lemma targeted_envelope_delivery_witness :
  ∃ st', step (Message 1 (Text (Obj offer_to_bob))) two_peers = Ok st' ∧
    ∀ w, (open_target (Num 2) w two_peers →
            sent_of w st' = sent_of w two_peers
                            ++ [Obj (stamp 1 (Some (Str "alice")) offer_to_bob)]) ∧
         (¬ open_target (Num 2) w two_peers → sent_of w st' = sent_of w two_peers).
Proof.
  apply (targeted_envelope_delivery two_peers 1
           (Socket OPEN (Forwarding (Some (Str "alice")))
              [new_peer_msg 2 (Some (Str "bob"))])
           (Some (Str "alice")) offer_to_bob (Num 2)).
  - apply reachable_two_peers.
  - by vm_compute.
  - discriminate.
  - reflexivity.
  - reflexivity.
Defined.

(** C7: whatever the sequence of connections, frames and closures, the
    ids the relay hands out are strictly increasing, so none is handed out
    twice. *)
Theorem issued_ids_strictly_increasing (evs : list event) :
  StronglySorted Z.lt (issued_ids evs initial) ∧ NoDup (issued_ids evs initial).
Proof.
  destruct (issued_ids_sorted evs initial) as [Hs _]. split; [done|].
  induction Hs as [|a l _ IH Hall]; constructor; [|done].
  intros Hin. rewrite Forall_forall in Hall. apply Hall in Hin. lia.
Qed.

(** *** Registration *)

Lemma existing_peers_set me c cs :
  existing_peers me (JsMap.set me c cs) = existing_peers me cs.
Proof.
  unfold existing_peers. f_equal.
  induction cs as [|[k v] rest IH]; simpl.
  - by rewrite Z.eqb_refl.
  - destruct (Z.eqb_spec me k) as [->|Hne]; simpl.
    + by rewrite Z.eqb_refl.
    + by rewrite IH.
Qed.

Lemma notify_new_peer_sent_of_self me uname st :
  (∀ e, e ∈ clients st → fst e ≠ me → ws (snd e) ≠ me) →
  sent_of me (notify_new_peer me uname st) = sent_of me st.
Proof.
  intros Hws. unfold notify_new_peer.
  apply (fold_left_invariant (λ acc, sent_of me acc = sent_of me st)); [done|].
  intros acc e Hin Hacc. destruct (Z.eqb_spec (fst e) me) as [Heq|Hne]; simpl; [done|].
  case_match; [|done]. rewrite sent_of_ws_send_ne; [|done].
  intros Heq. by apply (Hws e).
Qed.

(** The list of lines 35-40 when the newcomer is not in the registry yet:
    every entry, in registry order. *)
Lemma existing_peers_fresh me cs :
  JsMap.get me cs = None →
  existing_peers me cs
  = (λ e : Z * client,
       Obj (("clientId", Num (fst e)) ::
            match username (snd e) with
            | Some u => [("username", u)]
            | None => []
            end)) <$> cs.
Proof.
  intros Hfresh%get_None_not_key. unfold existing_peers.
  rewrite List.forallb_filter_id.
  - apply forallb_forall. intros [k c] Hin%list_elem_of_In. simpl.
    apply negb_true_iff, Z.eqb_neq. intros ->. apply Hfresh.
    by apply (list_elem_of_fmap_2 fst) in Hin.
  - apply list_fmap_ext. intros _ [k c] _. simpl. by destruct (username c).
Qed.

(** C3 fails on the relay: the first peer to register is sent nothing at
    all, not an [existing-peers] envelope with an empty list. *)
Lemma first_peer_gets_no_existing_peers :
  ∃ st', step (Message 1 (register_as "alice")) one_connected = Ok st' ∧
    JsMap.get 1 (clients st') = Some (Client 1 (Some (Str "alice")) 1) ∧
    sent_of 1 st' = [] ∧
    sent_of 1 st' ≠ sent_of 1 one_connected
                    ++ [Obj [("type", Str "existing-peers"); ("peers", Arr [])]].
Proof. eexists. split; [by vm_compute|]. by vm_compute. Qed.

(** C3, amended: a registration goes through when the first frame is a
    [register] object whose user name can be written into the log line of
    line 32.  Right after it the new peer is in the registry with the
    forwarding listener, and the relay has sent it one [existing-peers]
    envelope that lists the [clientId] and the [username] of every other
    entry of the registry, in registry order, when there is at least one,
    and nothing when there is none, as for the first peer to register. *)
Theorem registration_reply st me s data :
  reachable st →
  sockets st !! me = Some s → readyState s = OPEN → on_message s = AwaitRegister →
  get "type" data = Some (Str "register") →
  printable_opt (get "username" data) = true →
  ∃ st', step (Message me (Text data)) st = Ok st' ∧
    JsMap.get me (clients st') = Some (Client me (get "username" data) me) ∧
    on_message <$> sockets st' !! me = Some (Forwarding (get "username" data)) ∧
    sent_of me st' = sent_of me st ++
      match clients st with
      | [] => []
      | others =>
          [Obj [("type", Str "existing-peers");
                ("peers",
                 Arr ((λ e : Z * client,
                         Obj (("clientId", Num (fst e)) ::
                              match username (snd e) with
                              | Some u => [("username", u)]
                              | None => []
                              end)) <$> others))]]
      end.
Proof.
  intros Hwf%reachable_wf Hs Hr Hl Hty Hp.
  set (st0 := with_sockets (alter (set_listener NoListener) me) st).
  exists (register me data st0). split.
  { simpl. unfold dispatch_message. rewrite Hs Hr Hl. unfold first_message. simpl.
    destruct data; try done. by rewrite Hty. }
  assert (JsMap.get me (clients st) = None) as Hfresh by (by eapply wf_unregistered).
  destruct (register_frame me data st0) as (_ & Hc & _ & _ & Hyes & _).
  destruct (Hyes Hp) as [_ Hlis].
  split; [rewrite Hc; apply get_set_eq|].
  split; [by rewrite Hlis /= lookup_alter_eq Hs|].
  unfold register. rewrite Hp. unfold announce.
  set (u := get "username" data).
  set (st1 := with_clients (JsMap.set me (Client me u me)) st0).
  replace (existing_peers me (clients st1)) with (existing_peers me (clients st))
    by (symmetry; apply existing_peers_set).
  rewrite existing_peers_fresh //.
  set (st2 := if _ : bool then _ else st1).
  assert (sent_of me (with_sockets (alter (set_listener (Forwarding u)) me)
                        (notify_new_peer me u st2)) = sent_of me st2) as ->.
  { unfold sent_of at 1; simpl. rewrite lookup_alter decide_True //.
    rewrite -(notify_new_peer_sent_of_self me u st2).
    2: { unfold sent_of. by destruct (sockets (notify_new_peer me u st2) !! me). }
    intros [k c] Hin Hne. simpl in *.
    assert (clients st2 = JsMap.set me (Client me u me) (clients st)) as Hc2.
    { subst st2. by case_match. }
    rewrite Hc2 set_fresh // in Hin.
    apply elem_of_app in Hin as [Hin|Hin%list_elem_of_singleton]; [|congruence].
    destruct (wf_clients _ Hwf _ _ Hin) as [-> _]. done. }
  assert (sent_of me st1 = sent_of me st) as Hsent1.
  { unfold sent_of; simpl. rewrite lookup_alter decide_True // Hs //. }
  assert (is_open me st1 = true) as Hopen1.
  { unfold is_open, ready_of; simpl. rewrite lookup_alter decide_True // Hs /= Hr //. }
  subst st2. destruct (clients st) as [|p ps].
  - simpl. by rewrite Hsent1 app_nil_r.
  - rewrite (proj2 (Z.ltb_lt 0 _)); [rewrite length_fmap; simpl length; lia|].
    by rewrite sent_of_ws_send_open // Hsent1.
Qed.

Lemma registration_reply_witness :
  ∃ st', step (Message 2 (register_as "bob")) alice_and_guest = Ok st' ∧
    JsMap.get 2 (clients st') = Some (Client 2 (Some (Str "bob")) 2) ∧
    on_message <$> sockets st' !! 2 = Some (Forwarding (Some (Str "bob"))) ∧
    sent_of 2 st'
    = [Obj [("type", Str "existing-peers");
            ("peers", Arr [Obj [("clientId", Num 1); ("username", Str "alice")]])]].
Proof.
  apply (registration_reply alice_and_guest 2 (Socket OPEN AwaitRegister [])
           (Obj [("type", Str "register"); ("username", Str "bob")])).
  - exists [Connection; Connection; Message 1 (register_as "alice")]. by vm_compute.
  - by vm_compute.
  - reflexivity.
  - reflexivity.
  - reflexivity.
  - reflexivity.
Defined.

(** *** Ids are taken at connection time *)

(** C10 fails on the relay for the order in which peers register: the
    second connection registers before the first, and the registry, which
    is what [existing-peers] lists, holds the ids 2, 1, 3 in that order. *)
Lemma registry_order_not_increasing :
  ∃ st, run late_registration initial = Ok st ∧
    issued_ids late_registration initial = [1; 2; 3] ∧
    JsMap.keys (clients st) = [2; 1; 3] ∧
    ¬ StronglySorted Z.lt (JsMap.keys (clients st)).
Proof.
  eexists. split; [by vm_compute|]. split; [by vm_compute|]. split; [by vm_compute|].
  vm_compute. intros Hs. apply StronglySorted_inv in Hs as [_ Hall].
  apply Forall_cons in Hall as [Hlt _]. done.
Qed.

(** C10, amended: the id is taken from the counter when the transport
    connects, with the registry untouched and the registration listener
    still pending; a first frame that violates the protocol leaves the
    counter where it is, so the id stays used up and is never issued
    again; at any time the ids in the registry are pairwise different, each
    is the id issued to the connection of its entry, and they can skip
    values.  The registry keeps them in the order of registration, which
    need not be increasing. *)
Theorem id_allocated_at_connection :
  (∀ st, fst (on_connection st) = nextClientId st ∧
         nextClientId (snd (on_connection st)) = nextClientId st + 1 ∧
         clients (snd (on_connection st)) = clients st ∧
         sockets (snd (on_connection st)) !! nextClientId st
           = Some (Socket OPEN AwaitRegister [])) ∧
  (∀ st me s message,
      reachable st → sockets st !! me = Some s → readyState s = OPEN →
      on_message s = AwaitRegister → violates message →
      ∃ st', step (Message me message) st = Ok st' ∧
             nextClientId st' = nextClientId st ∧ clients st' = clients st ∧
             JsMap.get me (clients st') = None ∧
             ∀ evs, me ∉ issued_ids evs st') ∧
  (∀ evs, NoDup (JsMap.keys (clients (state_of (run evs initial)))) ∧
          ∀ k c, JsMap.get k (clients (state_of (run evs initial))) = Some c →
                 ws c = k ∧ clientId c = k ∧ k ∈ issued_ids evs initial) ∧
  (issued_ids gap_scenario initial = [1; 2; 3] ∧
   JsMap.keys (clients (state_of (run gap_scenario initial))) = [1; 3]).
Proof.
  split_and!.
  - intros st. simpl. split_and!; [done..|]. by rewrite lookup_insert_eq.
  - intros st me s message Hwf%reachable_wf Hs Hr Hl Hv.
    eexists. split; [by apply first_frame_violation|]. simpl.
    split_and!; [done..| |].
    + by eapply wf_unregistered.
    + intros evs Hin.
      destruct (issued_ids_sorted evs
        (with_sockets <[me:=Socket CLOSING NoListener (sent s)]> st)) as [_ Hall].
      rewrite Forall_forall in Hall. apply Hall in Hin. simpl in Hin.
      apply (wf_sockets _ Hwf) in Hs. lia.
  - intros evs. pose proof (run_wf evs initial wf_initial) as Hwf.
    split; [apply (wf_keys _ Hwf)|].
    intros k c Hget.
    destruct (wf_get _ _ _ Hwf Hget) as (? & ? & Hrange & _).
    split_and!; [done..|]. rewrite issued_ids_seqZ. apply elem_of_seqZ.
    simpl. lia.
  - by vm_compute.
  - by vm_compute.
Qed.

Lemma id_allocated_at_connection_witness :
  ∃ st', step (Message 1 Malformed) one_connected = Ok st' ∧
         nextClientId st' = nextClientId one_connected ∧
         clients st' = clients one_connected ∧
         JsMap.get 1 (clients st') = None ∧
         ∀ evs, 1 ∉ issued_ids evs st'.
Proof.
  destruct id_allocated_at_connection as (_ & Hviolation & _).
  apply (Hviolation one_connected 1 (Socket OPEN AwaitRegister []) Malformed).
  - apply reachable_one_connected.
  - by vm_compute.
  - reflexivity.
  - reflexivity.
  - exact I.
Defined.

(** *** Everything the relay puts on a transport *)

Lemma elem_of_sent_of_ws_send w w' msg st v :
  v ∈ sent_of w (ws_send w' msg st) → v ∈ sent_of w st ∨ (w = w' ∧ v = msg).
Proof.
  destruct (decide (w = w')) as [->|Hne].
  - destruct (is_open w' st) eqn:Hopen.
    + rewrite sent_of_ws_send_open //. intros [?|?%list_elem_of_singleton]%elem_of_app; auto.
    + rewrite sent_of_ws_send_not_open //. auto.
  - rewrite sent_of_ws_send_ne //. auto.
Qed.

Lemma sent_of_alter (f : socket → socket) k w st :
  (∀ s, sent (f s) = sent s) → sent_of w (with_sockets (alter f k) st) = sent_of w st.
Proof.
  intros Hf. unfold sent_of; simpl. rewrite lookup_alter.
  case_decide; [subst|done]. destruct (sockets st !! w); simpl; auto.
Qed.

Lemma notify_new_peer_sent me uname st w v :
  (∀ e, e ∈ clients st → fst e ≠ me → ws (snd e) ≠ me) →
  v ∈ sent_of w (notify_new_peer me uname st) →
  v ∈ sent_of w st ∨ (w ≠ me ∧ v = new_peer_msg me uname).
Proof.
  intros Hws. unfold notify_new_peer.
  apply (fold_left_invariant
           (λ acc, v ∈ sent_of w acc →
                   v ∈ sent_of w st ∨ (w ≠ me ∧ v = new_peer_msg me uname))); [auto|].
  intros acc e Hin IH. destruct (Z.eqb_spec (fst e) me) as [Heq|Hne]; simpl; [done|].
  case_match; [|done].
  intros [?|[-> ->]]%elem_of_sent_of_ws_send; [auto|]. right. split; [|done].
  by apply Hws.
Qed.

Lemma notify_disconnected_sent me uname st w v :
  v ∈ sent_of w (notify_disconnected me uname st) →
  v ∈ sent_of w st ∨ v = peer_disconnected_msg me uname.
Proof.
  unfold notify_disconnected.
  apply (fold_left_invariant
           (λ acc, v ∈ sent_of w acc →
                   v ∈ sent_of w st ∨ v = peer_disconnected_msg me uname)); [auto|].
  intros acc e Hin IH. case_match; [|done].
  intros [?|[-> ->]]%elem_of_sent_of_ws_send; auto.
Qed.

Lemma register_sent me data st w v :
  wf st → JsMap.get me (clients st) = None →
  v ∈ sent_of w (register me data st) →
  v ∈ sent_of w st ∨
  (w = me ∧ v = existing_peers_msg (existing_peers me (clients st))) ∨
  (w ≠ me ∧ v = new_peer_msg me (get "username" data)).
Proof.
  intros Hwf Hfresh. unfold register.
  set (u := get "username" data).
  set (st1 := with_clients (JsMap.set me (Client me u me)) st).
  destruct (printable_opt u);
    [|unfold ws_close; rewrite sent_of_alter; [by intros [[] ? ?]|auto]].
  unfold announce.
  replace (existing_peers me (clients st1)) with (existing_peers me (clients st))
    by (symmetry; apply existing_peers_set).
  set (st2 := if _ : bool then _ else st1).
  rewrite sent_of_alter //.
  intros [Hin|?]%notify_new_peer_sent; [|auto|].
  - subst st2. case_match; [|by left].
    apply elem_of_sent_of_ws_send in Hin as [?|[-> ->]]; auto.
  - intros [k c] Hin Hne. simpl in *.
    assert (clients st2 = JsMap.set me (Client me u me) (clients st)) as Hc2.
    { subst st2. by case_match. }
    rewrite Hc2 set_fresh // in Hin.
    apply elem_of_app in Hin as [Hin|Hin%list_elem_of_singleton]; [|congruence].
    destruct (wf_clients _ Hwf _ _ Hin) as [-> _]. done.
Qed.

Lemma step_sent ev st w v :
  wf st → v ∈ sent_of w (state_of (step ev st)) →
  v ∈ sent_of w st ∨ new_message ev st w v.
Proof.
  intros Hwf. destruct ev as [|conn message|conn|conn]; simpl.
  - unfold sent_of; simpl. rewrite lookup_insert. case_decide; [|auto].
    by intros ?%elem_of_nil.
  - unfold dispatch_message.
    destruct (sockets st !! conn) as [s|] eqn:Hs; [|auto].
    destruct (on_message s) as [|uname|] eqn:Hl.
    + assert (JsMap.get conn (clients st) = None) as Hfresh
        by (by eapply wf_unregistered).
      set (st0 := with_sockets (alter (set_listener NoListener) conn) st).
      assert (sent_of w st0 = sent_of w st) as Hst0 by by apply sent_of_alter.
      assert (v ∈ sent_of w (first_message conn message st0) →
              v ∈ sent_of w st ∨ new_message (Message conn message) st w v) as Hfirst.
      { unfold first_message.
        assert (v ∈ sent_of w (ws_close conn st0) → v ∈ sent_of w st) as Hclose.
        { unfold ws_close. rewrite sent_of_alter; [by intros [[] ? ?]|]. by rewrite Hst0. }
        destruct message as [|data]; simpl; [auto|].
        destruct data; auto.
        repeat case_match; auto.
        intros [Hin|[[-> ->]|[Hne ->]]]%register_sent; try done.
        - left. by rewrite -Hst0.
        - right. by left.
        - right. right. left. eauto.
        - by apply wf_alter_unregistered. }
      destruct (readyState s); simpl; auto.
    + assert (v ∈ sent_of w (state_of (forward_message conn uname message st)) →
              v ∈ sent_of w st ∨ new_message (Message conn message) st w v) as Hfwd.
      { unfold forward_message.
        destruct message as [|data]; simpl; [auto|].
        destruct data; simpl; auto.
        rewrite lookup_stamp_targetPeerId.
        destruct (lookup_field "targetPeerId" fields) as [t|] eqn:Ht; simpl; [|auto].
        destruct (truthy t); [|auto]. destruct t as [| |T| | |]; simpl; auto.
        destruct (JsMap.get T (clients st)) as [peer|] eqn:Hget; [|auto].
        destruct (wf_get _ _ _ Hwf Hget) as (Hws & _). rewrite Hws.
        case_match; simpl; [|auto].
        intros [?|[-> ->]]%elem_of_sent_of_ws_send; [auto|].
        right. right. right. eauto. }
      destruct (readyState s); simpl; auto.
    + destruct (readyState s); simpl; auto.
  - unfold ws_close. rewrite sent_of_alter; [by intros [[] ? ?]|]. auto.
  - destruct (sockets st !! conn) as [s|] eqn:Hs; [|auto].
    assert (v ∈ sent_of w (state_of (on_close conn
                             (with_sockets (alter (set_ready CLOSED) conn) st))) →
            v ∈ sent_of w st ∨ ∃ u, v = peer_disconnected_msg conn u) as Hclose.
    { unfold on_close. simpl. repeat case_match; simpl.
      - intros [Hin | ->]%notify_disconnected_sent; [|eauto]. left.
        revert Hin. unfold sent_of; simpl. rewrite lookup_alter.
        case_decide; [subst|done]. by destruct (sockets st !! w).
      - rewrite sent_of_alter //. auto.
      - rewrite sent_of_alter //. auto. }
    destruct (readyState s); simpl; auto.
Qed.

End RelayProofs.

(** ** The client *)

Module ClientProofs.
Import Json Client MapProofs.

Section AnyLibrary.
Context `{rtc : RTC}.

Ltac run_handler :=
  unfold onmessage, handleOffer, handleAnswer, handleIceCandidate,
    handlePeerDisconnection, call, call_, log_name, try_catch, bind, await, read,
    modify, emit, throw, log, ws_send, ret, set_connection, set_channels,
    set_usernames, delete_connection, set_myPeerId; simpl.

(** An answer the library refuses is caught and logged; the state stays. *)
Lemma answer_rejection_logged (st : state) sender answer c msg :
  JsMap.get sender (peerConnections st) = Some c →
  setRemoteDescription answer (handle c) = Rejected msg →
  handleAnswer sender answer st
  = Returned tt st [Log error (SetRemoteFailed msg)].
Proof. intros Hget Hrej. run_handler. by rewrite Hget Hrej. Qed.

(** C5, amended: a candidate received for a known peer is handed to the
    peer's connection handle at once.  If the handle takes it, the map
    holds the handle as the call left it; if the handle refuses it, as it
    does while it has no remote description, the error is logged at error
    level, the client state is exactly what it was, and the candidate is
    kept nowhere, so nothing can replay it. *)
Theorem candidate_applied_at_once (st : state) sender candidate c :
  JsMap.get sender (peerConnections st) = Some c →
  match addIceCandidate candidate (handle c) with
  | Resolved p =>
      handleIceCandidate sender candidate st
      = Returned tt
          {| peerConnections :=
               JsMap.set sender (Connection p (ondatachannel c)) (peerConnections st);
             dataChannels := dataChannels st;
             peerUsernames := peerUsernames st;
             myPeerId := myPeerId st;
             username := username st |} []
  | Rejected msg =>
      handleIceCandidate sender candidate st
      = Returned tt st [Log error (AddCandidateFailed msg)]
  end.
Proof.
  intros Hget. run_handler. rewrite Hget.
  by destruct (addIceCandidate candidate (handle c)).
Qed.

(** C8: on [peer-disconnected] for [P] the connection handle of [P], if
    there is one, is closed and dropped, none of the three maps has an entry
    for [P] afterwards, and the entries of every other peer are what they
    were.  The handler then returns normally when the user name of the
    envelope can be written into the log line of line 202, and ends with
    the [TypeError] of that line when it cannot; the records are removed
    before that, either way. *)
Theorem peer_disconnected_removes_records (st : state) sid P uname :
  let c := onmessage (PeerDisconnected sid P uname) st in
  (if printable_opt uname
   then ∃ out, c = Returned tt (final c) out
   else ∃ message out, c = Threw message (final c) out) ∧
  (JsMap.get P (peerConnections (final c)) = None ∧
   JsMap.get P (dataChannels (final c)) = None ∧
   JsMap.get P (peerUsernames (final c)) = None) ∧
  (∀ Q, Q ≠ P →
     JsMap.get Q (peerConnections (final c)) = JsMap.get Q (peerConnections st) ∧
     JsMap.get Q (dataChannels (final c)) = JsMap.get Q (dataChannels st) ∧
     JsMap.get Q (peerUsernames (final c)) = JsMap.get Q (peerUsernames st)) ∧
  (is_Some (JsMap.get P (peerConnections st)) → ConnectionClose P ∈ emitted c).
Proof.
  run_handler.
  destruct (negb (truthy_id (myPeerId st)) && truthy_id sid); simpl;
    destruct (JsMap.get P (peerConnections st)) as [conn|] eqn:Hget; simpl;
    destruct (printable_opt uname); simpl.
  all: split_and!; eauto using get_delete_eq.
  all: try (intros Q HQ; split_and!; try done; by apply get_delete_ne).
  all: intros [x Hx]; try done; set_solver.
Qed.
End AnyLibrary.

Section MyPeerId.
Context `{rtc : RTC}.

Lemma keeps_ret {A} (a : A) : keeps_myPeerId (ret a).
Proof. done. Qed.

Lemma keeps_bind {A B} (m : M A) (k : A → M B) :
  keeps_myPeerId m → (∀ a, keeps_myPeerId (k a)) → keeps_myPeerId (bind m k).
Proof.
  intros Hm Hk st. unfold bind. specialize (Hm st).
  destruct (m st) as [a st1 out1|e st1 out1]; simpl in *; [|done].
  specialize (Hk a st1). destruct (k a st1); simpl in *; congruence.
Qed.

Lemma keeps_try_catch {A} (m : M A) (handler : string → M A) :
  keeps_myPeerId m → (∀ e, keeps_myPeerId (handler e)) →
  keeps_myPeerId (try_catch m handler).
Proof.
  intros Hm Hh st. unfold try_catch. specialize (Hm st).
  destruct (m st) as [a st1 out1|e st1 out1]; simpl in *; [done|].
  specialize (Hh e st1). destruct (handler e st1); simpl in *; congruence.
Qed.

Lemma keeps_await {A} (p : promise A) : keeps_myPeerId (await p).
Proof. intros st. by destruct p. Qed.

Lemma keeps_read {A} (f : state → A) : keeps_myPeerId (read f).
Proof. done. Qed.

Lemma keeps_emit e : keeps_myPeerId (emit e).
Proof. done. Qed.

Lemma keeps_log_name lv uname l : keeps_myPeerId (log_name lv uname l).
Proof. unfold log_name. by destruct (printable_opt uname). Qed.

Lemma keeps_set_connection p c : keeps_myPeerId (set_connection p c).
Proof. done. Qed.

Lemma keeps_delete_connection p : keeps_myPeerId (delete_connection p).
Proof. done. Qed.

Lemma keeps_set_channels f : keeps_myPeerId (set_channels f).
Proof. done. Qed.

Lemma keeps_set_usernames f : keeps_myPeerId (set_usernames f).
Proof. done. Qed.

Create HintDb myid.

Hint Resolve keeps_ret keeps_await keeps_read keeps_emit keeps_log_name
  keeps_set_connection keeps_delete_connection keeps_set_channels
  keeps_set_usernames : myid.

Ltac keep :=
  repeat first
    [ solve [eauto with myid]
    | apply keeps_bind; [|intros ?]
    | apply keeps_try_catch; [|intros ?]
    | match goal with
      | |- keeps_myPeerId (match ?x with _ => _ end) => destruct x
      | |- keeps_myPeerId (if ?x then _ else _) => destruct x
      end ].

Lemma keeps_createPeerConnection p initiator :
  keeps_myPeerId (createPeerConnection p initiator).
Proof.
  unfold createPeerConnection, call, call_, setupDataChannel, ws_send.
  destruct initiator; keep.
Qed.

Hint Resolve keeps_createPeerConnection : myid.

Lemma keeps_connect_to_all peers : keeps_myPeerId (connect_to_all peers).
Proof. induction peers as [|peer rest IH]; simpl; keep. Qed.

Lemma keeps_send_to_open msg chans : keeps_myPeerId (send_to_open msg chans).
Proof. induction chans as [|[p ch] rest IH]; simpl; keep. Qed.

Hint Resolve keeps_connect_to_all keeps_send_to_open : myid.

(** [myPeerId] is written by the first lines of [onmessage] only. *)
Lemma myPeerId_onmessage data (st : state) :
  myPeerId (final (onmessage data st))
  = if negb (truthy_id (myPeerId st)) && truthy_id (senderId_of data)
    then senderId_of data
    else myPeerId st.
Proof.
  unfold onmessage.
  set (body := match data with ExistingPeers _ _ => _ | _ => _ end).
  assert (keeps_myPeerId body) as Hbody.
  { subst body. unfold handleOffer, handleAnswer, handleIceCandidate,
      handlePeerDisconnection, call, call_, log, ws_send.
    destruct data; keep. }
  unfold bind at 1 2 3. unfold log, emit, read at 1. simpl.
  destruct (negb (truthy_id (myPeerId st)) && truthy_id (senderId_of data)); simpl.
  - specialize (Hbody (final (set_myPeerId (senderId_of data) st))).
    simpl in Hbody. by destruct (body _).
  - specialize (Hbody st). by destruct (body st).
Qed.

Lemma myPeerId_dispatch_local ev (st : state) :
  (∀ data, ev ≠ SocketMessage data) →
  myPeerId (final (dispatch ev st)) = myPeerId st.
Proof.
  intros Hev. revert st.
  change (keeps_myPeerId (dispatch ev)).
  destruct ev as [|data|p cand|p|p kept|p|message]; simpl;
    unfold sendMessage, setupDataChannel, log, ws_send; keep.
  by destruct (Hev data).
Qed.

Lemma myPeerId_run evs (st : state) :
  myPeerId (fst (run evs st))
  = if truthy_id (myPeerId st) then myPeerId st
    else match first_stamped evs with
         | Some j => Some j
         | None => myPeerId st
         end.
Proof.
  revert st. induction evs as [|ev evs IH]; intros st; simpl.
  - by destruct (truthy_id (myPeerId st)).
  - rewrite IH. destruct ev as [|data| | | | |];
      try (rewrite myPeerId_dispatch_local; [by intros ?|done]).
    change (dispatch (SocketMessage data) st) with (onmessage data st).
    rewrite myPeerId_onmessage.
    destruct (truthy_id (myPeerId st)) eqn:Hmine; simpl; [by rewrite Hmine|].
    destruct (truthy_id (senderId_of data)) eqn:Hs; simpl.
    + rewrite Hs. by destruct (senderId_of data).
    + by rewrite Hmine.
Qed.

End MyPeerId.

Import Browser.

Lemma candidate_applied_at_once_witness :
  handleIceCandidate 2 (Some bob_candidate) awaiting_answer
  = Returned tt awaiting_answer
      [Log error (AddCandidateFailed "The remote description was null")].
Proof.
  apply (@candidate_applied_at_once Browser.rtc awaiting_answer 2 (Some bob_candidate)
           (@Connection Browser.rtc
              (PeerConnection (Some (description "offer")) None [] 1) false)).
  reflexivity.
Defined.

(** C5 fails on the client: Bob's candidate arrives while Alice's handle
    for him has no remote description; it is refused and logged, and when
    his answer has been applied the handle still has no candidate. *)
Lemma early_candidate_lost :
  let r := run early_candidate (init "alice") in
  Log error (AddCandidateFailed "The remote description was null") ∈ snd r ∧
  ∃ c, JsMap.get 2 (peerConnections (fst r)) = Some c ∧
       remoteDescription (handle c) = Some (description "answer") ∧
       bob_candidate ∉ candidates (handle c).
Proof.
  split.
  - vm_compute. do 3 right. left.
  - eexists. split; [by vm_compute|]. split; [done|]. simpl. set_solver.
Qed.

(** C4 fails on the client: an offer the library refuses is not caught.
    The handler's promise is rejected with the library's error, and the
    logging callback has seen the debug line only, nothing at error
    level. *)
Theorem offer_rejection_escapes :
  ∃ st', dispatch (SocketMessage bad_offer) (init "alice")
         = Threw "Failed to parse SessionDescription" st'
             [Log debug (Received bad_offer)].
Proof. eexists. by vm_compute. Qed.

Lemma peer_disconnected_removes_records_witness :
  ConnectionClose 2
    ∈ emitted (onmessage (PeerDisconnected None 2 (Some (Str "bob"))) awaiting_answer).
Proof.
  apply (peer_disconnected_removes_records awaiting_answer None 2 (Some (Str "bob"))).
  by eexists.
Defined.

End ClientProofs.

(** ** The relay and its clients together *)

Module SystemProofs.
Import Json Client System MapProofs RelayProofs ClientProofs.

Section OneClient.
Context `{rtc : RTC} (id next : Z).

Local Abbreviation preserves := (System.preserves id next).

Lemma preserves_ret {A} (a : A) : preserves (ret a).
Proof. intros st Hst. simpl. auto. Qed.

Lemma preserves_bind {A B} (m : M A) (k : A → M B) :
  preserves m → (∀ a, preserves (k a)) → preserves (bind m k).
Proof.
  intros Hm Hk st Hst. unfold bind. specialize (Hm st Hst).
  destruct (m st) as [a st1 out1|e st1 out1]; simpl in *; [|done].
  destruct Hm as [Hst1 Hout1]. specialize (Hk a st1 Hst1).
  destruct (k a st1); simpl in *; destruct Hk; split; auto using Forall_app_2.
Qed.

Lemma preserves_try_catch {A} (m : M A) (handler : string → M A) :
  preserves m → (∀ e, preserves (handler e)) → preserves (try_catch m handler).
Proof.
  intros Hm Hh st Hst. unfold try_catch. specialize (Hm st Hst).
  destruct (m st) as [a st1 out1|e st1 out1]; simpl in *; [done|].
  destruct Hm as [Hst1 Hout1]. specialize (Hh e st1 Hst1).
  destruct (handler e st1); simpl in *; destruct Hh; split; auto using Forall_app_2.
Qed.

Lemma preserves_await {A} (p : promise A) : preserves (await p).
Proof. intros st Hst. destruct p; simpl; auto. Qed.

Lemma preserves_read {A} (f : state → A) : preserves (read f).
Proof. intros st Hst. simpl. auto. Qed.

Lemma preserves_emit (e : effect) : effect_ok id next e → preserves (emit e).
Proof. intros He st Hst. simpl. auto. Qed.

Lemma preserves_log lv l : preserves (log lv l).
Proof. by apply preserves_emit. Qed.

Lemma preserves_log_name lv uname l : preserves (log_name lv uname l).
Proof.
  unfold log_name. destruct (printable_opt uname); [apply preserves_log|].
  intros st Hst. simpl. auto.
Qed.

Lemma preserves_modify (f : state → state) :
  (∀ st, client_ok id next st → client_ok id next (f st)) → preserves (modify f).
Proof. intros Hf st Hst. simpl. auto. Qed.

Lemma keys_set {V} (P : Z → Prop) k (v : V) m :
  P k → Forall P (JsMap.keys m) → Forall P (JsMap.keys (JsMap.set k v m)).
Proof.
  intros Hk. induction m as [|[k' v'] rest IH]; simpl.
  - by constructor.
  - intros [Hk' Hrest]%Forall_cons. destruct (k =? k'); simpl; constructor; auto.
Qed.

Lemma keys_delete {V} (P : Z → Prop) k (m : list (Z * V)) :
  Forall P (JsMap.keys m) → Forall P (JsMap.keys (JsMap.delete k m)).
Proof.
  induction m as [|[k' v'] rest IH]; simpl; [done|].
  intros [Hk' Hrest]%Forall_cons. destruct (k =? k'); simpl; auto.
Qed.

Lemma get_Some_key {V} k (v : V) m : JsMap.get k m = Some v → k ∈ JsMap.keys m.
Proof.
  intros Hin%get_Some_elem_of. by apply (list_elem_of_fmap_2 fst) in Hin.
Qed.

Lemma preserves_set_connection p c : p ≠ id → preserves (set_connection p c).
Proof.
  intros Hp. apply preserves_modify. intros st [Hkeys Hmine]. split; simpl; [|done].
  by apply keys_set.
Qed.

Lemma preserves_delete_connection p : preserves (delete_connection p).
Proof.
  apply preserves_modify. intros st [Hkeys Hmine]. split; simpl; [|done].
  by apply keys_delete.
Qed.

Lemma preserves_set_channels f : preserves (set_channels f).
Proof. apply preserves_modify. by intros st [Hkeys Hmine]. Qed.

Lemma preserves_set_usernames f : preserves (set_usernames f).
Proof. apply preserves_modify. by intros st [Hkeys Hmine]. Qed.

Lemma preserves_set_myPeerId o :
  (∀ j, o = Some j → remote id next j) → preserves (set_myPeerId o).
Proof. intros Ho. apply preserves_modify. by intros st [Hkeys Hmine]. Qed.

Create HintDb client.

Hint Resolve preserves_ret preserves_await preserves_read preserves_log
  preserves_log_name preserves_set_connection preserves_delete_connection preserves_set_channels
  preserves_set_usernames : client.

Ltac step_handler :=
  repeat first
    [ solve [eauto with client]
    | apply preserves_bind; [|intros ?]
    | apply preserves_try_catch; [|intros ?] ].

Lemma preserves_call {A} p c (r : promise (A * pc)) : p ≠ id → preserves (call p c r).
Proof. intros Hp. unfold call. step_handler. Qed.

Lemma preserves_call_ p c (r : promise pc) : p ≠ id → preserves (call_ p c r).
Proof. intros Hp. unfold call_. step_handler. Qed.

Hint Resolve preserves_call preserves_call_ : client.

Lemma signal_ok (ty : string) (payload : string) (v : value) p :
  is_signal (kind_of (Some (Str ty))) = true → payload ≠ "type" →
  payload ≠ "targetPeerId" → p ≠ id →
  uplink_ok id (Obj [("type", Str ty); (payload, v); ("targetPeerId", Num p)]).
Proof.
  intros Hty Hp1 Hp2 Hp. eexists. split; [done|]. right.
  assert (String.eqb "targetPeerId" payload = false) as Htarget
    by (apply String.eqb_neq; congruence).
  unfold lookup_field. rewrite !String.eqb_refl Htarget.
  change (String.eqb "targetPeerId" "type") with false. eauto.
Qed.

Lemma preserves_createPeerConnection p initiator :
  p ≠ id → preserves (createPeerConnection p initiator).
Proof.
  intros Hp. unfold createPeerConnection, setupDataChannel, ws_send.
  destruct initiator; step_handler.
  apply preserves_emit. by apply signal_ok.
Qed.

Hint Resolve preserves_createPeerConnection : client.

Lemma preserves_handleOffer sender offer :
  sender ≠ id → preserves (handleOffer sender offer).
Proof.
  intros Hp. unfold handleOffer, ws_send. step_handler.
  - case_match; step_handler.
  - apply preserves_emit. by apply signal_ok.
Qed.

Lemma preserves_handleAnswer sender answer :
  sender ≠ id → preserves (handleAnswer sender answer).
Proof. intros Hp. unfold handleAnswer. step_handler. case_match; step_handler. Qed.

Lemma preserves_handleIceCandidate sender candidate :
  sender ≠ id → preserves (handleIceCandidate sender candidate).
Proof. intros Hp. unfold handleIceCandidate. step_handler. case_match; step_handler. Qed.

Lemma preserves_handlePeerDisconnection p uname :
  preserves (handlePeerDisconnection p uname).
Proof.
  unfold handlePeerDisconnection. step_handler.
  case_match; step_handler. by apply preserves_emit.
Qed.

Lemma preserves_connect_to_all peers :
  Forall (λ p, fst p ≠ id) peers → preserves (connect_to_all peers).
Proof.
  induction 1 as [|peer rest Hpeer _ IH]; simpl in *; step_handler.
Qed.

Lemma preserves_onmessage data :
  envelope_ok id next data → preserves (onmessage data).
Proof.
  intros [Hsender Hpeers]. unfold onmessage.
  apply preserves_bind; [apply preserves_log|intros _].
  apply preserves_bind; [apply preserves_read|intros mine].
  apply preserves_bind; [|intros _].
  - destruct (negb (truthy_id mine) && truthy_id (senderId_of data));
      [by apply preserves_set_myPeerId|apply preserves_ret].
  - destruct data as [s peers|s p u|s u o|s a|s c|s p u|s]; simpl in *.
    + by apply preserves_connect_to_all.
    + step_handler.
    + apply preserves_bind; [apply preserves_set_usernames|intros _].
      apply preserves_handleOffer. by eapply Hsender.
    + apply preserves_handleAnswer. by eapply Hsender.
    + apply preserves_handleIceCandidate. by eapply Hsender.
    + apply preserves_handlePeerDisconnection.
    + apply preserves_ret.
Qed.

Lemma preserves_send_to_open msg chans :
  chat_sender_ok id next msg → preserves (send_to_open msg chans).
Proof.
  intros Hmsg. induction chans as [|[p ch] rest IH]; simpl; step_handler.
  case_match; step_handler; by apply preserves_emit.
Qed.

Lemma preserves_sendMessage message : preserves (sendMessage message).
Proof.
  unfold sendMessage. case_match; [step_handler|].
  intros st Hst. unfold bind, read. simpl.
  set (msg := Obj _).
  assert (chat_sender_ok id next msg) as Hmsg.
  { destruct Hst as [_ Hmine]. unfold chat_sender_ok. subst msg. simpl.
    destruct (myPeerId st) as [j|]; simpl; eauto. }
  destruct (preserves_send_to_open msg (dataChannels st) Hmsg st Hst) as [? ?].
  by destruct (send_to_open msg (dataChannels st) st).
Qed.

Lemma preserves_dispatch ev :
  match ev with
  | SocketMessage data => envelope_ok id next data
  | IceCandidateFound p _ => p ≠ id
  | _ => True
  end →
  preserves (dispatch ev).
Proof.
  destruct ev as [|data|p cand|p|p kept|p|message]; simpl; intros Hev.
  - intros st Hst. unfold bind, read, ws_send, emit; simpl. split; [done|].
    constructor; [|done]. eexists. split; [done|]. by left.
  - by apply preserves_onmessage.
  - destruct cand as [cand|]; [|apply preserves_ret].
    apply preserves_emit. by apply signal_ok.
  - unfold setupDataChannel. step_handler.
  - step_handler. repeat case_match; step_handler.
  - step_handler.
  - apply preserves_sendMessage.
Qed.
End OneClient.

(** *** What the relay sends decodes, and says nothing about the receiver *)

Lemma remote_mono (id next next' j : Z) :
  next ≤ next' → remote id next j → remote id next' j.
Proof. unfold remote. lia. Qed.

Lemma chat_sender_ok_mono (id next next' : Z) msg :
  next ≤ next' → chat_sender_ok id next msg → chat_sender_ok id next' msg.
Proof.
  intros Hle [?|(j & ? & ?)]; [by left|right]. eauto using remote_mono.
Qed.

Lemma downlink_ok_mono (id next next' : Z) v :
  next ≤ next' → downlink_ok id next v → downlink_ok id next' v.
Proof.
  intros Hle (data & Hdec & Hsender & Hpeers). exists data. split; [done|].
  split; [|done]. eauto using remote_mono.
Qed.

Lemma lookup_stamp_other k me uname fields :
  k ≠ "senderId" → k ≠ "username" →
  lookup_field k (Relay.stamp me uname fields) = lookup_field k fields.
Proof.
  intros H1 H2. unfold Relay.stamp. rewrite lookup_assign_ne; [congruence|].
  apply lookup_set_field_ne. congruence.
Qed.

Lemma decode_stamped (next w me : Z) uname fields :
  1 ≤ me < next → me ≠ w →
  is_signal (kind_of (lookup_field "type" fields)) = true →
  downlink_ok w next (Obj (Relay.stamp me uname fields)).
Proof.
  intros Hrange Hne Hsig. unfold downlink_ok, decode, decode_sender. simpl.
  rewrite lookup_stamp_senderId lookup_stamp_other //.
  destruct (kind_of (lookup_field "type" fields)); try done.
  all: eexists; split; [done|]; split; [|done].
  all: intros j [= <-]; by split.
Qed.

Lemma decode_new_peer (w next me : Z) uname :
  me ≠ w → downlink_ok w next (Relay.new_peer_msg me uname).
Proof.
  intros Hne. exists (NewPeer None me uname). split; [|by split].
  by destruct uname.
Qed.

Lemma decode_peer_disconnected (w next me : Z) uname :
  downlink_ok w next (Relay.peer_disconnected_msg me uname).
Proof.
  exists (PeerDisconnected None me uname). split; [|by split].
  by destruct uname.
Qed.

Lemma decode_existing_peers (me next : Z) cs :
  downlink_ok me next (Relay.existing_peers_msg (Relay.existing_peers me cs)).
Proof.
  unfold downlink_ok, decode. simpl.
  assert (∃ peers, decode_peers (Relay.existing_peers me cs) = Some peers ∧
                   Forall (λ p, fst p ≠ me) peers) as (peers & -> & Hpeers).
  { unfold Relay.existing_peers. induction cs as [|[k c] rest IH]; simpl.
    - exists []. by split.
    - destruct IH as (peers & Hdec & Hall).
      destruct (Z.eqb_spec k me) as [->|Hne]; simpl; [eauto|].
      exists ((k, Relay.username c) :: peers). split; [|by constructor].
      rewrite Hdec. by destruct (Relay.username c). }
  eexists. split; [done|]. by split.
Qed.

(** The frames of the client are objects: the relay handles them without
    throwing, whatever the state of the transport. *)
Lemma relay_accepts_client_frames (id : Z) v (st : Relay.relay) :
  uplink_ok id v → ∃ st', Relay.step (Relay.Message id (Text v)) st = Relay.Ok st'.
Proof.
  intros (fields & -> & _). simpl. unfold Relay.dispatch_message.
  destruct (Relay.sockets st !! id) as [s|]; [|eauto].
  destruct (Relay.readyState s), (Relay.on_message s); eauto.
  all: unfold Relay.forward_message; simpl; repeat case_match; eauto.
Qed.

Section AnyLibrary.
Context `{rtc : RTC}.

Lemma node_ok_mono (id next next' : Z) (n : node) :
  next ≤ next' → node_ok id next n → node_ok id next' n.
Proof.
  intros Hle [[Hkeys Hmine] Hup Hchat Hmade]. split; [split|..]; try done.
  - eauto using remote_mono.
  - eapply Forall_impl; [done|]. eauto using chat_sender_ok_mono.
Qed.

Lemma client_step_ok (id next : Z) ev (n : node) :
  match ev with
  | SocketMessage data => envelope_ok id next data
  | IceCandidateFound p _ => p ≠ id
  | _ => True
  end →
  node_ok id next n → node_ok id next (client_step ev n).
Proof.
  intros Hev [Happ Hup Hchat Hmade].
  destruct (preserves_dispatch id next ev Hev (app n) Happ) as [Hfinal Hout].
  split; simpl; [done| | |].
  - apply Forall_app_2; [done|]. unfold ws_frames.
    induction Hout as [|e out He _ IH]; simpl; [done|].
    destruct e; simpl; auto.
  - apply Forall_app_2; [done|]. unfold channel_frames.
    induction Hout as [|e out He _ IH]; simpl; [done|].
    destruct e; simpl; auto.
  - apply Forall_app_2; [done|]. by destruct Hfinal.
Qed.

Lemma invariant_initial : invariant System.initial.
Proof.
  split; simpl.
  - apply wf_initial.
  - intros id n. by rewrite lookup_empty.
  - intros id. unfold Relay.sent_of. simpl. by rewrite lookup_empty.
Qed.

Lemma invariant_step ev (st : system) : invariant st → invariant (System.step ev st).
Proof.
  intros [Hwf Hnodes Hdown]. destruct ev as [name|id|id|id ev|id]; simpl.
  - (* a browser joins *)
    split; simpl.
    + by apply wf_on_connection.
    + intros id n. rewrite lookup_insert. case_decide.
      * intros [= <-]. subst id. split; [destruct Hwf; lia|].
        split; simpl; [split; [done|]; by intros ?|repeat constructor|done|done].
        eexists. split; [done|]. by left.
      * intros [Hrange Hok]%Hnodes. split; [lia|].
        eapply node_ok_mono; [|done]. lia.
    + intros id. apply Forall_forall. intros v Hin.
      apply (step_sent Relay.Connection) in Hin as [Hin|[]]; [|done].
      specialize (Hdown id). rewrite Forall_forall in Hdown.
      eapply downlink_ok_mono; [|by apply Hdown]. lia.
  - (* the relay receives a frame *)
    destruct (nodes st !! id) as [n|] eqn:Hn; [|done].
    destruct (uplink n) as [|v rest] eqn:Hup; [done|].
    destruct (Hnodes _ _ Hn) as [Hrange [Happ Huplink Hchats Hmade]].
    rewrite Hup in Huplink. apply Forall_cons in Huplink as [Hv Hrest].
    pose proof (step_next (Relay.Message id (Text v)) (relay st)) as Hnext.
    simpl in Hnext. rewrite Z.add_0_r in Hnext.
    split; simpl; rewrite ?Hnext.
    + by apply (step_wf (Relay.Message id (Text v))).
    + intros id' n'. rewrite lookup_insert. case_decide; [|by apply Hnodes].
      intros [= <-]. subst id'. by split.
    + intros w. apply Forall_forall. intros v' Hin.
      apply (step_sent (Relay.Message id (Text v))) in Hin; [|done].
      destruct Hin as [Hin|Hnew].
      { specialize (Hdown w). rewrite Forall_forall in Hdown. by apply Hdown. }
      destruct Hnew as [[-> ->]|[[Hne [u ->]]|(u & fields & -> & -> & Htarget)]].
      * apply decode_existing_peers.
      * by apply decode_new_peer.
      * destruct Hv as (fields' & [= <-] & [[_ Hnone]|[Hsig (p & Hp & Hpid)]]);
          [congruence|].
        rewrite Htarget in Hp. simplify_eq. by apply decode_stamped.
  - (* a client receives a message *)
    destruct (nodes st !! id) as [n|] eqn:Hn; [|done].
    destruct (Relay.sent_of id (relay st) !! consumed n) as [v|] eqn:Hv; [|done].
    destruct (decode v) as [data|] eqn:Hdec; [|done].
    destruct (Hnodes _ _ Hn) as [Hrange Hok].
    split; simpl; [done| |done].
    intros id' n'. rewrite lookup_insert. case_decide; [|by apply Hnodes].
    intros [= <-]. subst id'. split; [done|].
    apply client_step_ok; [|by destruct Hok].
    specialize (Hdown id). rewrite Forall_forall in Hdown.
    destruct (Hdown v) as (data' & Hdec' & Henv).
    { by eapply list_elem_of_lookup_2. }
    congruence.
  - (* a page event *)
    destruct (nodes st !! id) as [n|] eqn:Hn; [|done].
    destruct (is_local n ev) eqn:Hlocal; [|done].
    destruct (Hnodes _ _ Hn) as [Hrange Hok].
    split; simpl; [done| |done].
    intros id' n'. rewrite lookup_insert. case_decide; [|by apply Hnodes].
    intros [= <-]. subst id'. split; [done|].
    apply client_step_ok; [|done]. destruct ev; try done. simpl in Hlocal.
    apply bool_decide_eq_true_1 in Hlocal.
    destruct Hok as [_ _ _ Hmade]. rewrite Forall_forall in Hmade. by apply Hmade.
  - (* a transport closes *)
    pose proof (step_next (Relay.Close id) (relay st)) as Hnext.
    simpl in Hnext. rewrite Z.add_0_r in Hnext.
    split; simpl; rewrite ?Hnext.
    + by apply (step_wf (Relay.Close id)).
    + intros id' n'. rewrite lookup_delete. case_decide; [done|]. by apply Hnodes.
    + intros w. apply Forall_forall. intros v' Hin.
      apply (step_sent (Relay.Close id)) in Hin; [|done].
      destruct Hin as [Hin|[u ->]].
      * specialize (Hdown w). rewrite Forall_forall in Hdown. by apply Hdown.
      * apply decode_peer_disconnected.
Qed.

Lemma invariant_run evs (st : system) : invariant st → invariant (System.run evs st).
Proof.
  revert st. induction evs as [|ev evs IH]; intros st Hst; simpl; [done|].
  by apply IH, invariant_step.
Qed.
End AnyLibrary.


Import Browser.


End SystemProofs.

(** ** The relay: joining, leaving and the registry *)

Module RelayLifecycle.
Import Json Relay MapProofs RelayProofs.

(** One pass of [clients.forEach] that sends [msg] to the open transports
    whose id passes [cond]: each of them gets it once. *)
Lemma forEach_send (cond : Z → bool) msg (l : list (Z * client)) acc w :
  NoDup (JsMap.keys l) → (∀ e, e ∈ l → ws (snd e) = fst e) →
  sent_of w (fold_left
               (λ acc (e : Z * client),
                  if cond (fst e) && is_open (ws (snd e)) acc
                  then ws_send (ws (snd e)) msg acc else acc) l acc)
  = sent_of w acc ++
    (if bool_decide (w ∈ JsMap.keys l) && cond w && is_open w acc then [msg] else []).
Proof.
  revert acc. induction l as [|[k c] l IH]; intros acc Hnd Hws; simpl.
  - by rewrite app_nil_r.
  - apply NoDup_cons in Hnd as [Hk Hnd].
    assert (ws c = k) as -> by (apply (Hws (k, c)); left).
    set (acc' := if cond k && is_open k acc then ws_send k msg acc else acc).
    assert (∀ w', is_open w' acc' = is_open w' acc) as Hopen.
    { intros w'. subst acc'. case_match; [apply is_open_ws_send|done]. }
    rewrite IH; [done| |].
    { intros e He. apply Hws. by right. }
    rewrite Hopen. destruct (decide (w = k)) as [->|Hne].
    + rewrite (bool_decide_eq_false_2 (k ∈ JsMap.keys l)) //.
      rewrite (bool_decide_eq_true_2 (k ∈ k :: JsMap.keys l)); [left|].
      simpl. rewrite app_nil_r. subst acc'.
      destruct (cond k); simpl; [|by rewrite app_nil_r].
      destruct (is_open k acc) eqn:Hk'; [|by rewrite app_nil_r].
      by apply sent_of_ws_send_open.
    + assert (sent_of w acc' = sent_of w acc) as ->.
      { subst acc'. case_match; [by apply sent_of_ws_send_ne|done]. }
      f_equal. assert (bool_decide (w ∈ k :: JsMap.keys l)
                       = bool_decide (w ∈ JsMap.keys l)) as ->; [|done].
      apply bool_decide_ext. rewrite elem_of_cons. naive_solver.
Qed.

Lemma key_is_Some {V} k (m : list (Z * V)) :
  k ∈ JsMap.keys m ↔ is_Some (JsMap.get k m).
Proof.
  split.
  - intros Hin. destruct (JsMap.get k m) eqn:E; [by eexists|].
    by apply get_None_not_key in E.
  - intros [v Hv]. apply get_Some_elem_of in Hv.
    by apply (list_elem_of_fmap_2 fst) in Hv.
Qed.

Lemma notify_new_peer_exact me uname st w :
  NoDup (JsMap.keys (clients st)) → (∀ e, e ∈ clients st → ws (snd e) = fst e) →
  sent_of w (notify_new_peer me uname st)
  = sent_of w st ++
    (if bool_decide (w ∈ JsMap.keys (clients st)) && negb (w =? me) && is_open w st
     then [new_peer_msg me uname] else []).
Proof. apply (forEach_send (λ k, negb (k =? me))). Qed.

Lemma notify_disconnected_exact me uname st w :
  NoDup (JsMap.keys (clients st)) → (∀ e, e ∈ clients st → ws (snd e) = fst e) →
  sent_of w (notify_disconnected me uname st)
  = sent_of w st ++
    (if bool_decide (w ∈ JsMap.keys (clients st)) && is_open w st
     then [peer_disconnected_msg me uname] else []).
Proof.
  intros Hnd Hws.
  rewrite -(andb_true_r (bool_decide (w ∈ JsMap.keys (clients st)))).
  apply (forEach_send (λ _, true)); done.
Qed.

Lemma is_open_OPEN w st : is_open w st = true ↔ ready_of w st = OPEN.
Proof. unfold is_open. by destruct (ready_of w st). Qed.

(** X1: when a transport registers with a user name that can be written
    into the log line of line 32, the registry gains its entry at the end,
    and every other peer of the registry whose transport is open is sent
    the [new-peer] envelope of the newcomer exactly once; no other
    transport is sent anything by the announcement. *)
Theorem join_is_announced_once st me s data :
  reachable st →
  sockets st !! me = Some s → readyState s ≠ CLOSED → on_message s = AwaitRegister →
  get "type" data = Some (Str "register") →
  printable_opt (get "username" data) = true →
  ∃ st', step (Message me (Text data)) st = Ok st' ∧
    clients st' = clients st ++ [(me, Client me (get "username" data) me)] ∧
    ∀ w, w ≠ me →
      (registered_open w st →
         sent_of w st' = sent_of w st ++ [new_peer_msg me (get "username" data)]) ∧
      (¬ registered_open w st → sent_of w st' = sent_of w st).
Proof.
  intros Hwf%reachable_wf Hs Hr Hl Hty Hp.
  set (st0 := with_sockets (alter (set_listener NoListener) me) st).
  exists (register me data st0).
  assert (JsMap.get me (clients st) = None) as Hfresh by (by eapply wf_unregistered).
  split.
  { simpl. unfold dispatch_message. rewrite Hs Hl. unfold first_message. simpl.
    destruct data; try done. rewrite Hty. by destruct (readyState s). }
  destruct (register_frame me data st0) as (_ & Hc & _).
  split; [by rewrite Hc set_fresh|].
  intros w Hne. unfold register. rewrite Hp. unfold announce.
  set (u := get "username" data).
  set (st1 := with_clients (JsMap.set me (Client me u me)) st0).
  set (st2 := if _ : bool then _ else st1).
  rewrite sent_of_alter //.
  assert (clients st2 = clients st ++ [(me, Client me u me)]) as Hc2.
  { subst st2. case_match; simpl; by rewrite set_fresh. }
  assert (sent_of w st2 = sent_of w st) as Hsent.
  { transitivity (sent_of w st1).
    - subst st2. case_match; [by apply sent_of_ws_send_ne|done].
    - unfold st1, st0. by apply sent_of_alter. }
  assert (is_open w st2 = is_open w st) as Hopen.
  { transitivity (is_open w st1).
    - subst st2. case_match; [apply is_open_ws_send|done].
    - unfold is_open, ready_of; simpl. rewrite lookup_alter_ne //. }
  rewrite notify_new_peer_exact.
  - rewrite Hc2. unfold JsMap.keys. rewrite fmap_app. apply NoDup_app.
    split_and!; [apply (wf_keys _ Hwf)| |apply NoDup_singleton].
    intros k Hin ->%list_elem_of_singleton. by apply get_None_not_key in Hfresh.
  - rewrite Hc2. intros [k c] [Hin|Hin%list_elem_of_singleton]%elem_of_app.
    + by destruct (wf_clients _ Hwf _ _ Hin).
    + by simplify_eq.
  - rewrite Hsent Hopen Hc2.
    assert (bool_decide (w ∈ JsMap.keys (clients st ++ [(me, Client me u me)]))
            = bool_decide (w ∈ JsMap.keys (clients st))) as ->.
    { apply bool_decide_ext. unfold JsMap.keys. rewrite fmap_app elem_of_app.
      simpl. rewrite list_elem_of_singleton. naive_solver. }
    assert (negb (w =? me) = true) as -> by (apply negb_true_iff, Z.eqb_neq; done).
    rewrite andb_true_r. split.
    + intros [Hreg Hready]. apply key_is_Some in Hreg.
      rewrite bool_decide_eq_true_2 //. apply is_open_OPEN in Hready.
      by rewrite Hready.
    + intros Hnot.
      destruct (bool_decide (w ∈ JsMap.keys (clients st))) eqn:Hk;
        [|by rewrite app_nil_r].
      destruct (is_open w st) eqn:Ho; [|by rewrite app_nil_r].
      destruct Hnot. apply bool_decide_eq_true_1 in Hk.
      split; [by apply key_is_Some|by apply is_open_OPEN].
Qed.

Lemma join_is_announced_once_witness :
  ∃ st', step (Message 2 (register_as "bob")) alice_and_guest = Ok st' ∧
    clients st' = clients alice_and_guest ++ [(2, Client 2 (Some (Str "bob")) 2)] ∧
    ∀ w, w ≠ 2 →
      (registered_open w alice_and_guest →
         sent_of w st' = sent_of w alice_and_guest
                         ++ [new_peer_msg 2 (Some (Str "bob"))]) ∧
      (¬ registered_open w alice_and_guest → sent_of w st' = sent_of w alice_and_guest).
Proof.
  apply (join_is_announced_once alice_and_guest 2 (Socket OPEN AwaitRegister [])
           (Obj [("type", Str "register"); ("username", Str "bob")])).
  - exists [Connection; Connection; Message 1 (register_as "alice")]. by vm_compute.
  - by vm_compute.
  - discriminate.
  - reflexivity.
  - reflexivity.
  - reflexivity.
Defined.

Lemma key_delete {V} k w (m : list (Z * V)) :
  w ∈ JsMap.keys (JsMap.delete k m) ↔ w ≠ k ∧ w ∈ JsMap.keys m.
Proof.
  rewrite !key_is_Some. destruct (decide (w = k)) as [->|Hne].
  - rewrite get_delete_eq. split; [by intros [? ?]|by intros [? _]].
  - rewrite get_delete_ne; [done|]. naive_solver.
Qed.

(** X2: when the transport of a peer of the registry closes and the user
    name of its entry can be written into the log line of line 85, the
    entry leaves the registry, and every remaining peer of the registry
    whose transport is open is sent [peer-disconnected] for it exactly
    once; the closed transport and every other one are sent nothing. *)
Theorem departure_is_announced_once st me s c :
  reachable st →
  sockets st !! me = Some s → readyState s ≠ CLOSED →
  JsMap.get me (clients st) = Some c → printable_opt (username c) = true →
  ∃ st', step (Close me) st = Ok st' ∧
    clients st' = JsMap.delete me (clients st) ∧
    JsMap.get me (clients st') = None ∧ ready_of me st' = CLOSED ∧
    ∀ w,
      (w ≠ me → registered_open w st →
         sent_of w st' = sent_of w st ++ [peer_disconnected_msg me (username c)]) ∧
      (w = me ∨ ¬ registered_open w st → sent_of w st' = sent_of w st).
Proof.
  intros Hwf%reachable_wf Hs Hr Hget Hp.
  set (stc := with_sockets (alter (set_ready CLOSED) me) st).
  set (std := with_clients (JsMap.delete me) stc).
  exists (notify_disconnected me (username c) std).
  destruct (notify_disconnected_only_sends me (username c) std) as (_ & Hc & Hready & _).
  split.
  { simpl. rewrite Hs. unfold on_close. simpl. rewrite Hget Hp.
    by destruct (readyState s). }
  split; [by rewrite Hc|]. split; [rewrite Hc; apply get_delete_eq|].
  split.
  { rewrite Hready. unfold ready_of; simpl. by rewrite lookup_alter decide_True // Hs. }
  intros w.
  assert (sent_of w std = sent_of w st) as Hsent by by apply sent_of_alter.
  assert (is_open w std = if decide (w = me) then false else is_open w st) as Hopen.
  { unfold is_open, ready_of; simpl. rewrite lookup_alter.
    destruct (decide (w = me)) as [->|Hne].
    - by rewrite decide_True // Hs.
    - by rewrite decide_False. }
  rewrite notify_disconnected_exact.
  - by apply keys_delete_NoDup, (wf_keys _ Hwf).
  - intros [k c'] [Hin _]%elem_of_delete. by destruct (wf_clients _ Hwf _ _ Hin).
  - rewrite Hsent Hopen. simpl. split.
    + intros Hne [Hreg Hopen']. rewrite decide_False //.
      rewrite bool_decide_eq_true_2; [by apply key_delete, conj, key_is_Some|].
      apply is_open_OPEN in Hopen'. by rewrite Hopen'.
    + intros Hcase.
      destruct (bool_decide (w ∈ JsMap.keys (JsMap.delete me (clients st)))) eqn:Hk;
        [|by rewrite app_nil_r].
      apply bool_decide_eq_true_1, key_delete in Hk as [Hne Hk].
      rewrite decide_False //. simpl.
      destruct (is_open w st) eqn:Ho; [|by rewrite app_nil_r].
      destruct Hcase as [?|Hnot]; [done|]. destruct Hnot.
      split; [by apply key_is_Some|by apply is_open_OPEN].
Qed.

Lemma departure_is_announced_once_witness :
  ∃ st', step (Close 2) two_peers = Ok st' ∧
    clients st' = JsMap.delete 2 (clients two_peers) ∧
    JsMap.get 2 (clients st') = None ∧ ready_of 2 st' = CLOSED ∧
    ∀ w,
      (w ≠ 2 → registered_open w two_peers →
         sent_of w st' = sent_of w two_peers
                         ++ [peer_disconnected_msg 2 (Some (Str "bob"))]) ∧
      (w = 2 ∨ ¬ registered_open w two_peers → sent_of w st' = sent_of w two_peers).
Proof.
  apply (departure_is_announced_once two_peers 2
           (Socket OPEN (Forwarding (Some (Str "bob")))
              [existing_peers_msg [Obj [("clientId", Num 1); ("username", Str "alice")]]])
           (Client 2 (Some (Str "bob")) 2)).
  - apply reachable_two_peers.
  - by vm_compute.
  - discriminate.
  - reflexivity.
  - reflexivity.
Defined.

(** X3: when a transport closes that has sent no frame yet, or that has
    no entry in the registry (its first frame was rejected before line 25
    stored anything), nobody is told: the listener ends normally, the
    registry is unchanged and no transport is sent anything. *)
Theorem unregistered_close_is_silent st me s :
  reachable st → sockets st !! me = Some s →
  on_message s = AwaitRegister ∨ JsMap.get me (clients st) = None →
  ∃ st', step (Close me) st = Ok st' ∧ clients st' = clients st ∧
         ∀ w, sent_of w st' = sent_of w st.
Proof.
  intros Hwf%reachable_wf Hs Hcase.
  assert (JsMap.get me (clients st) = None) as Hnone.
  { destruct Hcase as [Hl|Hnone]; [by eapply wf_unregistered|done]. }
  simpl. rewrite Hs. unfold on_close. simpl. rewrite Hnone.
  destruct (readyState s); eexists; (split; [done|]); split; try done.
  all: intros w; by apply sent_of_alter.
Qed.

Lemma unregistered_close_is_silent_witness :
  ∃ st', step (Close 2) alice_and_guest = Ok st' ∧
         clients st' = clients alice_and_guest ∧
         ∀ w, sent_of w st' = sent_of w alice_and_guest.
Proof.
  apply (unregistered_close_is_silent alice_and_guest 2 (Socket OPEN AwaitRegister [])).
  - exists [Connection; Connection; Message 1 (register_as "alice")]. by vm_compute.
  - by vm_compute.
  - by left.
Defined.

(** X4: when the ['close'] listener ends normally, the id is not in the
    registry, and a second run changes nothing and sends nothing. *)
Theorem removal_is_idempotent me st st' :
  on_close me st = Ok st' →
  JsMap.get me (clients st') = None ∧ on_close me st' = Ok st'.
Proof.
  intros Hclose.
  assert (JsMap.get me (clients st') = None) as Hnone.
  { unfold on_close in Hclose.
    destruct (JsMap.get me (clients st)) as [c|] eqn:Hget; [|by simplify_eq].
    destruct (printable_opt (username c)); [|done]. simplify_eq.
    destruct (notify_disconnected_only_sends me (username c)
                (with_clients (JsMap.delete me) st)) as (_ & -> & _).
    apply get_delete_eq. }
  split; [done|]. unfold on_close. by rewrite Hnone.
Qed.

Lemma removal_is_idempotent_witness :
  JsMap.get 2 (clients (state_of (on_close 2 two_peers))) = None ∧
  on_close 2 (state_of (on_close 2 two_peers)) = Ok (state_of (on_close 2 two_peers)).
Proof. apply (removal_is_idempotent 2 two_peers). reflexivity. Defined.

(** X27: a [register] frame whose user name cannot be written into the
    log line of line 32 is stored and then refused: the entry is in the
    registry, but nobody is sent anything, the transport is closed by the
    relay and has no listener.  When that transport emits ['close'], the
    log line of line 85 throws before the entry is deleted: the exception
    is caught by nobody, the entry stays in the registry and nobody is
    sent [peer-disconnected]. *)
Theorem unprintable_name_is_stored_and_fatal st me s data :
  reachable st →
  sockets st !! me = Some s → readyState s = OPEN → on_message s = AwaitRegister →
  get "type" data = Some (Str "register") →
  printable_opt (get "username" data) = false →
  ∃ st', step (Message me (Text data)) st = Ok st' ∧
    clients st' = clients st ++ [(me, Client me (get "username" data) me)] ∧
    sockets st' !! me = Some (Socket CLOSING NoListener (sent s)) ∧
    (∀ w, sent_of w st' = sent_of w st) ∧
    ∃ st'', step (Close me) st' = Uncaught TypeError st'' ∧
      clients st'' = clients st' ∧ ∀ w, sent_of w st'' = sent_of w st'.
Proof.
  intros Hwf%reachable_wf Hs Hr Hl Hty Hp.
  assert (JsMap.get me (clients st) = None) as Hfresh by (by eapply wf_unregistered).
  set (st0 := with_sockets (alter (set_listener NoListener) me) st).
  set (c := Client me (get "username" data) me).
  set (st' := ws_close me (with_clients (JsMap.set me c) st0)).
  assert (sockets st' !! me = Some (Socket CLOSING NoListener (sent s))) as Hme.
  { simpl. rewrite !lookup_alter_eq Hs /=. unfold socket_close. simpl. by rewrite Hr. }
  exists st'. split_and!.
  - simpl. unfold dispatch_message. rewrite Hs Hr Hl. unfold first_message. simpl.
    destruct data; try done. rewrite Hty. unfold register. by rewrite Hp.
  - simpl. by rewrite set_fresh.
  - done.
  - intros w. unfold st', ws_close, st0.
    rewrite sent_of_alter; [by intros [[] ? ?]|]. by apply sent_of_alter.
  - eexists. split_and!.
    + simpl. rewrite !lookup_alter_eq Hs /=. unfold socket_close. simpl. rewrite Hr.
      simpl. unfold on_close. simpl. rewrite get_set_eq. simpl. by rewrite Hp.
    + done.
    + intros w. by apply sent_of_alter.
Qed.

Lemma unprintable_name_is_stored_and_fatal_witness :
  ∃ st', step (Message 2 (register_with unprintable)) alice_and_guest = Ok st' ∧
    clients st' = clients alice_and_guest ++ [(2, Client 2 (Some unprintable) 2)] ∧
    sockets st' !! 2 = Some (Socket CLOSING NoListener []) ∧
    (∀ w, sent_of w st' = sent_of w alice_and_guest) ∧
    ∃ st'', step (Close 2) st' = Uncaught TypeError st'' ∧
      clients st'' = clients st' ∧ ∀ w, sent_of w st'' = sent_of w st'.
Proof.
  apply (unprintable_name_is_stored_and_fatal alice_and_guest 2
           (Socket OPEN AwaitRegister [])
           (Obj [("type", Str "register"); ("username", unprintable)])).
  - exists [Connection; Connection; Message 1 (register_as "alice")]. by vm_compute.
  - by vm_compute.
  - reflexivity.
  - reflexivity.
  - reflexivity.
  - reflexivity.
Defined.

(** *** What one step does to the registry, the listeners and the readiness *)

Lemma forward_message_sent me uname message st w :
  wf st →
  sent_of w (state_of (forward_message me uname message st)) = sent_of w st ∨
  registered_open w st.
Proof.
  intros Hwf. unfold forward_message.
  destruct (JSON_parse message) as [[| | | | |fields]|]; simpl; auto.
  destruct (truthy_opt _); [|auto].
  destruct (lookup_field "targetPeerId" (stamp me uname fields)) as [[| |T| | |]|];
    simpl; auto.
  destruct (JsMap.get T (clients st)) as [peer|] eqn:Hget; [|auto].
  destruct (wf_get _ _ _ Hwf Hget) as (Hws & _). rewrite Hws.
  destruct (is_open T st) eqn:Hopen; simpl; [|auto].
  destruct (decide (w = T)) as [->|Hne]; [right|left].
  - split; [by rewrite Hget|by apply is_open_OPEN].
  - by apply sent_of_ws_send_ne.
Qed.

Lemma register_sent_others me data st w :
  wf st → JsMap.get me (clients st) = None → w ≠ me →
  sent_of w (register me data st) = sent_of w st ∨ registered_open w st.
Proof.
  intros Hwf Hfresh Hne. unfold register.
  set (u := get "username" data).
  set (st1 := with_clients (JsMap.set me (Client me u me)) st).
  destruct (printable_opt u).
  2: { left. unfold ws_close. rewrite sent_of_alter; [by intros [[] ? ?]|done]. }
  unfold announce.
  set (st2 := if _ : bool then _ else st1).
  rewrite sent_of_alter //.
  assert (clients st2 = clients st ++ [(me, Client me u me)]) as Hc2.
  { subst st2. case_match; simpl; by rewrite set_fresh. }
  assert (sent_of w st2 = sent_of w st) as Hsent.
  { subst st2. case_match; [by rewrite sent_of_ws_send_ne|done]. }
  assert (is_open w st2 = is_open w st) as Hopen.
  { subst st2. case_match; [by rewrite is_open_ws_send|done]. }
  rewrite notify_new_peer_exact.
  - rewrite Hc2. unfold JsMap.keys. rewrite fmap_app. apply NoDup_app.
    split_and!; [apply (wf_keys _ Hwf)| |apply NoDup_singleton].
    intros k Hin ->%list_elem_of_singleton. by apply get_None_not_key in Hfresh.
  - rewrite Hc2. intros [k c] [Hin|Hin%list_elem_of_singleton]%elem_of_app.
    + by destruct (wf_clients _ Hwf _ _ Hin).
    + by simplify_eq.
  - rewrite Hsent Hopen.
    destruct (bool_decide (w ∈ JsMap.keys (clients st2))) eqn:Hk; simpl;
      [|left; by rewrite app_nil_r].
    destruct (negb (w =? me)); simpl; [|left; by rewrite app_nil_r].
    destruct (is_open w st) eqn:Ho; [|left; by rewrite app_nil_r].
    apply bool_decide_eq_true_1 in Hk. rewrite Hc2 in Hk.
    unfold JsMap.keys in Hk. rewrite fmap_app elem_of_app in Hk.
    destruct Hk as [Hk|Hk%list_elem_of_singleton]; [|done].
    right. split; [by apply key_is_Some|by apply is_open_OPEN].
Qed.

Lemma on_close_sent me st w :
  wf st →
  sent_of w (state_of (on_close me st)) = sent_of w st ∨
  (w ≠ me ∧ registered_open w st).
Proof.
  intros Hwf. unfold on_close. destruct (JsMap.get me (clients st)) as [c|]; [|auto].
  destruct (printable_opt (username c)); [|auto]. simpl.
  rewrite notify_disconnected_exact.
  - by apply keys_delete_NoDup, (wf_keys _ Hwf).
  - intros [k c'] [Hin _]%elem_of_delete. by destruct (wf_clients _ Hwf _ _ Hin).
  - simpl.
    destruct (bool_decide (w ∈ JsMap.keys (JsMap.delete me (clients st)))) eqn:Hk;
      simpl; [|left; by rewrite app_nil_r].
    destruct (is_open w (with_clients (JsMap.delete me) st)) eqn:Ho;
      [|left; by rewrite app_nil_r].
    apply bool_decide_eq_true_1, key_delete in Hk as [Hne Hk].
    right. split; [done|]. split; [by apply key_is_Some|by apply is_open_OPEN].
Qed.

(** The cases of a step, with the state each one leads to. *)
Lemma step_cases ev st :
  wf st →
  match ev with
  | Connection =>
      state_of (step ev st) = snd (on_connection st)
  | Message conn message =>
      (only_sends st (state_of (step ev st)) ∧
       ∀ w, sent_of w (state_of (step ev st)) = sent_of w st ∨
            registered_open w st) ∨
      ∃ s, sockets st !! conn = Some s ∧ on_message s = AwaitRegister ∧
           readyState s ≠ CLOSED ∧ JsMap.get conn (clients st) = None ∧
           let st0 := with_sockets (alter (set_listener NoListener) conn) st in
           wf st0 ∧
           (state_of (step ev st) = ws_close conn st0 ∨
            ∃ data, state_of (step ev st) = register conn data st0)
  | RemoteClosing conn => state_of (step ev st) = ws_close conn st
  | Close conn =>
      state_of (step ev st) = st ∨
      ∃ s, sockets st !! conn = Some s ∧ readyState s ≠ CLOSED ∧
           state_of (step ev st)
           = state_of (on_close conn (with_sockets (alter (set_ready CLOSED) conn) st))
  end.
Proof.
  intros Hwf. destruct ev as [|conn message|conn|conn]; simpl; [done| |done|].
  - unfold dispatch_message.
    assert (only_sends st st ∧
            ∀ w, sent_of w st = sent_of w st ∨ registered_open w st)
      as Hsame by (split; [apply only_sends_refl|auto]).
    destruct (sockets st !! conn) as [s|] eqn:Hs; [|by left].
    destruct (on_message s) as [|uname|] eqn:Hl.
    + assert (JsMap.get conn (clients st) = None) as Hfresh
        by (by eapply wf_unregistered).
      assert (∀ st0 : relay,
                 first_message conn message st0 = ws_close conn st0 ∨
                 ∃ data, first_message conn message st0 = register conn data st0)
        as Hfirst.
      { intros st0. unfold first_message. repeat case_match; eauto. }
      destruct (readyState s) eqn:Hr; [| | |by left].
      all: right; exists s; rewrite Hr.
      all: split_and!; try done; [by apply wf_alter_unregistered|apply Hfirst].
    + assert (only_sends st (state_of (forward_message conn uname message st)) ∧
              ∀ w, sent_of w (state_of (forward_message conn uname message st))
                   = sent_of w st ∨ registered_open w st) as Hfwd.
      { split; [apply forward_message_only_sends|].
        intros w. by apply forward_message_sent. }
      left. by destruct (readyState s).
    + left. by destruct (readyState s).
  - destruct (sockets st !! conn) as [s|] eqn:Hs; [|by left].
    destruct (readyState s) eqn:Hr; [| | |by left].
    all: right; exists s; rewrite Hr; by split_and!.
Qed.

Local Abbreviation lis st w := (on_message <$> sockets st !! w).

Lemma live_forwarder_alt w st :
  live_forwarder w st ↔
  (∃ u, lis st w = Some (Forwarding u)) ∧ ready_of w st ≠ CLOSED.
Proof.
  unfold live_forwarder, ready_of. destruct (sockets st !! w) as [s|]; simpl.
  - split.
    + intros (s' & [= <-] & [u Hu] & Hr). split; [exists u; by rewrite Hu|done].
    + intros [[u [= Hu]] Hr]. exists s. split_and!; eauto.
  - split; [by intros (s' & [=] & _)|by intros [[u [=]] _]].
Qed.

Lemma live_forwarder_same w st st' :
  lis st' w = lis st w → (ready_of w st' = CLOSED ↔ ready_of w st = CLOSED) →
  live_forwarder w st' ↔ live_forwarder w st.
Proof. intros Hl Hr. rewrite !live_forwarder_alt Hl. naive_solver. Qed.

(** What the invariant says of a registry entry, by its user name. *)
Lemma wf_entry st w c :
  wf st → JsMap.get w (clients st) = Some c →
  if printable_opt (username c)
  then lis st w = Some (Forwarding (username c))
  else lis st w = Some NoListener ∧ ready_of w st ≠ OPEN.
Proof.
  intros Hwf Hc. destruct (wf_get _ _ _ Hwf Hc) as (_ & _ & _ & s & Hs & Hl).
  unfold ready_of. rewrite Hs. simpl.
  destruct Hl as [[-> ->]|(-> & -> & ?)]; done.
Qed.

(** A peer of the registry whose transport is open has the forwarding
    listener. *)
Lemma registered_open_forwarder st w :
  wf st → registered_open w st → ∃ u, lis st w = Some (Forwarding u).
Proof.
  intros Hwf [[c Hc] Hopen]. pose proof (wf_entry _ _ _ Hwf Hc) as Hentry.
  destruct (printable_opt (username c)); [eauto|]. by destruct Hentry.
Qed.

Lemma on_close_get me st w :
  w ≠ me → JsMap.get w (clients (state_of (on_close me st))) = JsMap.get w (clients st).
Proof.
  intros Hne. unfold on_close. destruct (JsMap.get me (clients st)) as [c|] eqn:Hget.
  - destruct (printable_opt (username c)); [|done]. simpl.
    destruct (notify_disconnected_only_sends me (username c)
                (with_clients (JsMap.delete me) st)) as (_ & -> & _). simpl.
    by apply get_delete_ne.
  - done.
Qed.

Lemma on_close_get_self me st :
  JsMap.get me (clients (state_of (on_close me st)))
  = match JsMap.get me (clients st) with
    | Some c => if printable_opt (username c) then None else Some c
    | None => None
    end.
Proof.
  unfold on_close. destruct (JsMap.get me (clients st)) as [c|] eqn:Hget; [|done].
  destruct (printable_opt (username c)); [|done]. simpl.
  destruct (notify_disconnected_only_sends me (username c)
              (with_clients (JsMap.delete me) st)) as (_ & -> & _). simpl.
  apply get_delete_eq.
Qed.

Lemma alter_listener_frame conn l st w :
  (w ≠ conn → lis (with_sockets (alter (set_listener l) conn) st) w = lis st w) ∧
  ready_of w (with_sockets (alter (set_listener l) conn) st) = ready_of w st ∧
  sent_of w (with_sockets (alter (set_listener l) conn) st) = sent_of w st.
Proof.
  split_and!.
  - intros Hne. simpl. by rewrite lookup_alter_ne.
  - unfold ready_of; simpl. rewrite lookup_alter. case_decide; [subst|done].
    by destruct (sockets st !! w).
  - by apply sent_of_alter.
Qed.

Lemma ws_close_frame conn st w :
  lis (ws_close conn st) w = lis st w ∧
  (ready_of w (ws_close conn st) = CLOSED ↔ ready_of w st = CLOSED) ∧
  sent_of w (ws_close conn st) = sent_of w st.
Proof.
  split_and!.
  - simpl. rewrite lookup_alter. case_decide; [subst|done].
    by destruct (sockets st !! w) as [[[] ? ?]|].
  - unfold ready_of; simpl. rewrite lookup_alter. case_decide; [subst|done].
    by destruct (sockets st !! w) as [[[] ? ?]|].
  - apply sent_of_alter. by intros [[] ? ?].
Qed.

Lemma set_ready_frame conn st w :
  lis (with_sockets (alter (set_ready CLOSED) conn) st) w = lis st w ∧
  (w ≠ conn →
   ready_of w (with_sockets (alter (set_ready CLOSED) conn) st) = ready_of w st) ∧
  sent_of w (with_sockets (alter (set_ready CLOSED) conn) st) = sent_of w st.
Proof.
  split_and!.
  - simpl. rewrite lookup_alter. case_decide; [subst|done].
    by destruct (sockets st !! w).
  - intros Hne. unfold ready_of; simpl. by rewrite lookup_alter_ne.
  - by apply sent_of_alter.
Qed.

(** What a [register] frame does to the listeners and the readiness. *)
Lemma register_listener conn data st w :
  lis (register conn data st) w
  = (if decide (w = conn)
     then (λ l, if printable_opt (get "username" data)
                then Forwarding (get "username" data) else l) <$> lis st w
     else lis st w) ∧
  (ready_of w (register conn data st) = CLOSED ↔ ready_of w st = CLOSED).
Proof.
  destruct (register_frame conn data st) as (_ & _ & Hr & Hl & Hyes & Hno).
  destruct (decide (w = conn)) as [->|Hne]; [|by rewrite Hr // Hl].
  destruct (printable_opt (get "username" data)) eqn:Hp.
  - destruct (Hyes eq_refl) as [-> ->]. split; [|done].
    by destruct (sockets st !! conn).
  - rewrite (Hno eq_refl).
    destruct (ws_close_frame conn
                (with_clients (JsMap.set conn
                   (Client conn (get "username" data) conn)) st) conn)
      as (-> & -> & _).
    split; [|done]. simpl. by destruct (sockets st !! conn).
Qed.

(** Listeners change only from the pending registration. *)
Lemma step_listener ev st w l :
  wf st → lis st w = Some l → l ≠ AwaitRegister →
  lis (state_of (step ev st)) w = Some l.
Proof.
  intros Hwf Hw Hl. pose proof (step_cases ev st Hwf) as Hcases.
  destruct ev as [|conn message|conn|conn].
  - rewrite Hcases. simpl. rewrite lookup_insert_ne; [|done].
    intros <-. destruct (sockets st !! nextClientId st) as [s|] eqn:Hs; [|done].
    apply (wf_sockets _ Hwf) in Hs. lia.
  - destruct Hcases as [[(_ & _ & _ & Hlis) _]|(s & Hs & Hs' & _ & _ & Hwf0 & Hst')].
    { by rewrite Hlis. }
    assert (w ≠ conn) as Hne.
    { intros ->. rewrite Hs /= Hs' in Hw. by simplify_eq. }
    destruct Hst' as [->|[data ->]].
    + destruct (ws_close_frame conn
                  (with_sockets (alter (set_listener NoListener) conn) st) w) as [-> _].
      by destruct (alter_listener_frame conn NoListener st w) as [-> _].
    + destruct (register_listener conn data
                  (with_sockets (alter (set_listener NoListener) conn) st) w)
        as [-> _].
      rewrite decide_False //.
      by destruct (alter_listener_frame conn NoListener st w) as [-> _].
  - rewrite Hcases. by destruct (ws_close_frame conn st w) as [-> _].
  - destruct Hcases as [->|(s & _ & _ & ->)]; [done|].
    destruct (on_close_frame conn (with_sockets (alter (set_ready CLOSED) conn) st))
      as (_ & _ & ->).
    by destruct (set_ready_frame conn st w) as [-> _].
Qed.

(** Nothing but its own ['close'] takes a peer out of the registry. *)
Lemma step_registered ev st me c :
  wf st → JsMap.get me (clients st) = Some c → ev ≠ Close me →
  JsMap.get me (clients (state_of (step ev st))) = Some c.
Proof.
  intros Hwf Hme Hev. pose proof (step_cases ev st Hwf) as Hcases.
  destruct ev as [|conn message|conn|conn].
  - by rewrite Hcases.
  - destruct Hcases as [[(_ & -> & _) _]|(s & _ & _ & _ & Hfresh & _ & Hst')]; [done|].
    destruct Hst' as [->|[data ->]]; [done|].
    destruct (register_frame conn data
                (with_sockets (alter (set_listener NoListener) conn) st))
      as (_ & -> & _).
    simpl. rewrite get_set_ne; [congruence|done].
  - by rewrite Hcases.
  - destruct Hcases as [->|(s & _ & _ & ->)]; [done|].
    rewrite on_close_get; [congruence|done].
Qed.

(** A transport without listener keeps its place, in the registry or out
    of it. *)
Lemma step_frozen ev st me :
  wf st → lis st me = Some NoListener →
  JsMap.get me (clients (state_of (step ev st))) = JsMap.get me (clients st).
Proof.
  intros Hwf Hme. pose proof (step_cases ev st Hwf) as Hcases.
  destruct ev as [|conn message|conn|conn].
  - by rewrite Hcases.
  - destruct Hcases as [[(_ & -> & _) _]|(s & Hs & Hl & _ & Hfresh & _ & Hst')]; [done|].
    destruct Hst' as [->|[data ->]]; [done|].
    destruct (register_frame conn data
                (with_sockets (alter (set_listener NoListener) conn) st))
      as (_ & -> & _).
    simpl. rewrite get_set_ne; [|done].
    intros ->. rewrite Hs /= Hl in Hme. done.
  - by rewrite Hcases.
  - destruct Hcases as [->|(s & _ & _ & ->)]; [done|].
    destruct (decide (me = conn)) as [<-|Hne]; [|by rewrite on_close_get].
    rewrite on_close_get_self. simpl.
    destruct (JsMap.get me (clients st)) as [c|] eqn:Hc; [|done].
    pose proof (wf_entry _ _ _ Hwf Hc) as Hentry.
    destruct (printable_opt (username c)); [|done]. congruence.
Qed.

Lemma registry_exact_step ev st :
  wf st → registry_exact st → registry_exact (state_of (step ev st)).
Proof.
  intros Hwf Hexact w. pose proof (step_cases ev st Hwf) as Hcases.
  destruct ev as [|conn message|conn|conn].
  - rewrite Hcases. simpl. destruct (decide (w = nextClientId st)) as [->|Hne].
    + assert (sockets st !! nextClientId st = None) as Hnone.
      { destruct (sockets st !! nextClientId st) as [s|] eqn:Hs; [|done].
        apply (wf_sockets _ Hwf) in Hs. lia. }
      rewrite -Hexact !live_forwarder_alt. simpl.
      rewrite lookup_insert_eq Hnone. simpl. naive_solver.
    + rewrite -Hexact. apply live_forwarder_same.
      * simpl. by rewrite lookup_insert_ne.
      * unfold ready_of; simpl. by rewrite lookup_insert_ne.
  - destruct Hcases as [[(_ & Hc & Hr & Hlis) _]|(s & Hs & Hl & Hr & Hfresh & Hwf0 & Hst')].
    { rewrite Hc -Hexact. apply live_forwarder_same; [done|by rewrite Hr]. }
    set (st0 := with_sockets (alter (set_listener NoListener) conn) st) in *.
    destruct (alter_listener_frame conn NoListener st w) as (Hl0 & Hr0 & _).
    destruct Hst' as [->|[data ->]].
    + destruct (ws_close_frame conn st0 w) as (Hl1 & Hr1 & _).
      change (clients (ws_close conn st0)) with (clients st).
      destruct (decide (w = conn)) as [->|Hne].
      * rewrite Hfresh live_forwarder_alt Hl1. simpl.
        rewrite lookup_alter_eq Hs. simpl.
        split; [by intros [[u [=]] _]|by intros (? & [=] & _)].
      * rewrite -Hexact. apply live_forwarder_same.
        -- by rewrite Hl1 Hl0.
        -- by rewrite Hr1 -/st0 Hr0.
    + destruct (register_frame conn data st0) as (_ & Hc & _).
      pose proof (register_listener conn data st0 w) as [Hlis Hr1].
      rewrite Hc. change (clients st0) with (clients st).
      destruct (decide (w = conn)) as [->|Hne].
      * rewrite get_set_eq live_forwarder_alt Hlis.
        simpl. rewrite lookup_alter_eq Hs. simpl.
        assert (ready_of conn (register conn data st0) ≠ CLOSED) as Hlive.
        { rewrite Hr1 Hr0. unfold ready_of. by rewrite Hs. }
        destruct (printable_opt (get "username" data)) eqn:Hp.
        -- split; [by eexists|]. intros _. split; [by eexists|done].
        -- split; [by intros [[u [=]] _]|]. intros (c & [= <-] & Hc'). simpl in Hc'.
           congruence.
      * rewrite get_set_ne // -Hexact. apply live_forwarder_same.
        -- by rewrite Hlis Hl0.
        -- by rewrite Hr1 -/st0 Hr0.
  - rewrite Hcases. change (clients (ws_close conn st)) with (clients st).
    rewrite -Hexact.
    destruct (ws_close_frame conn st w) as (? & ? & _).
    by apply live_forwarder_same.
  - destruct Hcases as [->|(s & Hs & Hr & ->)]; [done|].
    set (stc := with_sockets (alter (set_ready CLOSED) conn) st).
    destruct (on_close_frame conn stc) as (_ & Hr1 & Hl1).
    destruct (set_ready_frame conn st w) as (Hl0 & Hr0 & _).
    destruct (decide (w = conn)) as [->|Hne].
    + rewrite on_close_get_self live_forwarder_alt Hr1. unfold ready_of; simpl.
      rewrite lookup_alter_eq Hs. simpl.
      split; [by intros [_ ?]|]. intros (c & Hc & Hp).
      destruct (JsMap.get conn (clients st)) as [c'|]; [|done].
      destruct (printable_opt (username c')) eqn:Hp'; [done|]. congruence.
    + rewrite on_close_get //. change (clients stc) with (clients st).
      rewrite -Hexact. apply live_forwarder_same.
      * by rewrite Hl1 Hl0.
      * by rewrite Hr1 Hr0.
Qed.

Lemma unregistered_silent_alt st :
  unregistered_silent st ↔
  ∀ w, (∀ u, lis st w ≠ Some (Forwarding u)) → sent_of w st = [].
Proof.
  unfold unregistered_silent, sent_of. split.
  - intros H w Hw. destruct (sockets st !! w) as [s|] eqn:Hs; [|done].
    apply (H w s Hs). intros u Hu. apply (Hw u). simpl. by rewrite Hu.
  - intros H w s Hs Hl. specialize (H w). rewrite Hs in H. apply H.
    intros u [= Hu]. by apply (Hl u).
Qed.

Lemma unregistered_silent_step ev st :
  wf st → unregistered_silent st → unregistered_silent (state_of (step ev st)).
Proof.
  rewrite !unregistered_silent_alt.
  intros Hwf Hsilent w Hw. pose proof (step_cases ev st Hwf) as Hcases.
  assert (∀ st0 : relay, wf st0 → registered_open w st0 →
            (∀ u, lis st0 w ≠ Some (Forwarding u)) → False) as Hreg.
  { intros st0 Hwf0 [u Hu]%registered_open_forwarder Hno; [|done]. by apply (Hno u). }
  destruct ev as [|conn message|conn|conn].
  - rewrite Hcases in Hw |- *. unfold sent_of. simpl in *.
    destruct (decide (w = nextClientId st)) as [->|Hne].
    + by rewrite lookup_insert_eq.
    + rewrite lookup_insert_ne // in Hw. rewrite lookup_insert_ne //.
      by apply Hsilent.
  - destruct Hcases as [[(_ & _ & _ & Hlis) Hsent]|(s & Hs & Hl & Hr & Hfresh & Hwf0 & Hst')].
    { rewrite Hlis in Hw. destruct (Hsent w) as [->|Hin]; [by apply Hsilent|].
      by destruct (Hreg st). }
    set (st0 := with_sockets (alter (set_listener NoListener) conn) st) in *.
    destruct (alter_listener_frame conn NoListener st w) as (Hl0 & Hr0 & Hs0).
    destruct Hst' as [Hst'|[data Hst']]; rewrite Hst' in Hw |- *.
    + destruct (ws_close_frame conn st0 w) as (Hl1 & _ & ->). rewrite Hs0.
      apply Hsilent. intros u Hu. destruct (decide (w = conn)) as [->|Hne].
      * rewrite Hs /= Hl in Hu. done.
      * apply (Hw u). by rewrite Hl1 Hl0.
    + destruct (register_listener conn data st0 w) as [Hlis _].
      destruct (decide (w = conn)) as [->|Hne].
      * destruct (printable_opt (get "username" data)) eqn:Hp.
        { specialize (Hw (get "username" data)).
          rewrite Hlis in Hw. destruct Hw. simpl.
          by rewrite lookup_alter_eq Hs. }
        destruct (register_frame conn data st0) as (_ & _ & _ & _ & _ & Hno).
        rewrite (Hno Hp). unfold ws_close.
        rewrite sent_of_alter; [by intros [[] ? ?]|].
        change (sent_of conn st0 = []). rewrite Hs0. apply Hsilent.
        intros u. by rewrite Hs /= Hl.
      * assert (∀ u, lis st w ≠ Some (Forwarding u)) as Hw0.
        { intros u Hu. apply (Hw u). by rewrite Hlis Hl0. }
        destruct (register_sent_others conn data st0 w Hwf0 Hfresh Hne) as [->|Hin].
        -- rewrite Hs0. by apply Hsilent.
        -- destruct (Hreg st0 Hwf0 Hin). intros u. by rewrite Hl0.
  - rewrite Hcases in Hw |- *. destruct (ws_close_frame conn st w) as (Hl1 & _ & ->).
    apply Hsilent. intros u. rewrite -Hl1. apply Hw.
  - destruct Hcases as [Hst'|(s & Hs & Hr & Hst')]; rewrite Hst' in Hw |- *;
      [by apply Hsilent|].
    set (stc := with_sockets (alter (set_ready CLOSED) conn) st) in *.
    destruct (on_close_frame conn stc) as (_ & _ & Hl1).
    destruct (set_ready_frame conn st w) as (Hl0 & _ & Hs0).
    assert (∀ u, lis st w ≠ Some (Forwarding u)) as Hw0.
    { intros u Hu. apply (Hw u). by rewrite Hl1 Hl0. }
    assert (wf stc) as Hwfc
      by (apply wf_alter; [apply set_ready_keeps|apply set_ready_shut|done]).
    destruct (on_close_sent conn stc w Hwfc) as [->|[_ Hin]].
    + rewrite Hs0. by apply Hsilent.
    + destruct (Hreg stc Hwfc Hin). intros u. by rewrite Hl0.
Qed.

Lemma run_registry_exact evs st :
  wf st → registry_exact st → registry_exact (state_of (run evs st)).
Proof.
  revert st. induction evs as [|ev evs IH]; intros st Hwf Hexact; simpl; [done|].
  pose proof (step_wf ev st Hwf) as Hwf'.
  pose proof (registry_exact_step ev st Hwf Hexact) as Hexact'.
  destruct (step ev st); simpl in *; auto.
Qed.

Lemma run_unregistered_silent evs st :
  wf st → unregistered_silent st → unregistered_silent (state_of (run evs st)).
Proof.
  revert st. induction evs as [|ev evs IH]; intros st Hwf Hsilent; simpl; [done|].
  pose proof (step_wf ev st Hwf) as Hwf'.
  pose proof (unregistered_silent_step ev st Hwf Hsilent) as Hsilent'.
  destruct (step ev st); simpl in *; auto.
Qed.

Lemma run_listener evs st w l :
  wf st → lis st w = Some l → l ≠ AwaitRegister →
  lis (state_of (run evs st)) w = Some l.
Proof.
  revert st. induction evs as [|ev evs IH]; intros st Hwf Hw Hl; simpl; [done|].
  pose proof (step_wf ev st Hwf) as Hwf'.
  pose proof (step_listener ev st w l Hwf Hw Hl) as Hw'.
  destruct (step ev st); simpl in *; auto.
Qed.

Lemma run_frozen evs st me :
  wf st → lis st me = Some NoListener →
  JsMap.get me (clients (state_of (run evs st))) = JsMap.get me (clients st).
Proof.
  revert st. induction evs as [|ev evs IH]; intros st Hwf Hme; simpl; [done|].
  pose proof (step_wf ev st Hwf) as Hwf'.
  pose proof (step_listener ev st me NoListener Hwf Hme) as Hme'.
  pose proof (step_frozen ev st me Hwf Hme) as Hget.
  destruct (step ev st); simpl in *; [|done].
  rewrite IH; auto.
Qed.

Lemma unregistered_silent_initial : unregistered_silent initial.
Proof. intros w s Hs. by rewrite lookup_empty in Hs. Qed.

(** X5: in every state the relay can reach, the peers of the registry
    whose user name can be printed are exactly the transports that have the
    forwarding listener and whose ['close'] has not been emitted.  Any
    other entry was left by a [register] frame whose user name made line 32
    throw: its transport has no listener and is not open. *)
Theorem registry_is_the_live_forwarders (evs : list event) w :
  (live_forwarder w (state_of (run evs initial)) ↔
   ∃ c, JsMap.get w (clients (state_of (run evs initial))) = Some c ∧
        printable_opt (username c) = true) ∧
  (∀ c, JsMap.get w (clients (state_of (run evs initial))) = Some c →
        printable_opt (username c) = false →
        ∃ s, sockets (state_of (run evs initial)) !! w = Some s ∧
             on_message s = NoListener ∧ readyState s ≠ OPEN).
Proof.
  split.
  - apply run_registry_exact; [apply wf_initial|].
    intros w'. simpl. split; [|by intros (? & [=] & _)].
    intros (s & Hs & _). by rewrite lookup_empty in Hs.
  - intros c Hc Hp.
    destruct (wf_get _ _ _ (run_wf evs initial wf_initial) Hc)
      as (_ & _ & _ & s & Hs & Hl).
    exists s. split; [done|]. destruct Hl as [[_ ?]|(? & _ & ?)]; [congruence|done].
Qed.

(** X6: a transport that has not registered is never sent anything: no
    [existing-peers], no [new-peer], no [peer-disconnected], no forwarded
    envelope. *)
Theorem unregistered_transport_gets_nothing (evs : list event) :
  unregistered_silent (state_of (run evs initial)).
Proof.
  apply run_unregistered_silent; [apply wf_initial|apply unregistered_silent_initial].
Qed.

(** X7: a registered peer stays in the registry, with the user name it
    registered with, whatever the relay receives from it or from others,
    until the ['close'] of its own transport. *)
Theorem registered_until_own_close st me c (evs : list event) :
  reachable st → JsMap.get me (clients st) = Some c → Close me ∉ evs →
  JsMap.get me (clients (state_of (run evs st))) = Some c.
Proof.
  intros Hwf%reachable_wf. revert st Hwf.
  induction evs as [|ev evs IH]; intros st Hwf Hme Hno; simpl; [done|].
  apply not_elem_of_cons in Hno as [Hev Hno].
  pose proof (step_wf ev st Hwf) as Hwf'.
  pose proof (step_registered ev st me c Hwf Hme) as Hme'.
  destruct (step ev st); simpl in *; auto.
Qed.

Lemma registered_until_own_close_witness :
  JsMap.get 1 (clients (state_of
      (run [Message 1 (register_as "mallory"); Message 2 (register_as "alice");
            Close 2; Connection] two_peers)))
  = Some (Client 1 (Some (Str "alice")) 1).
Proof.
  apply (registered_until_own_close two_peers 1 (Client 1 (Some (Str "alice")) 1)).
  - apply reachable_two_peers.
  - reflexivity.
  - intros Hin. repeat (apply elem_of_cons in Hin as [Hin|Hin]; [discriminate|]).
    by apply elem_of_nil in Hin.
Defined.

(** X8: a transport whose first frame did not complete a registration has
    lost its listener for good.  Whatever arrives later, it gets no
    listener, it is never sent anything, and its place does not change: out
    of the registry when the frame was rejected, in it when line 32 threw
    after the entry was stored. *)
Theorem transport_without_listener_is_frozen st me s (evs : list event) :
  reachable st → sockets st !! me = Some s → on_message s = NoListener →
  on_message <$> sockets (state_of (run evs st)) !! me = Some NoListener ∧
  JsMap.get me (clients (state_of (run evs st))) = JsMap.get me (clients st) ∧
  sent_of me (state_of (run evs st)) = [].
Proof.
  intros Hreach Hs Hl. pose proof (reachable_wf _ Hreach) as Hwf.
  assert (unregistered_silent st) as Hsilent.
  { destruct Hreach as [evs0 Hrun].
    pose proof (run_unregistered_silent evs0 initial wf_initial
                  unregistered_silent_initial) as H.
    by rewrite Hrun in H. }
  assert (lis st me = Some NoListener) as Hme by (by rewrite Hs /= Hl).
  assert (lis (state_of (run evs st)) me = Some NoListener) as Hfinal
    by (by apply run_listener).
  pose proof (run_unregistered_silent evs st Hwf Hsilent) as Hsilent'.
  split_and!; [done|by apply run_frozen|].
  destruct (sockets (state_of (run evs st)) !! me) as [s'|] eqn:Hs'; [|done].
  simpl in Hfinal. simplify_eq.
  unfold sent_of. rewrite Hs'. apply (Hsilent' me s' Hs').
  intros u. by rewrite Hfinal.
Qed.

Lemma transport_without_listener_is_frozen_witness :
  on_message <$> sockets (state_of (run [Message 2 (register_as "eve"); Connection;
                                         Message 3 (register_as "bob")]
                                        half_registered)) !! 2 = Some NoListener ∧
  JsMap.get 2 (clients (state_of (run [Message 2 (register_as "eve"); Connection;
                                        Message 3 (register_as "bob")]
                                       half_registered)))
  = JsMap.get 2 (clients half_registered) ∧
  sent_of 2 (state_of (run [Message 2 (register_as "eve"); Connection;
                            Message 3 (register_as "bob")] half_registered)) = [].
Proof.
  apply (transport_without_listener_is_frozen half_registered 2
           (Socket CLOSING NoListener [])).
  - exists [Connection; Connection; Message 1 (register_as "alice");
            Message 2 (register_with unprintable)]. by vm_compute.
  - by vm_compute.
  - reflexivity.
Defined.

(** *** What the forwarding listener does to a frame *)

Lemma lookup_remove_field_eq k fields : lookup_field k (remove_field k fields) = None.
Proof.
  unfold remove_field. induction fields as [|[k' v'] rest IH]; simpl; [done|].
  destruct (String.eqb k k') eqn:E; simpl; [done|]. by rewrite E.
Qed.

(** X9: whatever a client put in its envelope, the forwarded envelope
    carries the relay's own record of the sender: [senderId] is the id of
    the sending connection and [username] is the name it registered with
    (absent if it registered without one); every other property is
    forwarded as it was. *)
Theorem stamp_overrides_sender_only me uname fields :
  lookup_field "senderId" (stamp me uname fields) = Some (Num me) ∧
  lookup_field "username" (stamp me uname fields) = uname ∧
  ∀ k, k ≠ "senderId" → k ≠ "username" →
       lookup_field k (stamp me uname fields) = lookup_field k fields.
Proof.
  split_and!.
  - apply lookup_stamp_senderId.
  - unfold stamp, assign. destruct uname as [u|].
    + apply lookup_set_field_eq.
    + apply lookup_remove_field_eq.
  - intros k H1 H2. unfold stamp. rewrite lookup_assign_ne; [congruence|].
    apply lookup_set_field_ne. congruence.
Qed.

(** X10: a frame of a registered peer makes the forwarding listener throw
    exactly when it is no JSON text or is the JSON text [null]; the relay
    state is then what it was.  Every other frame, whatever its shape or
    its [targetPeerId], is handled normally. *)
Theorem forwarding_throws_iff st me s uname message :
  sockets st !! me = Some s → readyState s ≠ CLOSED →
  on_message s = Forwarding uname →
  ((∃ e st', step (Message me message) st = Uncaught e st') ↔
   (JSON_parse message = None ∨ JSON_parse message = Some Null)) ∧
  (∀ e st', step (Message me message) st = Uncaught e st' → st' = st).
Proof.
  intros Hs Hr Hl. rewrite (dispatch_forwarding _ _ _ _ _ Hs Hr Hl).
  unfold forward_message.
  destruct (JSON_parse message) as [[| | | | |fields]|]; simpl.
  1,7: split; [split; [auto|intros _; eauto]|by intros e st' [= _ ->]].
  1-4: split; [split; [by intros (? & ? & [=])|by intros [[=]|[=]]]|by intros ? ? [=]].
  repeat case_match.
  all: split; [split; [by intros (? & ? & [=])|by intros [[=]|[=]]]|by intros ? ? [=]].
Qed.

Lemma forwarding_throws_iff_witness :
  ((∃ e st', step (Message 1 (Text Null)) two_peers = Uncaught e st') ↔
   (JSON_parse (Text Null) = None ∨ JSON_parse (Text Null) = Some Null)) ∧
  (∀ e st', step (Message 1 (Text Null)) two_peers = Uncaught e st' → st' = two_peers).
Proof.
  apply (forwarding_throws_iff two_peers 1
           (Socket OPEN (Forwarding (Some (Str "alice")))
              [new_peer_msg 2 (Some (Str "bob"))])
           (Some (Str "alice")) (Text Null)).
  - by vm_compute.
  - discriminate.
  - reflexivity.
Defined.

End RelayLifecycle.

(** ** The client: sessions and the fan-out *)

Module ClientSessions.
Import Json Client MapProofs ClientProofs.

Section AnyLibrary.
Context `{rtc : RTC}.

Lemma set_set {V} k (v1 v2 : V) m : JsMap.set k v2 (JsMap.set k v1 m) = JsMap.set k v2 m.
Proof.
  induction m as [|[k' v'] rest IH]; simpl.
  - by rewrite Z.eqb_refl.
  - destruct (k =? k') eqn:E; simpl; [by rewrite Z.eqb_refl|].
    by rewrite E IH.
Qed.

Lemma send_to_open_exact msg chans (st : state) :
  send_to_open msg chans st
  = Returned tt st ((λ p, ChannelSend p msg) <$> open_channels chans).
Proof.
  induction chans as [|[p ch] rest IH]; simpl; [done|].
  unfold bind. rewrite /open_channels /= /is_open_channel /=.
  destruct (ch_readyState ch); simpl; by rewrite IH.
Qed.

(** X11: a click sends the chat message once on every data channel that
    is open, in the order of [dataChannels], and on no other; it puts
    nothing on the relay socket and leaves the client state as it was.  An
    empty text sends nothing. *)
Theorem chat_goes_to_open_channels_only message (st : state) :
  sendMessage message st
  = Returned tt st
      (if String.eqb message "" then []
       else (λ p, ChannelSend p (Obj [("message", Str message);
                                       ("senderId", id_value (myPeerId st));
                                       ("username", Str (username st))]))
            <$> open_channels (dataChannels st)).
Proof.
  unfold sendMessage. destruct (String.eqb message ""); [done|].
  unfold bind, read. by rewrite send_to_open_exact.
Qed.

Ltac run_handler :=
  unfold onmessage, handleOffer, handleAnswer, handleIceCandidate,
    handlePeerDisconnection, createPeerConnection, setupDataChannel, call, call_,
    try_catch, bind, await, read, modify, emit, log, ws_send, ret, set_connection,
    set_channels, set_usernames, delete_connection, set_myPeerId; simpl.

(** X12: [createPeerConnection] as initiator records the handle and a
    connecting data channel for the peer, and sends the relay one offer
    aimed at that peer, after the local description is set.  If the library
    refuses to make the offer or to set it, the handler throws, no offer is
    sent, and the handle and the channel stay recorded.  As responder it
    records a handle that accepts a remote channel and sends nothing. *)
Theorem initiator_sends_one_offer (st : state) p :
  match createOffer (createDataChannel RTCPeerConnection) with
  | Resolved (offer, h1) =>
      match setLocalDescription (Some offer) h1 with
      | Resolved h2 =>
          createPeerConnection p true st
          = Returned (Connection h2 false)
              (with_records (JsMap.set p (Connection h2 false) (peerConnections st))
                            (JsMap.set p (Channel connecting) (dataChannels st))
                            (peerUsernames st) st)
              [WsSend (offer_frame p offer)]
      | Rejected msg =>
          createPeerConnection p true st
          = Threw msg
              (with_records (JsMap.set p (Connection h1 false) (peerConnections st))
                            (JsMap.set p (Channel connecting) (dataChannels st))
                            (peerUsernames st) st) []
      end
  | Rejected msg =>
      createPeerConnection p true st
      = Threw msg
          (with_records
             (JsMap.set p (Connection (createDataChannel RTCPeerConnection) false)
                        (peerConnections st))
             (JsMap.set p (Channel connecting) (dataChannels st))
             (peerUsernames st) st) []
  end ∧
  createPeerConnection p false st
  = Returned (Connection RTCPeerConnection true)
      (with_records (JsMap.set p (Connection RTCPeerConnection true) (peerConnections st))
                    (dataChannels st) (peerUsernames st) st) [].
Proof.
  split.
  - run_handler.
    destruct (createOffer (createDataChannel RTCPeerConnection)) as [[offer h1]|msg];
      simpl; [|by rewrite /with_records !set_set].
    destruct (setLocalDescription (Some offer) h1) as [h2|msg]; simpl;
      by rewrite /with_records !set_set.
  - run_handler. by rewrite /with_records !set_set.
Qed.

(** X13: an offer is answered on the handle already kept for its sender
    (a new responder handle only if there is none): when the library
    accepts the offer, makes the answer and sets it, the client sends the
    relay exactly one answer, aimed at the sender of the offer, and the map
    holds the handle as the three calls left it. *)
Theorem offer_is_answered_once (st : state) sender offer h1 answer h2 h3 :
  let c0 := match JsMap.get sender (peerConnections st) with
            | Some c => c
            | None => Connection RTCPeerConnection true
            end in
  setRemoteDescription offer (handle c0) = Resolved h1 →
  createAnswer h1 = Resolved (answer, h2) →
  setLocalDescription (Some answer) h2 = Resolved h3 →
  handleOffer sender offer st
  = Returned tt
      (with_records (JsMap.set sender (Connection h3 (ondatachannel c0))
                               (peerConnections st))
                    (dataChannels st) (peerUsernames st) st)
      [WsSend (answer_frame sender answer)].
Proof.
  intros c0 H1 H2 H3. subst c0. run_handler.
  destruct (JsMap.get sender (peerConnections st)) as [c|] eqn:Hget; simpl in *.
  - rewrite H1 /= H2 /= H3 /=. by rewrite /with_records !set_set.
  - rewrite H1 /= H2 /= H3 /=. by rewrite /with_records !set_set.
Qed.

(** X14: an answer or a candidate whose sender has no connection handle is
    dropped: the three maps are unchanged and the logging callback sees the
    debug line of the message only, no error. *)
Theorem unknown_sender_is_dropped (st : state) sender payload :
  JsMap.get sender (peerConnections st) = None →
  ∀ data, data = Answer sender payload ∨ data = IceCandidate sender payload →
    ∃ st', onmessage data st = Returned tt st' [Log debug (Received data)] ∧
           peerConnections st' = peerConnections st ∧
           dataChannels st' = dataChannels st ∧
           peerUsernames st' = peerUsernames st.
Proof.
  intros Hget data [-> | ->]; run_handler.
  all: destruct (negb (truthy_id (myPeerId st)) && negb (sender =? 0)); simpl.
  all: rewrite Hget; by eexists.
Qed.

Lemma createPeerConnection_offered (st : state) p offer h1 h2 :
  createOffer (createDataChannel RTCPeerConnection) = Resolved (offer, h1) →
  setLocalDescription (Some offer) h1 = Resolved h2 →
  createPeerConnection p true st
  = Returned (Connection h2 false)
      (with_records (JsMap.set p (Connection h2 false) (peerConnections st))
                    (JsMap.set p (Channel connecting) (dataChannels st))
                    (peerUsernames st) st)
      [WsSend (offer_frame p offer)].
Proof.
  intros Hoffer Hlocal. run_handler. rewrite Hoffer /= Hlocal /=.
  by rewrite /with_records !set_set.
Qed.

Lemma createPeerConnection_refused (st : state) p msg :
  createOffer (createDataChannel RTCPeerConnection) = Rejected msg →
  createPeerConnection p true st
  = Threw msg
      (with_records
         (JsMap.set p (Connection (createDataChannel RTCPeerConnection) false)
                    (peerConnections st))
         (JsMap.set p (Channel connecting) (dataChannels st))
         (peerUsernames st) st) [].
Proof.
  intros Hoffer. run_handler. rewrite Hoffer /=. by rewrite /with_records !set_set.
Qed.

(** X15: on [existing-peers] the client offers to the listed peers one
    after the other.  When the library makes and sets the offers, every
    listed peer is sent exactly one offer, in the order of the list, and
    the handler returns. *)
Theorem join_offers_to_every_listed_peer (st : state) peers offer h1 h2 :
  createOffer (createDataChannel RTCPeerConnection) = Resolved (offer, h1) →
  setLocalDescription (Some offer) h1 = Resolved h2 →
  ∃ st', connect_to_all peers st
         = Returned tt st' ((λ peer, WsSend (offer_frame (fst peer) offer)) <$> peers).
Proof.
  intros Hoffer Hlocal. revert st.
  induction peers as [|peer rest IH]; intros st; simpl; [by eexists|].
  unfold bind at 1. unfold set_usernames at 1, modify at 1.
  unfold bind at 1.
  rewrite (createPeerConnection_offered _ (fst peer) offer h1 h2 Hoffer Hlocal).
  edestruct IH as [st' ->]. by eexists.
Qed.

(** X16: the loop over the listed peers has no [try]: if the library
    refuses to make the offer for the first peer, the handler throws there;
    that peer keeps its user name, handle and channel records, no offer is
    sent to anybody, and the peers after it get no record at all. *)
Theorem join_stops_at_first_failure (st : state) peer rest msg :
  createOffer (createDataChannel RTCPeerConnection) = Rejected msg →
  connect_to_all (peer :: rest) st
  = Threw msg
      (with_records
         (JsMap.set (fst peer) (Connection (createDataChannel RTCPeerConnection) false)
                    (peerConnections st))
         (JsMap.set (fst peer) (Channel connecting) (dataChannels st))
         (JsMap.set (fst peer) (snd peer) (peerUsernames st)) st) [].
Proof.
  intros Hoffer. simpl.
  unfold bind at 1. unfold set_usernames at 1, modify at 1.
  unfold bind at 1.
  by rewrite (createPeerConnection_refused _ (fst peer) msg Hoffer).
Qed.

(** *** What only [peer-disconnected] does *)

Section Maintains.
Context (I : state → Prop) (E : effect → Prop).

Lemma maintains_ret {A} (a : A) : maintains I E (ret a).
Proof. intros st Hst. simpl. auto. Qed.

Lemma maintains_bind {A B} (m : M A) (k : A → M B) :
  maintains I E m → (∀ a, maintains I E (k a)) → maintains I E (bind m k).
Proof.
  intros Hm Hk st Hst. unfold bind. specialize (Hm st Hst).
  destruct (m st) as [a st1 out1|e st1 out1]; simpl in *; [|done].
  destruct Hm as [Hst1 Hout1]. specialize (Hk a st1 Hst1).
  destruct (k a st1); simpl in *; destruct Hk; split; auto using Forall_app_2.
Qed.

Lemma maintains_try_catch {A} (m : M A) (handler : string → M A) :
  maintains I E m → (∀ e, maintains I E (handler e)) →
  maintains I E (try_catch m handler).
Proof.
  intros Hm Hh st Hst. unfold try_catch. specialize (Hm st Hst).
  destruct (m st) as [a st1 out1|e st1 out1]; simpl in *; [done|].
  destruct Hm as [Hst1 Hout1]. specialize (Hh e st1 Hst1).
  destruct (handler e st1); simpl in *; destruct Hh; split; auto using Forall_app_2.
Qed.

Lemma maintains_await {A} (p : promise A) : maintains I E (await p).
Proof. intros st Hst. destruct p; simpl; auto. Qed.

Lemma maintains_read {A} (f : state → A) : maintains I E (read f).
Proof. intros st Hst. simpl. auto. Qed.

Lemma maintains_emit (e : effect) : E e → maintains I E (emit e).
Proof. intros He st Hst. simpl. auto. Qed.

Lemma maintains_modify (f : state → state) :
  (∀ st, I st → I (f st)) → maintains I E (modify f).
Proof. intros Hf st Hst. simpl. auto. Qed.

Lemma maintains_throw {A} (message : string) : maintains I E (@throw _ A message).
Proof. intros st Hst. simpl. auto. Qed.

Lemma maintains_log_name lv uname l :
  E (Log lv l) → maintains I E (log_name lv uname l).
Proof.
  intros He. unfold log_name.
  destruct (printable_opt uname); [by apply maintains_emit|apply maintains_throw].
Qed.
End Maintains.

Section Kept.
Context (p : Z).

Local Abbreviation kept := (λ st : state, is_Some (JsMap.get p (peerConnections st))).
Local Abbreviation quiet := (λ e : effect, e ≠ ConnectionClose p).
Local Abbreviation holds := (maintains kept quiet).

Lemma holds_set_connection q c : holds (set_connection q c).
Proof.
  apply maintains_modify. intros st Hst. simpl.
  destruct (decide (q = p)) as [->|Hne]; [by rewrite get_set_eq|by rewrite get_set_ne].
Qed.

Lemma holds_delete_connection q : q ≠ p → holds (delete_connection q).
Proof.
  intros Hne. apply maintains_modify. intros st Hst. simpl. by rewrite get_delete_ne.
Qed.

Lemma holds_set_channels f : holds (set_channels f).
Proof. by apply maintains_modify. Qed.

Lemma holds_set_usernames f : holds (set_usernames f).
Proof. by apply maintains_modify. Qed.

Lemma holds_set_myPeerId o : holds (set_myPeerId o).
Proof. by apply maintains_modify. Qed.

Lemma holds_log lv l : holds (log lv l).
Proof. by apply maintains_emit. Qed.

Lemma holds_log_name lv uname l : holds (log_name lv uname l).
Proof. by apply maintains_log_name. Qed.

Lemma holds_ws_send v : holds (ws_send v).
Proof. by apply maintains_emit. Qed.

Lemma holds_channel_send q v : holds (emit (ChannelSend q v)).
Proof. by apply maintains_emit. Qed.

Create HintDb kept.

Hint Resolve maintains_ret maintains_await maintains_read holds_set_connection
  holds_set_channels holds_set_usernames holds_set_myPeerId holds_log holds_log_name
  holds_ws_send holds_channel_send : kept.

Ltac hold :=
  repeat first
    [ solve [eauto with kept]
    | apply maintains_bind; [|intros ?]
    | apply maintains_try_catch; [|intros ?]
    | match goal with
      | |- maintains _ _ (match ?x with _ => _ end) => destruct x
      | |- maintains _ _ (if ?x then _ else _) => destruct x
      end ].

Lemma holds_createPeerConnection q initiator : holds (createPeerConnection q initiator).
Proof.
  unfold createPeerConnection, call, call_, setupDataChannel. destruct initiator; hold.
Qed.

Hint Resolve holds_createPeerConnection : kept.

Lemma holds_connect_to_all peers : holds (connect_to_all peers).
Proof. induction peers as [|peer rest IH]; simpl; hold. Qed.

Lemma holds_send_to_open msg chans : holds (send_to_open msg chans).
Proof. induction chans as [|[q ch] rest IH]; simpl; hold. Qed.

Hint Resolve holds_connect_to_all holds_send_to_open : kept.

Lemma holds_handlePeerDisconnection q uname :
  q ≠ p → holds (handlePeerDisconnection q uname).
Proof.
  intros Hne. unfold handlePeerDisconnection. hold.
  - apply maintains_emit. congruence.
  - by apply holds_delete_connection.
Qed.

Lemma holds_dispatch ev : ¬ releases p ev → holds (dispatch ev).
Proof.
  intros Hev. destruct ev as [|data|q cand|q|q kept|q|message]; simpl.
  - hold.
  - unfold onmessage. apply maintains_bind; [apply holds_log|intros _].
    apply maintains_bind; [apply maintains_read|intros mine].
    apply maintains_bind; [hold|intros _].
    destruct data as [s peers|s q u|s u o|s a|s c|s q u|s].
    6: { apply holds_handlePeerDisconnection. intros ->. apply Hev. by eexists _, _. }
    all: unfold handleOffer, handleAnswer, handleIceCandidate, call, call_; hold.
  - hold.
  - unfold setupDataChannel. hold.
  - hold.
  - hold.
  - unfold sendMessage. hold.
Qed.
End Kept.

(** X17: the connection handle kept for a peer is let go only when the
    relay reports that peer as disconnected.  Whatever else happens, with
    any library results (a channel that closes, a refused description or
    candidate, other peers joining and leaving, a repeated [new-peer]), the
    client still keeps a handle for the peer and has not called [close()]
    on one. *)
Theorem handle_kept_until_peer_disconnected p evs (st : state) :
  (∀ ev, ev ∈ evs → ¬ releases p ev) →
  is_Some (JsMap.get p (peerConnections st)) →
  is_Some (JsMap.get p (peerConnections (fst (run evs st)))) ∧
  ConnectionClose p ∉ snd (run evs st).
Proof.
  revert st. induction evs as [|ev evs IH]; intros st Hevs Hst; simpl.
  - split; [done|]. by intros ?%elem_of_nil.
  - destruct (holds_dispatch p ev (Hevs ev ltac:(left)) st Hst) as [Hfinal Hout].
    destruct (IH (final (dispatch ev st))) as [Hkept Hquiet]; [|done|].
    { intros ev' Hin. apply Hevs. by right. }
    split; [done|]. rewrite elem_of_app. intros [Hin|Hin]; [|done].
    rewrite Forall_forall in Hout. by apply (Hout _ Hin).
Qed.

(** X18: [myPeerId] is written at most once: when it holds an id, no
    message and no page event changes it. *)
Theorem myPeerId_is_written_once evs (st : state) :
  truthy_id (myPeerId st) = true → myPeerId (fst (run evs st)) = myPeerId st.
Proof. intros Hset. by rewrite myPeerId_run Hset. Qed.

End AnyLibrary.

Import Browser.

Lemma offer_is_answered_once_witness :
  handleOffer 1 (Some (description "offer")) (init "bob")
  = Returned tt
      (with_records [(1, Connection answered true)] [] [] (init "bob"))
      [WsSend (answer_frame 1 (description "answer"))].
Proof.
  apply (@offer_is_answered_once Browser.rtc (init "bob") 1
           (Some (description "offer")) offered (description "answer") offered answered).
  - reflexivity.
  - reflexivity.
  - reflexivity.
Defined.

Lemma unknown_sender_is_dropped_witness :
  ∃ st', onmessage (IceCandidate 2 (Some bob_candidate)) (init "alice")
         = Returned tt st' [Log debug (Received (IceCandidate 2 (Some bob_candidate)))] ∧
         peerConnections st' = peerConnections (init "alice") ∧
         dataChannels st' = dataChannels (init "alice") ∧
         peerUsernames st' = peerUsernames (init "alice").
Proof.
  apply (@unknown_sender_is_dropped Browser.rtc (init "alice") 2 (Some bob_candidate)).
  - reflexivity.
  - by right.
Defined.

Lemma join_offers_to_every_listed_peer_witness :
  ∃ st', connect_to_all room (init "carol")
         = Returned tt st'
             [WsSend (offer_frame 1 (description "offer"));
              WsSend (offer_frame 2 (description "offer"))].
Proof.
  apply (@join_offers_to_every_listed_peer Browser.rtc (init "carol") room
           (description "offer") (with_channel fresh) offering).
  - reflexivity.
  - reflexivity.
Defined.

Lemma join_stops_at_first_failure_witness :
  @connect_to_all offline room (@init offline "carol")
  = Threw "Failed to create offer"
      (@with_records offline
         [(1, @Connection offline (with_channel fresh) false)]
         [(1, Channel connecting)] [(1, Some (Str "alice"))] (@init offline "carol")) [].
Proof.
  apply (@join_stops_at_first_failure offline (@init offline "carol")
           (1, Some (Str "alice")) [(2, Some (Str "bob"))] "Failed to create offer").
  reflexivity.
Defined.

Lemma handle_kept_until_peer_disconnected_witness :
  is_Some (JsMap.get 2 (peerConnections (fst (run while_waiting awaiting_answer)))) ∧
  ConnectionClose 2 ∉ snd (run while_waiting awaiting_answer).
Proof.
  apply (@handle_kept_until_peer_disconnected Browser.rtc 2 while_waiting awaiting_answer).
  - intros ev Hin (s & u & ->).
    repeat (apply elem_of_cons in Hin as [Hin|Hin]; [discriminate|]).
    by apply elem_of_nil in Hin.
  - by eexists.
Defined.

Lemma myPeerId_is_written_once_witness :
  myPeerId (fst (run [SocketMessage (Answer 3 None); SocketMessage (Other (Some 4))]
                     (fst (run early_candidate (init "alice")))))
  = Some 2.
Proof.
  apply (@myPeerId_is_written_once Browser.rtc
           [SocketMessage (Answer 3 None); SocketMessage (Other (Some 4))]
           (fst (run early_candidate (init "alice")))).
  reflexivity.
Defined.

End ClientSessions.

(** ** The relay under its own clients *)

Module SystemSafety.
Import Json Client System MapProofs RelayProofs SystemProofs.

(** X19: with every transport driven by the client, the relay never
    throws: whatever has happened so far, the frame that waits first on a
    client's socket is handled normally by the relay. *)
Theorem relay_survives_its_clients `{rtc : RTC} evs id (n : node) v rest :
  nodes (System.run evs System.initial) !! id = Some n →
  uplink n = v :: rest →
  ∃ st', Relay.step (Relay.Message id (Text v)) (relay (System.run evs System.initial))
         = Relay.Ok st'.
Proof.
  intros Hn Hup.
  destruct (inv_nodes _ (invariant_run evs System.initial invariant_initial) _ _ Hn)
    as [_ [_ Huplink _]].
  rewrite Hup in Huplink. apply Forall_cons in Huplink as [Hv _].
  by apply (relay_accepts_client_frames id).
Qed.

Import Browser.

Lemma relay_survives_its_clients_witness :
  ∃ st', Relay.step
           (Relay.Message 1 (Text (Obj [("type", Str "register");
                                        ("username", Str "alice")])))
           (relay (System.run [Join "alice"] System.initial))
         = Relay.Ok st'.
Proof.
  eapply (@relay_survives_its_clients Browser.rtc [Join "alice"] 1 _ _ []).
  - vm_compute. reflexivity.
  - reflexivity.
Defined.

End SystemSafety.

(** ** The relay without user names *)

Module VariantProofs.
Import Json Variant MapProofs.

Lemma variant_ready_of_ws_send w w' msg st :
  ready_of w (ws_send w' msg st) = ready_of w st.
Proof.
  unfold ready_of, ws_send; simpl. rewrite lookup_alter.
  case_decide; [subst|done].
  destruct (sockets st !! w) as [[[] ?]|]; done.
Qed.

Lemma variant_is_open_ws_send w w' msg st :
  is_open w (ws_send w' msg st) = is_open w st.
Proof. unfold is_open. by rewrite variant_ready_of_ws_send. Qed.

Lemma variant_sent_of_ws_send_ne w w' msg st :
  w ≠ w' → sent_of w (ws_send w' msg st) = sent_of w st.
Proof.
  intros Hne. unfold sent_of, ws_send; simpl. rewrite lookup_alter.
  case_decide; congruence.
Qed.

Lemma variant_sent_of_ws_send_open w msg st :
  is_open w st = true → sent_of w (ws_send w msg st) = sent_of w st ++ [msg].
Proof.
  unfold is_open, ready_of, sent_of, ws_send; simpl. rewrite lookup_alter.
  case_decide; [|done]. destruct (sockets st !! w) as [[[] ?]|]; done.
Qed.

Lemma variant_is_open_OPEN w st : is_open w st = true ↔ ready_of w st = OPEN.
Proof. unfold is_open. by destruct (ready_of w st). Qed.

Lemma variant_key_is_Some {V} k (m : list (Z * V)) :
  k ∈ JsMap.keys m ↔ is_Some (JsMap.get k m).
Proof.
  split.
  - intros Hin. destruct (JsMap.get k m) eqn:E; [by eexists|].
    by apply get_None_not_key in E.
  - intros [v Hv]. apply get_Some_elem_of in Hv.
    by apply (list_elem_of_fmap_2 fst) in Hv.
Qed.

(** One pass of [clients.forEach] that sends [msg] to the open transports
    whose id passes [cond]: each of them gets it once, and the registry,
    the counter and the state of every transport stay as they are. *)
Lemma variant_forEach_send (cond : Z → bool) msg (l : list (Z * Z)) acc w :
  NoDup (JsMap.keys l) → (∀ e, e ∈ l → snd e = fst e) →
  sent_of w (fold_left
               (λ acc (e : Z * Z),
                  if cond (fst e) && is_open (snd e) acc
                  then ws_send (snd e) msg acc else acc) l acc)
  = sent_of w acc ++
    (if bool_decide (w ∈ JsMap.keys l) && cond w && is_open w acc then [msg] else []).
Proof.
  revert acc. induction l as [|[k c] l IH]; intros acc Hnd Hws; simpl.
  - by rewrite app_nil_r.
  - apply NoDup_cons in Hnd as [Hk Hnd].
    assert (c = k) as -> by (apply (Hws (k, c)); left).
    set (acc' := if cond k && is_open k acc then ws_send k msg acc else acc).
    assert (∀ w', is_open w' acc' = is_open w' acc) as Hopen.
    { intros w'. subst acc'. case_match; [apply variant_is_open_ws_send|done]. }
    rewrite IH; [done| |].
    { intros e He. apply Hws. by right. }
    rewrite Hopen. destruct (decide (w = k)) as [->|Hne].
    + rewrite (bool_decide_eq_false_2 (k ∈ JsMap.keys l)) //.
      rewrite (bool_decide_eq_true_2 (k ∈ k :: JsMap.keys l)); [left|].
      simpl. rewrite app_nil_r. subst acc'.
      destruct (cond k); simpl; [|by rewrite app_nil_r].
      destruct (is_open k acc) eqn:Hk'; [|by rewrite app_nil_r].
      by apply variant_sent_of_ws_send_open.
    + assert (sent_of w acc' = sent_of w acc) as ->.
      { subst acc'. case_match; [by apply variant_sent_of_ws_send_ne|done]. }
      f_equal. assert (bool_decide (w ∈ k :: JsMap.keys l)
                       = bool_decide (w ∈ JsMap.keys l)) as ->; [|done].
      apply bool_decide_ext. rewrite elem_of_cons. naive_solver.
Qed.

Lemma variant_only_sends_refl st : only_sends st st.
Proof. by repeat split. Qed.

Lemma variant_only_sends_trans st1 st2 st3 :
  only_sends st1 st2 → only_sends st2 st3 → only_sends st1 st3.
Proof.
  intros (Hn & Hc & Hs) (Hn' & Hc' & Hs'). split_and!; [congruence..|].
  intros w. destruct (Hs w) as [Hr Hi]. destruct (Hs' w) as [Hr' Hi'].
  split; [congruence|by rewrite Hi' Hi].
Qed.

Lemma variant_only_sends_ws_send w msg st : only_sends st (ws_send w msg st).
Proof.
  split_and!; [done..|]. intros w'. split; [apply variant_ready_of_ws_send|].
  unfold ws_send; simpl. rewrite lookup_alter. case_decide; [subst|done].
  by rewrite fmap_is_Some.
Qed.

Lemma variant_only_sends_forEach (cond : Z → bool) msg (l : list (Z * Z)) st :
  only_sends st (fold_left
                   (λ acc (e : Z * Z),
                      if cond (fst e) && is_open (snd e) acc
                      then ws_send (snd e) msg acc else acc) l st).
Proof.
  apply (fold_left_invariant (only_sends st)); [apply variant_only_sends_refl|].
  intros a b _ Ha. case_match; [|done].
  eapply variant_only_sends_trans; [done|apply variant_only_sends_ws_send].
Qed.

Lemma variant_notify_new_peer_only_sends me st : only_sends st (notify_new_peer me st).
Proof. apply (variant_only_sends_forEach (λ k, negb (k =? me))). Qed.

Lemma variant_notify_disconnected_only_sends me st :
  only_sends st (notify_disconnected me st).
Proof. apply (variant_only_sends_forEach (λ _, true)). Qed.

Lemma variant_notify_new_peer_exact me st w :
  NoDup (JsMap.keys (clients st)) → (∀ e, e ∈ clients st → snd e = fst e) →
  sent_of w (notify_new_peer me st)
  = sent_of w st ++
    (if bool_decide (w ∈ JsMap.keys (clients st)) && negb (w =? me) && is_open w st
     then [new_peer_msg me] else []).
Proof. apply (variant_forEach_send (λ k, negb (k =? me))). Qed.

Lemma variant_notify_disconnected_exact me st w :
  NoDup (JsMap.keys (clients st)) → (∀ e, e ∈ clients st → snd e = fst e) →
  sent_of w (notify_disconnected me st)
  = sent_of w st ++
    (if bool_decide (w ∈ JsMap.keys (clients st)) && is_open w st
     then [peer_disconnected_msg me] else []).
Proof.
  intros Hnd Hws.
  rewrite -(andb_true_r (bool_decide (w ∈ JsMap.keys (clients st)))).
  apply (variant_forEach_send (λ _, true)); done.
Qed.

(** *** The invariant *)

Lemma live_ready w st : live w st ↔ is_Some (sockets st !! w) ∧ ready_of w st ≠ CLOSED.
Proof.
  unfold live, ready_of. split.
  - intros (s & -> & Hr). by split; [eexists|].
  - intros [[s Hs] Hr]. rewrite Hs in Hr. by exists s.
Qed.

Lemma variant_wf_only_sends st st' : wf st → only_sends st st' → wf st'.
Proof.
  intros [Hn Hs Ha Hc Hk Hl] (Hn' & Hc' & Hs'). split.
  - by rewrite Hn'.
  - intros k s Hks. rewrite Hn'.
    destruct (proj1 (proj2 (Hs' k)) (mk_is_Some _ _ Hks)) as [s0 Hs0].
    by eapply Hs.
  - intros k Hk'. rewrite Hn' in Hk'. apply Hs'. by apply Ha.
  - by rewrite Hc'.
  - by rewrite Hc'.
  - intros k. rewrite Hc' Hl !live_ready. destruct (Hs' k) as [-> ->]. done.
Qed.

Lemma variant_wf_initial : wf initial.
Proof.
  split; simpl; [lia| | |set_solver|constructor|].
  - intros k s. by rewrite lookup_empty.
  - intros k Hk. lia.
  - intros k. split; [by intros [? ?]|]. intros (s & Hs & _).
    by rewrite lookup_empty in Hs.
Qed.

Lemma variant_fresh st : wf st → JsMap.get (nextClientId st) (clients st) = None.
Proof.
  intros Hwf. destruct (JsMap.get _ _) eqn:E; [|done].
  destruct (proj1 (wf_live _ Hwf _) (mk_is_Some _ _ E)) as (s & Hs & _).
  apply (wf_sockets _ Hwf) in Hs. lia.
Qed.

(** The state after lines 110-112. *)
Lemma variant_wf_connected st :
  wf st →
  wf {| nextClientId := nextClientId st + 1;
        clients := JsMap.set (nextClientId st) (nextClientId st) (clients st);
        sockets := <[nextClientId st := Socket OPEN []]> (sockets st) |}.
Proof.
  intros Hwf. pose proof (variant_fresh _ Hwf) as Hfresh.
  destruct Hwf as [Hn Hs Ha Hc Hk Hl]. split; simpl.
  - lia.
  - intros k s. rewrite lookup_insert. case_decide; [subst; intros _; lia|].
    intros Hks%Hs. lia.
  - intros k Hk'. rewrite lookup_insert. case_decide; [by eexists|].
    apply Ha. lia.
  - rewrite set_fresh //. intros k w [Hin|Hin%list_elem_of_singleton]%elem_of_app.
    + by apply Hc.
    + by simplify_eq.
  - rewrite set_fresh //. unfold JsMap.keys. rewrite fmap_app. apply NoDup_app.
    split_and!; [done| |apply NoDup_singleton].
    intros k Hin ->%list_elem_of_singleton. by apply get_None_not_key in Hfresh.
  - intros k. unfold live; simpl. destruct (decide (k = nextClientId st)) as [->|Hne].
    + rewrite get_set_eq lookup_insert_eq. split; [|by eexists].
      intros _. by eexists.
    + rewrite get_set_ne; [done|]. rewrite lookup_insert_ne; [done|]. apply Hl.
Qed.

Lemma variant_wf_on_connection st : wf st → wf (on_connection st).
Proof.
  intros Hwf%variant_wf_connected. unfold on_connection.
  eapply variant_wf_only_sends; [|apply variant_notify_new_peer_only_sends].
  case_match; [|done].
  eapply variant_wf_only_sends; [done|apply variant_only_sends_ws_send].
Qed.

(** The state after line 152, with the transport closed. *)
Lemma variant_wf_closed st me :
  wf st →
  wf (with_clients (JsMap.delete me) (with_sockets (alter (set_ready CLOSED) me) st)).
Proof.
  intros [Hn Hs Ha Hc Hk Hl]. split; simpl.
  - done.
  - intros k s. rewrite lookup_alter. case_decide; [subst|by apply Hs].
    destruct (sockets st !! k) eqn:E; [|done]. intros _. by eapply Hs.
  - intros k Hk'. rewrite lookup_alter.
    case_decide; [subst; rewrite fmap_is_Some|]; by apply Ha.
  - intros k w [Hin _]%elem_of_delete. by apply Hc.
  - by apply keys_delete_NoDup.
  - intros k. unfold live; simpl. destruct (decide (k = me)) as [->|Hne].
    + rewrite get_delete_eq lookup_alter_eq. split; [by intros [? ?]|].
      intros (s & Hs' & Hr). by destruct (sockets st !! me); simplify_eq/=.
    + rewrite get_delete_ne; [done|]. rewrite lookup_alter_ne; [done|]. apply Hl.
Qed.

Lemma variant_wf_on_close st me :
  wf st → wf (on_close me (with_sockets (alter (set_ready CLOSED) me) st)).
Proof.
  intros Hwf. unfold on_close.
  eapply variant_wf_only_sends; [|apply variant_notify_disconnected_only_sends].
  by apply variant_wf_closed.
Qed.

Lemma variant_wf_closing st me :
  wf st → wf (with_sockets (alter socket_closing me) st).
Proof.
  intros [Hn Hs Ha Hc Hk Hl]. split; simpl; [done| | |done|done|].
  - intros k s. rewrite lookup_alter. case_decide; [subst|by apply Hs].
    destruct (sockets st !! k) eqn:E; [|done]. intros _. by eapply Hs.
  - intros k Hk'. rewrite lookup_alter.
    case_decide; [subst; rewrite fmap_is_Some|]; by apply Ha.
  - intros k. rewrite Hl. unfold live; simpl. rewrite lookup_alter.
    case_decide; [subst|done]. destruct (sockets st !! k) as [[r m]|]; simpl.
    + split; intros (s & ? & Hr); simplify_eq/=; eexists; (split; [done|]);
        by destruct r.
    + split; by intros (? & ? & _).
Qed.

Lemma variant_on_message_cases me message st :
  (∃ e, on_message me message st = Uncaught e st) ∨
  (∃ st', on_message me message st = Ok st' ∧ only_sends st st').
Proof.
  unfold on_message. destruct message as [|[]]; simpl;
    eauto using variant_only_sends_refl.
  repeat case_match; eauto using variant_only_sends_refl, variant_only_sends_ws_send.
Qed.

Lemma variant_step_cases ev st :
  (∃ e, step ev st = Uncaught e st) ∨ (∃ st', step ev st = Ok st').
Proof.
  destruct ev as [|conn message|conn|conn]; simpl; eauto.
  - destruct (sockets st !! conn) as [s|]; eauto.
    destruct (variant_on_message_cases conn message st) as [?|(st' & ? & _)];
      destruct (readyState s); eauto.
  - repeat case_match; eauto.
Qed.

Lemma variant_wf_step ev st st' : wf st → step ev st = Ok st' → wf st'.
Proof.
  intros Hwf. destruct ev as [|conn message|conn|conn]; simpl.
  - intros [= <-]. by apply variant_wf_on_connection.
  - destruct (sockets st !! conn) as [s|]; [|by intros [= <-]].
    destruct (variant_on_message_cases conn message st)
      as [[e He]|(st1 & He & Hsends)]; rewrite He;
      destruct (readyState s); try by intros [= <-].
    all: intros [= <-]; by eapply variant_wf_only_sends.
  - intros [= <-]. by apply variant_wf_closing.
  - destruct (sockets st !! conn) as [s|]; [|by intros [= <-]].
    destruct (readyState s); intros [= <-]; try done; by apply variant_wf_on_close.
Qed.

Lemma variant_wf_run evs st : wf st → wf (state_of (run evs st)).
Proof.
  revert st. induction evs as [|ev evs IH]; intros st Hwf; simpl; [done|].
  destruct (variant_step_cases ev st) as [[e He]|[st' He]]; rewrite He; simpl; [done|].
  apply IH. by eapply variant_wf_step.
Qed.

Lemma variant_reachable_wf st : reachable st → wf st.
Proof.
  intros [evs Hrun]. pose proof (variant_wf_run evs initial variant_wf_initial) as H.
  by rewrite Hrun in H.
Qed.

Lemma variant_others_are_all k (m : list (Z * Z)) :
  JsMap.get k m = None →
  List.filter (λ id, negb (id =? k)) (JsMap.keys (m ++ [(k, k)])) = JsMap.keys m.
Proof.
  intros Hfresh%get_None_not_key. unfold JsMap.keys in *.
  rewrite fmap_app List.filter_app /= Z.eqb_refl /= app_nil_r.
  apply List.forallb_filter_id, forallb_forall. intros id Hin%list_elem_of_In.
  apply negb_true_iff, Z.eqb_neq. by intros ->.
Qed.

Lemma registered_open_alt w st :
  registered_open w st ↔
  bool_decide (w ∈ JsMap.keys (clients st)) && is_open w st = true.
Proof.
  unfold registered_open. rewrite andb_true_iff bool_decide_eq_true.
  by rewrite variant_key_is_Some variant_is_open_OPEN.
Qed.

(** X20: a transport is in the registry as soon as it connects.  It is
    sent the ids of the peers already there (nothing when it is the first)
    and every one of them whose transport is open is sent [new-peer] for it
    exactly once; no other transport is sent anything. *)
Theorem connection_is_registered_and_announced st :
  reachable st →
  ∃ st', step Relay.Connection st = Ok st' ∧
    clients st' = clients st ++ [(nextClientId st, nextClientId st)] ∧
    sent_of (nextClientId st) st'
    = (if clients st is [] then []
       else [existing_peers_msg (JsMap.keys (clients st))]) ∧
    ∀ w, w ≠ nextClientId st →
      (registered_open w st →
         sent_of w st' = sent_of w st ++ [new_peer_msg (nextClientId st)]) ∧
      (¬ registered_open w st → sent_of w st' = sent_of w st).
Proof.
  intros Hwf%variant_reachable_wf. exists (on_connection st). split; [done|].
  pose proof (variant_fresh _ Hwf) as Hfresh.
  pose proof (variant_wf_connected _ Hwf) as Hwf1.
  unfold on_connection. set (me := nextClientId st) in *.
  set (st1 := {| nextClientId := me + 1; clients := _; sockets := _ |}) in *.
  assert (clients st1 = clients st ++ [(me, me)]) as Hc1 by (by apply set_fresh).
  rewrite Hc1 variant_others_are_all //.
  set (st2 := if _ : bool then _ else st1).
  assert (only_sends st1 st2) as (_ & Hc2 & Hr2).
  { subst st2. case_match;
      [apply variant_only_sends_ws_send|apply variant_only_sends_refl]. }
  assert (wf st2) as Hwf2.
  { eapply variant_wf_only_sends; [done|]. subst st2. case_match;
      [apply variant_only_sends_ws_send|apply variant_only_sends_refl]. }
  destruct (variant_notify_new_peer_only_sends me st2) as (_ & Hc3 & _).
  split; [by rewrite Hc3 Hc2|].
  assert (∀ w, sent_of w (notify_new_peer me st2)
               = sent_of w st2 ++
                 (if bool_decide (w ∈ JsMap.keys (clients st2)) && negb (w =? me)
                     && is_open w st2
                  then [new_peer_msg me] else [])) as Hsent.
  { intros w. apply variant_notify_new_peer_exact; [apply (wf_keys _ Hwf2)|].
    intros [k c] Hin. by apply (wf_clients _ Hwf2). }
  split.
  - rewrite Hsent Z.eqb_refl andb_false_r /= app_nil_r. subst st2.
    assert (sent_of me st1 = []) as Hnil.
    { unfold sent_of; simpl. by rewrite lookup_insert_eq. }
    assert (is_open me st1 = true) as Hopen.
    { unfold is_open, ready_of; simpl. by rewrite lookup_insert_eq. }
    unfold JsMap.keys. destruct (clients st) as [|e l]; [exact Hnil|].
    cbn [fmap list_fmap length]. rewrite variant_sent_of_ws_send_open; [done|].
    by rewrite Hnil.
  - intros w Hne. rewrite Hsent.
    assert (sent_of w st2 = sent_of w st) as ->.
    { transitivity (sent_of w st1).
      - subst st2. case_match; [by apply variant_sent_of_ws_send_ne|done].
      - unfold sent_of; simpl. by rewrite lookup_insert_ne. }
    assert (is_open w st2 = is_open w st) as ->.
    { unfold is_open. destruct (Hr2 w) as [-> _].
      unfold ready_of; simpl. by rewrite lookup_insert_ne. }
    assert (bool_decide (w ∈ JsMap.keys (clients st2))
            = bool_decide (w ∈ JsMap.keys (clients st))) as ->.
    { apply bool_decide_ext. rewrite Hc2 Hc1. unfold JsMap.keys.
      rewrite fmap_app elem_of_app /= list_elem_of_singleton. naive_solver. }
    assert (negb (w =? me) = true) as -> by (apply negb_true_iff, Z.eqb_neq; done).
    rewrite andb_true_r. rewrite registered_open_alt. split.
    + by intros ->.
    + intros Hnot%not_true_is_false. by rewrite Hnot app_nil_r.
Qed.

Lemma connection_is_registered_and_announced_witness :
  ∃ st', step Relay.Connection three_connected = Ok st' ∧
    clients st' = [(1, 1); (2, 2); (3, 3); (4, 4)] ∧
    sent_of 4 st' = [existing_peers_msg [1; 2; 3]] ∧
    ∀ w, w ≠ 4 →
      (registered_open w three_connected →
         sent_of w st' = sent_of w three_connected ++ [new_peer_msg 4]) ∧
      (¬ registered_open w three_connected → sent_of w st' = sent_of w three_connected).
Proof.
  apply (connection_is_registered_and_announced three_connected).
  exists [Relay.Connection; Relay.Connection; Relay.Connection; Relay.RemoteClosing 2].
  by vm_compute.
Defined.

(** X21: in every state the relay can reach, the registry holds exactly
    the ids issued so far whose transport has not emitted ['close']:
    there is no step between connecting and being a peer. *)
Theorem registry_is_the_live_transports evs k :
  is_Some (JsMap.get k (clients (state_of (run evs initial)))) ↔
  1 ≤ k < nextClientId (state_of (run evs initial)) ∧
  ready_of k (state_of (run evs initial)) ≠ CLOSED.
Proof.
  pose proof (variant_wf_run evs initial variant_wf_initial) as Hwf.
  rewrite (wf_live _ Hwf) live_ready. split.
  - intros [[s Hs] Hr]. split; [|done]. by apply (wf_sockets _ Hwf) in Hs.
  - intros [Hk Hr]. split; [|done]. by apply (wf_all _ Hwf).
Qed.

(** X22: an object sent by a connected transport, registered or about to
    close alike, is forwarded with [senderId] overwritten and everything
    else, a [username] included, as the sender wrote it.  It goes to the
    peer named by [targetPeerId] when that peer is in the registry with an
    open transport, and to nobody else; the registry does not change. *)
Theorem variant_forwards_to_target_only st me fields :
  reachable st → live me st →
  ∃ st', step (Relay.Message me (Text (Obj fields))) st = Ok st' ∧
    clients st' = clients st ∧
    ∀ w,
      (lookup_field "targetPeerId" fields = Some (Num w) ∧ registered_open w st →
         sent_of w st' = sent_of w st ++ [Obj (set_field "senderId" (Num me) fields)]) ∧
      (¬ (lookup_field "targetPeerId" fields = Some (Num w) ∧ registered_open w st) →
         sent_of w st' = sent_of w st).
Proof.
  intros Hwf%variant_reachable_wf (s & Hs & Hr). simpl. rewrite Hs.
  assert (∃ st', on_message me (Text (Obj fields)) st = Ok st' ∧
    clients st' = clients st ∧
    ∀ w,
      (lookup_field "targetPeerId" fields = Some (Num w) ∧ registered_open w st →
         sent_of w st' = sent_of w st ++ [Obj (set_field "senderId" (Num me) fields)]) ∧
      (¬ (lookup_field "targetPeerId" fields = Some (Num w) ∧ registered_open w st) →
         sent_of w st' = sent_of w st)) as H; [|by destruct (readyState s)].
  unfold on_message; simpl. rewrite RelayProofs.lookup_set_field_ne; [discriminate|].
  destruct (lookup_field "targetPeerId" fields) as [t|] eqn:Ht; simpl;
    [|exists st; split_and!; [done..|]; intros w; split; [by intros [? _]|done]].
  assert (∀ st', (∀ w, sent_of w st' = sent_of w st) →
            (∀ w, ¬ (t = Num w ∧ registered_open w st)) →
            ∀ w, (Some t = Some (Num w) ∧ registered_open w st →
                    sent_of w st' = sent_of w st
                                    ++ [Obj (set_field "senderId" (Num me) fields)]) ∧
                 (¬ (Some t = Some (Num w) ∧ registered_open w st) →
                    sent_of w st' = sent_of w st)) as Hnone.
  { intros st' Hsame Hno w. split; [|done]. intros [[= ->] Hreg].
    by destruct (Hno w). }
  destruct (truthy t) eqn:Htruthy; simpl.
  2: { exists st. split_and!; [done..|]. apply Hnone; [done|].
       intros w [-> [Hreg _]]. simpl in Htruthy.
       apply negb_false_iff, Z.eqb_eq in Htruthy as ->.
       apply (wf_live _ Hwf) in Hreg as (s0 & Hs0 & _).
       apply (wf_sockets _ Hwf) in Hs0. lia. }
  destruct t as [|b|t|str|items|fs]; simpl;
    try (exists st; split_and!; [done..|]; apply Hnone; [done|];
         by intros w [? _]).
  destruct (JsMap.get t (clients st)) as [c|] eqn:Hget.
  2: { exists st. split_and!; [done..|]. apply Hnone; [done|].
       intros w [[= <-] [[c Hc] _]]. congruence. }
  assert (c = t) as -> by (by apply (wf_clients _ Hwf), get_Some_elem_of).
  destruct (is_open t st) eqn:Hopen.
  2: { exists st. split_and!; [done..|]. apply Hnone; [done|].
       intros w [[= <-] [_ Hready%variant_is_open_OPEN]]. congruence. }
  eexists. split_and!; [done..|]. intros w. split.
  - intros [[= <-] _]. by apply variant_sent_of_ws_send_open.
  - intros Hnot. apply variant_sent_of_ws_send_ne. intros ->. apply Hnot.
    split; [done|]. split; [by eexists|by apply variant_is_open_OPEN].
Qed.

Lemma variant_forwards_to_target_only_witness :
  ∃ st', step (Relay.Message 2 (Text (Obj [("username", Str "alice");
                                            ("targetPeerId", Num 3)])))
              three_connected = Ok st' ∧
    clients st' = clients three_connected ∧
    ∀ w,
      (Some (Num 3) = Some (Num w) ∧ registered_open w three_connected →
         sent_of w st' = sent_of w three_connected
                         ++ [Obj [("username", Str "alice"); ("targetPeerId", Num 3);
                                  ("senderId", Num 2)]]) ∧
      (¬ (Some (Num 3) = Some (Num w) ∧ registered_open w three_connected) →
         sent_of w st' = sent_of w three_connected).
Proof.
  apply (variant_forwards_to_target_only three_connected 2
           [("username", Str "alice"); ("targetPeerId", Num 3)]).
  - exists [Relay.Connection; Relay.Connection; Relay.Connection; Relay.RemoteClosing 2].
    by vm_compute.
  - exists (Socket CLOSING [existing_peers_msg [1]; new_peer_msg 3]).
    split; [by vm_compute|discriminate].
Defined.

(** X23: the ['close'] of a transport removes its id from the registry,
    and every remaining peer whose transport is open is sent
    [peer-disconnected] for it exactly once; the closed transport and
    every other one are sent nothing. *)
Theorem variant_close_is_announced st me :
  reachable st → live me st →
  ∃ st', step (Relay.Close me) st = Ok st' ∧
    clients st' = JsMap.delete me (clients st) ∧
    sent_of me st' = sent_of me st ∧
    ∀ w, w ≠ me →
      (registered_open w st →
         sent_of w st' = sent_of w st ++ [peer_disconnected_msg me]) ∧
      (¬ registered_open w st → sent_of w st' = sent_of w st).
Proof.
  intros Hwf%variant_reachable_wf (s & Hs & Hr).
  set (st0 := with_sockets (alter (set_ready CLOSED) me) st).
  set (st1 := with_clients (JsMap.delete me) st0).
  exists (on_close me st0). split.
  { simpl. rewrite Hs. by destruct (readyState s). }
  pose proof (variant_wf_closed st me Hwf) as Hwf1. fold st0 st1 in Hwf1.
  unfold on_close. fold st1.
  destruct (variant_notify_disconnected_only_sends me st1) as (_ & Hc & _).
  split; [by rewrite Hc|].
  assert (∀ w, sent_of w (notify_disconnected me st1)
               = sent_of w st ++
                 (if bool_decide (w ∈ JsMap.keys (clients st1)) && is_open w st1
                  then [peer_disconnected_msg me] else [])) as Hsent.
  { intros w. rewrite variant_notify_disconnected_exact.
    - apply (wf_keys _ Hwf1).
    - intros [k c] Hin. by apply (wf_clients _ Hwf1).
    - f_equal. unfold sent_of; simpl. rewrite lookup_alter.
      case_decide; [subst|done]. by rewrite Hs. }
  split.
  - rewrite Hsent. rewrite bool_decide_eq_false_2; [|by rewrite app_nil_r].
    rewrite variant_key_is_Some. simpl. rewrite get_delete_eq. by intros [? ?].
  - intros w Hne. rewrite Hsent.
    assert (is_open w st1 = is_open w st) as ->.
    { unfold is_open, ready_of; simpl. by rewrite lookup_alter_ne. }
    assert (bool_decide (w ∈ JsMap.keys (clients st1))
            = bool_decide (w ∈ JsMap.keys (clients st))) as ->.
    { apply bool_decide_ext. rewrite !variant_key_is_Some. simpl.
      rewrite get_delete_ne; done. }
    rewrite registered_open_alt. split.
    + by intros ->.
    + intros Hnot%not_true_is_false. by rewrite Hnot app_nil_r.
Qed.

Lemma variant_close_is_announced_witness :
  ∃ st', step (Relay.Close 1) three_connected = Ok st' ∧
    clients st' = [(2, 2); (3, 3)] ∧
    sent_of 1 st' = sent_of 1 three_connected ∧
    ∀ w, w ≠ 1 →
      (registered_open w three_connected →
         sent_of w st' = sent_of w three_connected ++ [peer_disconnected_msg 1]) ∧
      (¬ registered_open w three_connected → sent_of w st' = sent_of w three_connected).
Proof.
  apply (variant_close_is_announced three_connected 1).
  - exists [Relay.Connection; Relay.Connection; Relay.Connection; Relay.RemoteClosing 2].
    by vm_compute.
  - exists (Socket OPEN [new_peer_msg 2; new_peer_msg 3]).
    split; [by vm_compute|discriminate].
Defined.

(** X24: nothing in the script is under a [try].  A frame of a connected
    transport, its first one included, makes the listener throw exactly
    when it is not JSON or is the JSON text [null]; the state is then as it
    was, and every other frame is handled normally. *)
Theorem variant_frame_throws_iff st me message :
  live me st →
  ((∃ e, step (Relay.Message me message) st = Uncaught e st) ↔
   message = Malformed ∨ message = Text Null) ∧
  ((∃ st', step (Relay.Message me message) st = Ok st') ↔
   message ≠ Malformed ∧ message ≠ Text Null).
Proof.
  intros (s & Hs & Hr).
  assert (step (Relay.Message me message) st = on_message me message st) as ->.
  { simpl. rewrite Hs. by destruct (readyState s). }
  assert (message = Malformed ∨ message = Text Null ∨
          (message ≠ Malformed ∧ message ≠ Text Null ∧
           ∃ st', on_message me message st = Ok st')) as [->|[->|(Hm & Hn & st' & ->)]].
  { destruct message as [|[]]; auto; right; right; (split_and!; [done..|]);
      unfold on_message; simpl; repeat case_match; by eexists. }
  - split; split; [by left|by eexists|by intros [? ?]|by intros [? _]].
  - split; split; [by right|by eexists|by intros [? ?]|by intros [_ ?]].
  - split; split; [by intros [? ?]|by intros [?|?]|done|by eexists].
Qed.

Lemma variant_frame_throws_iff_witness :
  ((∃ e, step (Relay.Message 1 Malformed) (on_connection initial)
         = Uncaught e (on_connection initial)) ↔
   Malformed = Malformed ∨ Malformed = Text Null) ∧
  ((∃ st', step (Relay.Message 1 Malformed) (on_connection initial) = Ok st') ↔
   Malformed ≠ Malformed ∧ Malformed ≠ Text Null).
Proof.
  apply (variant_frame_throws_iff (on_connection initial) 1 Malformed).
  exists (Socket OPEN []). split; [by vm_compute|discriminate].
Defined.

End VariantProofs.

(** ** The maps of the client *)

Module ClientRecords.
Import Json Client MapProofs ClientSessions.

Section AnyLibrary.
Context `{rtc : RTC}.

Lemma is_Some_get_set {V} p (v : V) q m :
  is_Some (JsMap.get q (JsMap.set p v m)) ↔ q = p ∨ is_Some (JsMap.get q m).
Proof.
  destruct (decide (p = q)) as [->|Hne].
  - rewrite get_set_eq. split; [by left|by eexists].
  - rewrite get_set_ne; [done|]. naive_solver.
Qed.

Lemma is_Some_get_delete {V} p q (m : list (Z * V)) :
  is_Some (JsMap.get q (JsMap.delete p m)) ↔ q ≠ p ∧ is_Some (JsMap.get q m).
Proof.
  destruct (decide (p = q)) as [->|Hne].
  - rewrite get_delete_eq. split; [by intros [? ?]|by intros [? _]].
  - rewrite get_delete_ne; [done|]. naive_solver.
Qed.

Local Abbreviation any := (λ _ : effect, True).

(** What a handler leaves, from what its first step leaves. *)
Lemma final_bind {A B} (m : M A) (k : A → M B) st (Q R : state → Prop) :
  Q (final (m st)) → (∀ st1, Q st1 → R st1) →
  (∀ a st1, Q st1 → R (final (k a st1))) →
  R (final (bind m k st)).
Proof.
  intros Hm HQR Hk. unfold bind.
  destruct (m st) as [a st1 out1|e st1 out1]; simpl in *; [|by apply HQR].
  specialize (Hk a st1 Hm). by destruct (k a st1).
Qed.

(** The same after a step whose result is at hand. *)
Lemma final_bind_step {A B} (m : M A) (k : A → M B) st (R : state → Prop) :
  match m st with
  | Returned a st1 _ => R (final (k a st1))
  | Threw _ st1 _ => R st1
  end →
  R (final (bind m k st)).
Proof.
  unfold bind. destruct (m st) as [a st1 out1|e st1 out1]; simpl; [|done].
  by destruct (k a st1).
Qed.

Lemma maintains_final {A} (I : state → Prop) (m : M A) st :
  maintains I any m → I st → I (final (m st)).
Proof. intros Hm Hst. by destruct (Hm st Hst). Qed.

Lemma named_set_connection p c : maintains (named_with p) any (set_connection p c).
Proof.
  apply maintains_modify. intros st [Hpc Hp]. split; simpl; [|done].
  by intros q [->|Hq]%is_Some_get_set; [|apply Hpc].
Qed.

Lemma named_set_channels I f :
  (I = named ∨ ∃ p, I = named_with p) → maintains I any (set_channels f).
Proof. intros [->|[p ->]]; by apply maintains_modify. Qed.

Create HintDb named.

Hint Resolve maintains_ret maintains_await maintains_read named_set_connection
  : named.

Ltac keep :=
  repeat first
    [ solve [eauto with named]
    | by apply maintains_emit
    | by apply maintains_log_name
    | apply named_set_channels; solve [eauto]
    | apply maintains_bind; [|intros ?]
    | apply maintains_try_catch; [|intros ?]
    | match goal with
      | |- maintains _ _ (match ?x with _ => _ end) => destruct x
      | |- maintains _ _ (if ?x then _ else _) => destruct x
      end ].

(** Lines 97-131, for a peer that has a user-name record. *)
Lemma named_createPeerConnection p initiator :
  maintains (named_with p) any (createPeerConnection p initiator).
Proof.
  unfold createPeerConnection, call, call_, setupDataChannel, ws_send.
  destruct initiator; keep.
Qed.

Hint Resolve named_createPeerConnection : named.

Lemma named_set_username p u st :
  named st → named_with p (final (set_usernames (JsMap.set p u) st)).
Proof.
  intros Hpc. split; simpl.
  - intros q Hq. apply is_Some_get_set. right. by apply Hpc.
  - apply is_Some_get_set. by left.
Qed.

(** Lines 72-75. *)
Lemma named_connect_to_all peers st :
  named st → named (final (connect_to_all peers st)).
Proof.
  revert st. induction peers as [|[p u] rest IH]; intros st Hst; simpl; [done|].
  apply (final_bind _ _ _ (named_with p) named);
    [by apply named_set_username|by intros ? [? _]|].
  intros _ st1 Hst1.
  apply (final_bind _ _ _ (named_with p) named);
    [by apply maintains_final; [apply named_createPeerConnection|]|by intros ? [? _]|].
  intros _ st2 [Hst2 _]. by apply IH.
Qed.

(** Lines 133-150. *)
Lemma named_handleOffer s offer :
  maintains (named_with s) any (handleOffer s offer).
Proof.
  unfold handleOffer, call, call_, ws_send. keep.
Qed.

(** Lines 152-172: a description or a candidate is applied to a handle
    that is kept, and the maps keep their keys. *)
Lemma named_apply (s : Z) (f : connection → M unit) st :
  (∀ c, maintains (named_with s) any (f c)) →
  named st →
  named (final (bind (read (λ st, JsMap.get s (peerConnections st)))
                     (λ found, match found with
                               | Some c => f c
                               | None => ret tt
                               end) st)).
Proof.
  intros Hf Hst. apply final_bind_step; simpl.
  destruct (JsMap.get s (peerConnections st)) as [c|] eqn:Hc; [|done].
  assert (named_with s st) as Hs by (split; [done|]; apply Hst; by eexists).
  by destruct (maintains_final _ _ _ (Hf c) Hs).
Qed.

(** Lines 194-203. *)
Lemma named_handlePeerDisconnection p u st :
  named st → named (final (handlePeerDisconnection p u st)).
Proof.
  intros Hpc.
  assert (∀ pcs : list (Z * connection),
            (∀ q, is_Some (JsMap.get q pcs) →
                  q ≠ p ∧ is_Some (JsMap.get q (peerConnections st))) →
            ∀ q, is_Some (JsMap.get q pcs) →
                 is_Some (JsMap.get q (JsMap.delete p (peerUsernames st)))) as Hgone.
  { intros pcs Hpcs q [Hne Hq]%Hpcs. apply is_Some_get_delete. auto. }
  unfold handlePeerDisconnection, log_name, bind, read, throw. simpl.
  destruct (JsMap.get p (peerConnections st)) as [c|] eqn:Hc; simpl;
    destruct (printable_opt u); unfold named; simpl; apply Hgone.
  1,2: by intros q ?%is_Some_get_delete.
  all: intros q Hq; split; [|done]; intros ->; rewrite Hc in Hq; by destruct Hq.
Qed.

Lemma named_onmessage data st : named st → named (final (onmessage data st)).
Proof.
  intros Hst. unfold onmessage.
  apply (final_bind _ _ _ named named); [done|done|]. intros _ st1 Hst1.
  apply (final_bind _ _ _ named named); [done|done|]. intros mine st2 Hst2.
  apply (final_bind _ _ _ named named); [by case_match|done|]. intros _ st3 Hst3.
  destruct data as [s peers|s q u|s u o|s a|s c|s q u|s]; [| | | | | |done].
  - by apply named_connect_to_all.
  - apply (final_bind _ _ _ (named_with q) named);
      [by apply named_set_username|by intros ? [? _]|].
    intros _ st4 Hst4.
    apply (final_bind _ _ _ (named_with q) named);
      [by apply maintains_final; [apply named_createPeerConnection|]
      |by intros ? [? _]|].
    by intros _ st5 [Hst5 _].
  - apply (final_bind _ _ _ (named_with s) named);
      [by apply named_set_username|by intros ? [? _]|].
    intros _ st4 Hst4.
    by destruct (maintains_final _ _ _ (named_handleOffer s o) Hst4).
  - apply (named_apply s (λ c, try_catch _ _)); [|done]. intros c0.
    unfold call_. keep.
  - apply (named_apply s (λ c, try_catch _ _)); [|done]. intros c0.
    unfold call_. keep.
  - by apply named_handlePeerDisconnection.
Qed.

Lemma named_send_to_open msg chans : maintains named any (send_to_open msg chans).
Proof. induction chans as [|[q ch] rest IH]; simpl; keep. Qed.

Lemma named_dispatch ev st : named st → named (final (dispatch ev st)).
Proof.
  intros Hst. destruct ev as [|data|q cand|q|q kept|q|message]; simpl.
  - done.
  - by apply named_onmessage.
  - by destruct cand.
  - done.
  - apply maintains_final; [|done]. keep.
  - apply maintains_final; [|done]. keep.
  - unfold sendMessage. case_match; [done|].
    apply final_bind_step; simpl.
    apply (maintains_final named); [apply named_send_to_open|done].
Qed.

Lemma named_run evs st : named st → named (fst (run evs st)).
Proof.
  revert st. induction evs as [|ev evs IH]; intros st Hst; simpl; [done|].
  by apply IH, named_dispatch.
Qed.

(** X25: at any time a connection handle is kept only for a peer that has
    a user-name record, whatever the relay sends, the page does and the
    library answers.  (A data channel may outlive its handle: the
    [datachannel] listener of a handle that line 99 has overwritten still
    records one.) *)
Theorem handles_have_a_name_record name evs p :
  is_Some (JsMap.get p (peerConnections (fst (run evs (init name))))) →
  is_Some (JsMap.get p (peerUsernames (fst (run evs (init name))))).
Proof. apply named_run. by intros q [? ?]. Qed.

End AnyLibrary.

(** A data channel can outlive its handle.  The relay announces Bob (2)
    twice, so line 99 overwrites a handle that nothing closes; after
    [peer-disconnected] for Bob that handle still brings a channel, which
    [dataChannels] takes and a click then writes to, while the client has
    neither a handle nor a user name for Bob. *)
Lemma channel_outlives_handle :
  let r := run [SocketMessage (NewPeer None 2 (Some (Str "bob")));
                SocketMessage (NewPeer None 2 (Some (Str "bob")));
                SocketMessage (PeerDisconnected None 2 (Some (Str "bob")));
                RemoteChannel 2; ChannelOpen 2 true; SendClick "hello"]
               (@init Browser.rtc "alice") in
  JsMap.get 2 (peerConnections (fst r)) = None ∧
  JsMap.get 2 (peerUsernames (fst r)) = None ∧
  JsMap.get 2 (dataChannels (fst r)) = Some (Channel open) ∧
  ChannelSend 2 (Obj [("message", Str "hello"); ("senderId", Null);
                      ("username", Str "alice")]) ∈ snd r.
Proof. vm_compute. split_and!; [done..|]. set_solver. Qed.

Lemma handles_have_a_name_record_witness :
  is_Some (JsMap.get 2 (peerUsernames
             (fst (run [SocketMessage (NewPeer None 2 None);
                        SocketMessage (Offer 2 (Some (Str "bob")) (Some (Str "sdp")))]
                       (@init Browser.rtc "alice"))))).
Proof.
  apply (@handles_have_a_name_record Browser.rtc "alice"
           [SocketMessage (NewPeer None 2 None);
            SocketMessage (Offer 2 (Some (Str "bob")) (Some (Str "sdp")))] 2).
  vm_compute. by eexists.
Defined.

End ClientRecords.
